(** * Brand-voice knowledge pipeline: chunking, embeddings, similarity search,
    ingestion and retrieval.

    A shallow embedding of
    - [src/lib/utils/hubspot.ts] (text-chunker and pdf-reader parts),
    - [src/lib/ai/embeddings.ts],
    - [src/lib/db/queries/brand-voice.ts], with what it uses of the database
      client (the second part of [src/lib/db/manual-test.js]),
    - [src/lib/ai/brand-voice-rag.ts],
    - [src/unnamed/part_006] (brand-voice-ingestion),
    followed by the properties of the specification that concern them, and
    by further properties of the same functions and of their neighbours in
    those files: invariants of the chunks, error behaviour, what each
    operation leaves in the table.

    JavaScript numbers that hold similarities and embedding components are
    IEEE 754 binary64 values, modelled by Rocq's primitive floats.  Numbers
    that hold positions, sizes and counts are modelled by [Z].  Strings are
    sequences of 8-bit code units (the Latin-1 range of UTF-16). *)

From Stdlib Require Import ZArith Lia Bool List String Ascii Permutation Sorted FinFun.
From Stdlib Require Import Floats.
From Stdlib Require DecimalString.
Import ListNotations.
Local Open Scope Z_scope.
Set Warnings "-inexact-float".

(** * JavaScript numbers: IEEE 754 binary64, as Rocq's primitive floats *)
Module JsNumber.

Definition number := float.

Definition isNaN (x : number) : bool := negb (x =? x)%float.

End JsNumber.


(** * JavaScript built-ins used by the sources *)
Module Js.

(** ** Strings *)

Definition length (s : string) : Z := Z.of_nat (String.length s).

(** Clamp of an index argument to [[0, len]]. *)
Definition clamp (len i : Z) : Z := Z.min (Z.max i 0) len.

(** [s.substring(start, end)]: both arguments are clamped to [[0, length]]
    and swapped when [start > end]. *)
Definition substring (s : string) (start end_ : Z) : string :=
  let len := length s in
  let a := clamp len start in
  let b := clamp len end_ in
  let from := Z.min a b in
  let to := Z.max a b in
  String.substring (Z.to_nat from) (Z.to_nat (to - from)) s.

Fixpoint drop (n : nat) (s : string) : string :=
  match n, s with
  | O, _ => s
  | S n', EmptyString => EmptyString
  | S n', String _ r => drop n' r
  end.

(** Largest index [i <= n] at which [sep] occurs in [s], or [-1]. *)
Fixpoint lastIndexOf_upto (sep s : string) (n : nat) : Z :=
  if String.prefix sep (drop n s) then Z.of_nat n
  else match n with
       | O => -1
       | S n' => lastIndexOf_upto sep s n'
       end.

(** [s.lastIndexOf(sep, position)]: the search starts at [position] clamped
    to [[0, length s - length sep]] and runs towards index 0. *)
Definition lastIndexOf (s sep : string) (position : Z) : Z :=
  let room := length s - length sep in
  if room <? 0 then -1
  else lastIndexOf_upto sep s (Z.to_nat (Z.min (Z.max position 0) room)).

(** [s.includes(sub)] *)
Fixpoint includes (s sub : string) : bool :=
  String.prefix sub s ||
  match s with
  | EmptyString => false
  | String _ r => includes r sub
  end.

Definition code (c : ascii) : N := N_of_ascii c.

(** WhiteSpace and LineTerminator code units below 256: TAB, LF, VT, FF, CR,
    SP and NBSP. *)
Definition isWhiteSpace (c : ascii) : bool :=
  let n := code c in
  (((9 <=? n) && (n <=? 13)) || (n =? 32) || (n =? 160))%N.

Fixpoint trimStart (s : string) : string :=
  match s with
  | String c r => if isWhiteSpace c then trimStart r else s
  | EmptyString => EmptyString
  end.

(** Drops trailing white space; the result of the recursive call decides
    whether a white-space character is kept. *)
Fixpoint trimEnd (s : string) : string :=
  match s with
  | EmptyString => EmptyString
  | String c r =>
      match trimEnd r with
      | EmptyString => if isWhiteSpace c then EmptyString else String c EmptyString
      | r' => String c r'
      end
  end.

Definition trim (s : string) : string := trimEnd (trimStart s).

(** [s.toLowerCase()] on code units below 256: A-Z and the accented capitals
    U+00C0..U+00DE (without the multiplication sign U+00D7) move up by 32. *)
Definition lowerChar (c : ascii) : ascii :=
  let n := code c in
  if (((65 <=? n) && (n <=? 90)) || ((192 <=? n) && (n <=? 222) && negb (n =? 215)))%N
  then ascii_of_N (n + 32)
  else c.

Fixpoint toLowerCase (s : string) : string :=
  match s with
  | EmptyString => EmptyString
  | String c r => String (lowerChar c) (toLowerCase r)
  end.

Definition LF : ascii := ascii_of_N 10.
Definition CR : ascii := ascii_of_N 13.
Definition TAB : ascii := ascii_of_N 9.
Definition SP : ascii := ascii_of_N 32.

Definition str1 (c : ascii) : string := String c EmptyString.

(** [s.replace(/\r\n/g, '\n')] *)
Fixpoint replaceCRLF (s : string) : string :=
  match s with
  | EmptyString => EmptyString
  | String c r =>
      match r with
      | String d r' =>
          if Ascii.eqb c CR && Ascii.eqb d LF then String LF (replaceCRLF r')
          else String c (replaceCRLF r)
      | EmptyString => s
      end
  end.

(** A pending run of [n] line feeds, as [/\n{3,}/g -> '\n\n'] leaves it. *)
Definition emitNewlines (n : nat) : string :=
  match n with
  | O => EmptyString
  | S O => str1 LF
  | _ => String LF (str1 LF)
  end.

(** [s.replace(/\n{3,}/g, '\n\n')], with the length of the current run of
    line feeds carried along. *)
Fixpoint collapseNewlines (pending : nat) (s : string) : string :=
  match s with
  | EmptyString => emitNewlines pending
  | String c r =>
      if Ascii.eqb c LF then collapseNewlines (S pending) r
      else String.append (emitNewlines pending) (String c (collapseNewlines O r))
  end.

(** [s.replace(/[ \t]+/g, ' ')] *)
Fixpoint collapseBlanks (inRun : bool) (s : string) : string :=
  match s with
  | EmptyString => EmptyString
  | String c r =>
      if Ascii.eqb c SP || Ascii.eqb c TAB
      then (if inRun then collapseBlanks true r else String SP (collapseBlanks true r))
      else String c (collapseBlanks false r)
  end.

(** ** Objects *)

(** The value of a property after [{ ...defaults, ...options }]: the one of
    [options] when it has the property, the default otherwise. *)
Definition orDefault {A : Type} (o : option A) (d : A) : A :=
  match o with Some a => a | None => d end.

(** ** Arrays *)

(** [a.slice(start, end)]: negative arguments count from the end. *)
Definition slice {A : Type} (l : list A) (start end_ : Z) : list A :=
  let len := Z.of_nat (List.length l) in
  let k := if start <? 0 then Z.max (len + start) 0 else Z.min start len in
  let fin := if end_ <? 0 then Z.max (len + end_) 0 else Z.min end_ len in
  firstn (Z.to_nat (fin - k)) (skipn (Z.to_nat k) l).

(** [a[i]]: [None] stands for [undefined]. *)
Definition at_ {A : Type} (l : list A) (i : Z) : option A :=
  if i <? 0 then None else nth_error l (Z.to_nat i).

Section Sort.
Context {A : Type}.
Variable compareFn : A -> A -> JsNumber.number.

(** The comparator asks for [x] after [y] when it returns a number [> 0];
    a NaN counts as [+0]. *)
Definition after (x y : A) : bool := (0 <? compareFn x y)%float.

Fixpoint insertSorted (x : A) (l : list A) : list A :=
  match l with
  | [] => [x]
  | y :: l' => if after x y then y :: insertSorted x l' else x :: l
  end.

(** [a.sort(compareFn)]: a stable sort (ECMAScript 2019); written as the
    insertion of each element, from the last to the first, in front of the
    elements it does not have to follow.  For a comparator that orders the
    elements consistently this is the one result a stable sort can give.
    For one that does not (it returns NaN for some pairs) the language
    leaves the order to the engine, and this is one of the permitted
    orders, not necessarily the engine's. *)
Fixpoint sort (l : list A) : list A :=
  match l with
  | [] => []
  | x :: l' => insertSorted x (sort l')
  end.
End Sort.

(** ** Numbers in template literals *)

(** [String(n)] for an integer [n]: its decimal digits, after a minus sign
    when it is negative. *)
Definition numberToString (n : Z) : string :=
  DecimalString.NilZero.string_of_int (Z.to_int n).

(** [a.join(sep)] on an array of strings. *)
Definition join (l : list string) (sep : string) : string := String.concat sep l.

End Js.

(** * Plain objects used as metadata ([Record<string, any>]) *)
Module Obj.

Inductive value : Type :=
| VString (s : string)
| VNumber (n : Z)
| VUndefined.

(** Own enumerable properties, in insertion order. *)
Definition t : Type := list (string * value).

Fixpoint set (k : string) (v : value) (o : t) : t :=
  match o with
  | [] => [(k, v)]
  | (k', v') :: o' => if String.eqb k k' then (k, v) :: o' else (k', v') :: set k v o'
  end.

(** [{...base, ...extra}] *)
Definition spread (base extra : t) : t :=
  fold_left (fun acc kv => set (fst kv) (snd kv) acc) extra base.

(** [o[k]]: [undefined] when the object has no such property. *)
Fixpoint get (k : string) (o : t) : value :=
  match o with
  | [] => VUndefined
  | (k', v) :: o' => if String.eqb k k' then v else get k o'
  end.

(** Truthiness: the empty string, 0 and [undefined] are falsy. *)
Definition truthy (v : value) : bool :=
  match v with
  | VString s => negb (String.eqb s EmptyString)
  | VNumber n => negb (n =? 0)
  | VUndefined => false
  end.

(** The value inside a template literal. *)
Definition toString (v : value) : string :=
  match v with
  | VString s => s
  | VNumber n => Js.numberToString n
  | VUndefined => "undefined"
  end.

End Obj.

(** * Text chunking utility (text-chunker part of [src/lib/utils/hubspot.ts]) *)
Module TextChunker.

Record TextChunk : Type := {
  text : string;
  index : Z;
  startPosition : Z;
  endPosition : Z;
  metadata : option Obj.t
}.

(** [ChunkingOptions]: every property is optional; [None] is an absent
    property. *)
Record ChunkingOptions : Type := {
  chunkSize : option Z;
  chunkOverlap : option Z;
  separators : option (list string);
  preserveWhitespace : option bool
}.

(** [Required<ChunkingOptions>] *)
Record Resolved : Type := {
  r_chunkSize : Z;
  r_chunkOverlap : Z;
  r_separators : list string;
  r_preserveWhitespace : bool
}.

Definition noOptions : ChunkingOptions :=
  {| chunkSize := None; chunkOverlap := None; separators := None; preserveWhitespace := None |}.

Definition nl : string := Js.str1 Js.LF.

Definition DEFAULT_OPTIONS : Resolved :=
  {| r_chunkSize := 1000;
     r_chunkOverlap := 200;
     r_separators := [String.append nl nl; nl; ". "; "! "; "? "; "; "; ", "; " "]%string;
     r_preserveWhitespace := false |}.

(** [{ ...DEFAULT_OPTIONS, ...options }] *)
Definition resolve (options : ChunkingOptions) : Resolved :=
  {| r_chunkSize := Js.orDefault (chunkSize options) (r_chunkSize DEFAULT_OPTIONS);
     r_chunkOverlap := Js.orDefault (chunkOverlap options) (r_chunkOverlap DEFAULT_OPTIONS);
     r_separators := Js.orDefault (separators options) (r_separators DEFAULT_OPTIONS);
     r_preserveWhitespace := Js.orDefault (preserveWhitespace options) (r_preserveWhitespace DEFAULT_OPTIONS) |}.

(** The whitespace normalisation applied unless [preserveWhitespace]. *)
Definition normalize (text : string) : string :=
  Js.trim (Js.collapseBlanks false (Js.collapseNewlines O (Js.replaceCRLF text))).

Definition cleanTextOf (opts : Resolved) (text : string) : string :=
  if r_preserveWhitespace opts then text else normalize text.

(** The [for (const separator of opts.separators)] loop: the first separator
    found in the window decides the split position. *)
Fixpoint findSplit (cleanText : string) (startPos endPos : Z) (seps : list string)
  : option Z :=
  match seps with
  | [] => None
  | separator :: rest =>
      let searchStart := Z.max startPos (endPos - 200) in
      let searchEnd := Z.min (endPos + 100) (Js.length cleanText) in
      let segment := Js.substring cleanText searchStart searchEnd in
      let relativePos := Js.lastIndexOf segment separator (endPos - searchStart) in
      if relativePos =? -1 then findSplit cleanText startPos endPos rest
      else Some (searchStart + relativePos + Js.length separator)
  end.

(** End position of the chunk that starts at [startPos]. *)
Definition endPosAt (opts : Resolved) (cleanText : string) (startPos : Z) : Z :=
  let endPos := Z.min (startPos + r_chunkSize opts) (Js.length cleanText) in
  if endPos <? Js.length cleanText then
    match findSplit cleanText startPos endPos (r_separators opts) with
    | Some bestSplitPos => bestSplitPos
    | None => endPos
    end
  else endPos.

(** The variables of the [while] loop. *)
Record LoopState : Type := {
  startPos : Z;
  chunkIndex : Z;
  chunks : list TextChunk
}.

Definition initial : LoopState := {| startPos := 0; chunkIndex := 0; chunks := [] |}.

(** One iteration of the body of [while (startPos < cleanText.length)]. *)
Definition chunkStep (opts : Resolved) (cleanText : string) (st : LoopState) : LoopState :=
  let endPos := endPosAt opts cleanText (startPos st) in
  let chunkText := Js.trim (Js.substring cleanText (startPos st) endPos) in
  let pushed := 0 <? Js.length chunkText in
  let chunks' :=
    if pushed then
      chunks st ++ [{| text := chunkText; index := chunkIndex st;
                       startPosition := startPos st; endPosition := endPos;
                       metadata := None |}]
    else chunks st in
  let chunkIndex' := if pushed then chunkIndex st + 1 else chunkIndex st in
  let startPos1 := endPos - r_chunkOverlap opts in
  let startPos' :=
    match Js.at_ chunks' (Z.of_nat (List.length chunks') - 1) with
    | Some lastChunk => if startPos1 <=? startPosition lastChunk then endPos else startPos1
    | None => startPos1
    end in
  {| startPos := startPos'; chunkIndex := chunkIndex'; chunks := chunks' |}.

(** The [while] loop, allowed [fuel] iterations; [None] when the loop
    condition still holds after them. *)
Fixpoint chunkLoop (fuel : nat) (opts : Resolved) (cleanText : string) (st : LoopState)
  : option (list TextChunk) :=
  if startPos st <? Js.length cleanText then
    match fuel with
    | O => None
    | S fuel' => chunkLoop fuel' opts cleanText (chunkStep opts cleanText st)
    end
  else Some (chunks st).

(** The loop state after [n] iterations of the body. *)
Fixpoint iterate (n : nat) (opts : Resolved) (cleanText : string) (st : LoopState)
  : LoopState :=
  match n with
  | O => st
  | S n' => iterate n' opts cleanText (chunkStep opts cleanText st)
  end.

Definition chunkText (fuel : nat) (text : string) (options : ChunkingOptions)
  : option (list TextChunk) :=
  let opts := resolve options in
  let cleanText := cleanTextOf opts text in
  if Js.length cleanText =? 0 then Some []
  else chunkLoop fuel opts cleanText initial.

(** [chunkTextWithMetadata]: [{...chunk, metadata: {...metadata, ...chunk.metadata}}] *)
Definition chunkTextWithMetadata (fuel : nat) (rawText : string) (meta : Obj.t)
  (options : ChunkingOptions) : option (list TextChunk) :=
  option_map
    (map (fun chunk =>
            {| text := text chunk; index := index chunk;
               startPosition := startPosition chunk; endPosition := endPosition chunk;
               metadata := Some (Obj.spread meta (Js.orDefault (metadata chunk) [])) |}))
    (chunkText fuel rawText options).

(** [Math.ceil(text.length / 4)] *)
Definition estimateTokenCount (text : string) : Z := (Js.length text + 3) / 4.

(** [chunkByTokenLimit]: [chunkText(text, { ...options, chunkSize })] with
    [chunkSize = maxTokens * 4]; [maxTokens] is 512 when it is not given. *)
Definition chunkByTokenLimit (fuel : nat) (rawText : string) (maxTokens : option Z)
  (options : ChunkingOptions) : option (list TextChunk) :=
  let size := Js.orDefault maxTokens 512 * 4 in
  chunkText fuel rawText
    {| chunkSize := Some size; chunkOverlap := chunkOverlap options;
       separators := separators options;
       preserveWhitespace := preserveWhitespace options |}.

End TextChunker.

(** * Database model types ([@/types/database]) *)
Module Database.

(** Modelled from the spec: the declaration of [BrandVoiceSource] is not among
    the sources; the five tags are the ones the data model of the
    specification lists and the sources use as string literals. *)
Inductive BrandVoiceSource : Type :=
| style_guide
| example_post
| knowledge_base
| feedback
| other.

Definition sourceEqb (a b : BrandVoiceSource) : bool :=
  match a, b with
  | style_guide, style_guide | example_post, example_post
  | knowledge_base, knowledge_base | feedback, feedback | other, other => true
  | _, _ => false
  end.

Definition sourceName (s : BrandVoiceSource) : string :=
  match s with
  | style_guide => "style_guide"
  | example_post => "example_post"
  | knowledge_base => "knowledge_base"
  | feedback => "feedback"
  | other => "other"
  end.

(** A row of [brand_voice_embeddings].  [id] is the generated key and
    [created_at] the insertion time, in milliseconds. *)
Record BrandVoiceEmbedding : Type := {
  id : nat;
  source : BrandVoiceSource;
  source_file : option string;
  text : string;
  embedding : list JsNumber.number;
  metadata : option Obj.t;
  created_at : Z
}.

Record InsertBrandVoiceEmbedding : Type := {
  i_source : BrandVoiceSource;
  i_source_file : option string;
  i_text : string;
  i_embedding : list JsNumber.number;
  i_metadata : option Obj.t
}.

End Database.

(** * The world outside the sources: provider, database, file system *)
Module Runtime.

(** A thrown value: an [Error] object with its message, or anything else. *)
Inductive thrown : Type :=
| JsError (message : string)
| NonError.

(** [error instanceof Error ? error.message : 'Unknown error'] *)
Definition messageOf (e : thrown) : string :=
  match e with
  | JsError m => m
  | NonError => "Unknown error"
  end.

(** What an external call answers. *)
Inductive answer (A : Type) : Type :=
| Ok (a : A)
| Fail (e : thrown).
Arguments Ok {A} a.
Arguments Fail {A} e.

Inductive EmbeddingModel : Type := SMALL | LARGE | ADA.

(** The part of the response of [client.embeddings.create] the sources read:
    [data[i].embedding] and [usage.total_tokens]. *)
Record CreateResponse : Type := {
  data : list (list JsNumber.number);
  total_tokens : Z
}.

Record PDFContent : Type := {
  pdf_text : string;
  numPages : Z;
  title : option string
}.

(** The mutable state: the rows of the table in the order a [SELECT] without
    [ORDER BY] yields them, the inputs of the provider calls made so far, the
    next generated key, the database clock, and the number of file-system
    calls made so far (the file system may change between two of them).
    None of the modelled queries adds a row, so the key and the clock stay
    as they are. *)
Record World : Type := {
  table : list Database.BrandVoiceEmbedding;
  requests : list (list string);
  nextId : nat;
  clock : Z;
  fsCalls : nat
}.

(** What the queries hand to the client [sql].  [SelectAll], [SelectBySource]
    and [DeleteByFile] are tagged templates, which the client sends to the
    database; [InsertRows] is the text and the parameters that the bulk
    insertion hands to [sql.unsafe]. *)
Inductive Statement : Type :=
| SelectAll
| SelectBySource (s : Database.BrandVoiceSource)
| InsertRows (rows : list Database.InsertBrandVoiceEmbedding)
| DeleteByFile (sourceFile : string).

(** The collaborators, as oracles: each external call may fail, and the
    provider may answer anything. *)
Record Env : Type := {
  OPENAI_API_KEY : bool;
  embeddings_create : list (list string) -> EmbeddingModel -> list string -> answer CreateResponse;
  sql_error : World -> Statement -> option thrown;
  fs_access : nat -> string -> bool;
  fs_readdir : nat -> string -> answer (list string);
  pdf_parse : nat -> string -> answer PDFContent;
  path_basename : string -> string;
  path_join : string -> string -> string
}.

(** Result of running a piece of code: it returns, throws, or never finishes
    (the loop bound given to it is exhausted). *)
Inductive outcome (A : Type) : Type :=
| Returned (a : A) (w : World)
| Threw (e : thrown) (w : World)
| Hang.
Arguments Returned {A} a w.
Arguments Threw {A} e w.
Arguments Hang {A}.

Definition M (A : Type) : Type := World -> outcome A.

Definition ret {A : Type} (a : A) : M A := fun w => Returned a w.

Definition throw {A : Type} (e : thrown) : M A := fun w => Threw e w.

Definition hang {A : Type} : M A := fun _ => Hang.

Definition bind {A B : Type} (m : M A) (k : A -> M B) : M B :=
  fun w =>
    match m w with
    | Returned a w' => k a w'
    | Threw e w' => Threw e w'
    | Hang => Hang
    end.

(** [try { m } catch (error) { handler(error) }] *)
Definition tryCatch {A : Type} (m : M A) (handler : thrown -> M A) : M A :=
  fun w =>
    match m w with
    | Returned a w' => Returned a w'
    | Threw e w' => handler e w'
    | Hang => Hang
    end.

Definition ofAnswer {A : Type} (a : answer A) : M A :=
  match a with
  | Ok v => ret v
  | Fail e => throw e
  end.

Definition getWorld : M World := fun w => Returned w w.

(** A call to the file system: it sees how many calls came before it. *)
Definition fsCall {A : Type} (call : nat -> A) : M A :=
  fun w =>
    Returned (call (fsCalls w))
      {| table := table w; requests := requests w; nextId := nextId w;
         clock := clock w; fsCalls := S (fsCalls w) |}.

Definition putWorld (w' : World) : M unit := fun _ => Returned tt w'.

Fixpoint mapM {A B : Type} (f : A -> M B) (l : list A) : M (list B) :=
  match l with
  | [] => ret []
  | a :: l' => bind (f a) (fun b => bind (mapM f l') (fun bs => ret (b :: bs)))
  end.

(** Elements with their indices, as the callbacks of [map] and [forEach]
    receive them. *)
Fixpoint indexedFrom {A : Type} (i : Z) (l : list A) : list (A * Z) :=
  match l with
  | [] => []
  | a :: l' => (a, i) :: indexedFrom (i + 1) l'
  end.

Definition indexed {A : Type} (l : list A) : list (A * Z) := indexedFrom 0 l.

End Runtime.

Declare Scope js_scope.
Delimit Scope js_scope with js.
Notation "x <- m ;; k" := (Runtime.bind m (fun x => k))
  (at level 61, m at next level, right associativity) : js_scope.
Notation "m ;;; k" := (Runtime.bind m (fun _ => k))
  (at level 61, right associativity) : js_scope.

(** * Embeddings generation service ([src/lib/ai/embeddings.ts]) *)
Module Embeddings.
Import Runtime.
Local Open Scope js_scope.

Record EmbeddingResult : Type := {
  embedding : list JsNumber.number;
  text : option string;
  model : EmbeddingModel;
  dimensions : Z
}.

Record BatchEmbeddingResult : Type := {
  embeddings : list EmbeddingResult;
  totalTokens : Z;
  b_model : EmbeddingModel
}.

Definition DEFAULT_MODEL : EmbeddingModel := SMALL.

Definition getOpenAIClient (env : Env) : M unit :=
  if OPENAI_API_KEY env then ret tt
  else throw (JsError "OPENAI_API_KEY environment variable is not set").

(** [client.embeddings.create({ model, input, ... })]: the call is recorded
    and answered by the provider. *)
Definition create (env : Env) (mdl : EmbeddingModel) (input : list string) : M CreateResponse :=
  fun w =>
    let w' := {| table := table w; requests := requests w ++ [input];
                 nextId := nextId w; clock := clock w; fsCalls := fsCalls w |} in
    ofAnswer (embeddings_create env (requests w) mdl input) w'.

Definition generateEmbedding (env : Env) (query : string) (mdl : EmbeddingModel)
  : M EmbeddingResult :=
  getOpenAIClient env ;;;
  tryCatch
    (response <- create env mdl [query] ;;
     match data response with
     | [] => throw (JsError "No embedding returned from OpenAI")
     | e :: _ =>
         ret {| embedding := e; text := Some query; model := mdl;
                dimensions := Z.of_nat (List.length e) |}
     end)
    (fun error =>
       throw (JsError (String.append "Failed to generate embedding: " (messageOf error)))).

(** The body of [for (let i = 0; i < texts.length; i += batchSize)], allowed
    [fuel] iterations. *)
Fixpoint batchLoop (fuel : nat) (env : Env) (texts : list string) (mdl : EmbeddingModel)
  (batchSize : Z) (i : Z) (allEmbeddings : list EmbeddingResult) (totalTokens : Z)
  : M BatchEmbeddingResult :=
  if i <? Z.of_nat (List.length texts) then
    match fuel with
    | O => hang
    | S fuel' =>
        let batch := Js.slice texts i (i + batchSize) in
        response <- tryCatch (create env mdl batch) (fun error => throw error) ;;
        let pushed :=
          map (fun item_index =>
                 {| embedding := fst item_index;
                    text := Js.at_ batch (snd item_index);
                    model := mdl;
                    dimensions := Z.of_nat (List.length (fst item_index)) |})
              (indexed (data response)) in
        batchLoop fuel' env texts mdl batchSize (i + batchSize)
          (allEmbeddings ++ pushed) (totalTokens + total_tokens response)
    end
  else ret {| embeddings := allEmbeddings; totalTokens := totalTokens; b_model := mdl |}.

Definition generateEmbeddingsBatch (fuel : nat) (env : Env) (texts : list string)
  (mdl : EmbeddingModel) (batchSize : Z) : M BatchEmbeddingResult :=
  getOpenAIClient env ;;;
  batchLoop fuel env texts mdl batchSize 0 [] 0.

(** [dotProduct], [magnitudeA] and [magnitudeB] after the [for] loop over the
    indices of [embeddingA]; the caller has checked that the lengths agree. *)
Fixpoint accumulate (embeddingA embeddingB : list JsNumber.number)
  (acc : JsNumber.number * JsNumber.number * JsNumber.number)
  : JsNumber.number * JsNumber.number * JsNumber.number :=
  match embeddingA, embeddingB with
  | a :: restA, b :: restB =>
      let '(dotProduct, magnitudeA, magnitudeB) := acc in
      accumulate restA restB
        (dotProduct + a * b, magnitudeA + a * a, magnitudeB + b * b)%float
  | _, _ => acc
  end.

(** The exported [cosineSimilarity]: it throws on a dimension mismatch. *)
Definition cosineSimilarity (embeddingA embeddingB : list JsNumber.number)
  : answer JsNumber.number :=
  if negb (List.length embeddingA =? List.length embeddingB)%nat then
    Fail (JsError "Embeddings must have the same dimensions")
  else
    let '(dotProduct, sumA, sumB) := accumulate embeddingA embeddingB (0, 0, 0)%float in
    let magnitudeA := PrimFloat.sqrt sumA in
    let magnitudeB := PrimFloat.sqrt sumB in
    if (magnitudeA =? 0)%float || (magnitudeB =? 0)%float then Ok 0%float
    else Ok (dotProduct / (magnitudeA * magnitudeB))%float.

(** An entry of the result of [findMostSimilar]: [{ index, similarity }]. *)
Record Ranked : Type := {
  index : Z;
  similarity : JsNumber.number
}.

(** [l.map(f)] with a callback that may throw: the first failure ends it. *)
Fixpoint mapAnswer {A B : Type} (f : A -> answer B) (l : list A) : answer (list B) :=
  match l with
  | [] => Ok []
  | a :: l' =>
      match f a with
      | Fail e => Fail e
      | Ok b =>
          match mapAnswer f l' with
          | Fail e => Fail e
          | Ok bs => Ok (b :: bs)
          end
      end
  end.

(** The callback of [embeddings.map((embedding, index) => ...)]. *)
Definition rankedAt (queryEmbedding : list JsNumber.number)
  (embedding_index : list JsNumber.number * Z) : answer Ranked :=
  match cosineSimilarity queryEmbedding (fst embedding_index) with
  | Fail e => Fail e
  | Ok s => Ok {| index := snd embedding_index; similarity := s |}
  end.

(** [(a, b) => b.similarity - a.similarity] *)
Definition bySimilarity (a b : Ranked) : JsNumber.number :=
  (similarity b - similarity a)%float.

(** [findMostSimilar]; [topK] is 5 when it is not given. *)
Definition findMostSimilar (queryEmbedding : list JsNumber.number)
  (embeddings : list (list JsNumber.number)) (topK : option Z) : answer (list Ranked) :=
  match mapAnswer (rankedAt queryEmbedding) (indexed embeddings) with
  | Fail e => Fail e
  | Ok similarities =>
      Ok (Js.slice (Js.sort bySimilarity similarities) 0 (Js.orDefault topK 5))
  end.

(** [normalizeEmbedding] *)
Definition normalizeEmbedding (embedding : list JsNumber.number) : list JsNumber.number :=
  let magnitude :=
    PrimFloat.sqrt (fold_left (fun sum val => (sum + val * val)%float) embedding 0%float) in
  if (magnitude =? 0)%float then embedding
  else map (fun val => (val / magnitude)%float) embedding.

End Embeddings.

(** * Brand voice database queries ([src/lib/db/queries/brand-voice.ts]) *)
Module BrandVoiceQueries.
Import Runtime Database.
Local Open Scope js_scope.

(** A row with the similarity computed for it: [{ ...item, similarity }]. *)
Record Scored : Type := {
  item : BrandVoiceEmbedding;
  similarity : JsNumber.number
}.

(** Submits a statement: the database may reject it. *)
Definition submit (env : Env) (stmt : Statement) : M unit :=
  fun w =>
    match sql_error env w stmt with
    | Some e => Threw e w
    | None => Returned tt w
    end.

(** [x || null] on an optional string: the empty string is falsy. *)
Definition orNull (s : option string) : option string :=
  match s with
  | Some EmptyString => None
  | _ => s
  end.

(** [await sql.unsafe(query, params)].  [sql] is the proxy that
    [lib/db/client.ts] puts over the Neon client, [neon(DATABASE_URL)].
    Reading [unsafe] off the proxy opens the connection, which is what can
    throw here and what the oracle answers for.  The call itself only builds
    a fragment of raw SQL, meant to be placed inside a tagged template: the
    [await] gets the fragment back, no statement is sent to the database,
    and the table stays as it is. *)
Definition unsafe (env : Env) (stmt : Statement) : M unit :=
  fun w =>
    match sql_error env w stmt with
    | Some e => Threw e w
    | None => Returned tt w
    end.

(** The loop [for (let i = 0; i < embeddings.length; i += batchSize)] with
    [batchSize = 50]. *)
Fixpoint insertLoop (fuel : nat) (env : Env) (embeddings : list InsertBrandVoiceEmbedding)
  (i totalInserted : Z) : M Z :=
  if i <? Z.of_nat (List.length embeddings) then
    match fuel with
    | O => hang
    | S fuel' =>
        let batch := Js.slice embeddings i (i + 50) in
        unsafe env (InsertRows batch) ;;;
        insertLoop fuel' env embeddings (i + 50) (totalInserted + Z.of_nat (List.length batch))
    end
  else ret totalInserted.

(** [bulkInsertBrandVoiceEmbeddings]; the loop advances by 50, so
    [length embeddings] iterations are enough. *)
Definition bulkInsertBrandVoiceEmbeddings (env : Env)
  (embeddings : list InsertBrandVoiceEmbedding) : M Z :=
  match embeddings with
  | [] => ret 0
  | _ => insertLoop (List.length embeddings) env embeddings 0 0
  end.

Definition fromFile (sourceFile : string) (row : BrandVoiceEmbedding) : bool :=
  match source_file row with
  | Some f => String.eqb f sourceFile
  | None => false
  end.

(** [deleteBrandVoiceEmbeddingsByFile].  The client answers a tagged
    template with the array of the rows the statement returns, none for a
    [DELETE] without [RETURNING]; an array has no [count], so
    [result.count || 0] is 0 whatever was deleted. *)
Definition deleteBrandVoiceEmbeddingsByFile (env : Env) (sourceFile : string) : M Z :=
  submit env (DeleteByFile sourceFile) ;;;
  w <- getWorld ;;
  putWorld {| table := filter (fun row => negb (fromFile sourceFile row)) (table w);
              requests := requests w; nextId := nextId w; clock := clock w;
              fsCalls := fsCalls w |} ;;;
  ret 0.

(** The private [cosineSimilarity]: a dimension mismatch yields 0. *)
Definition cosineSimilarity (embeddingA embeddingB : list JsNumber.number)
  : JsNumber.number :=
  if negb (List.length embeddingA =? List.length embeddingB)%nat then 0%float
  else
    let '(dotProduct, sumA, sumB) :=
      Embeddings.accumulate embeddingA embeddingB (0, 0, 0)%float in
    let magnitudeA := PrimFloat.sqrt sumA in
    let magnitudeB := PrimFloat.sqrt sumB in
    if (magnitudeA =? 0)%float || (magnitudeB =? 0)%float then 0%float
    else (dotProduct / (magnitudeA * magnitudeB))%float.

(** [SELECT * FROM brand_voice_embeddings [WHERE source = ...]] *)
Definition selectEmbeddings (env : Env) (src : option BrandVoiceSource)
  : M (list BrandVoiceEmbedding) :=
  match src with
  | Some s =>
      submit env (SelectBySource s) ;;;
      w <- getWorld ;;
      ret (filter (fun row => sourceEqb (source row) s) (table w))
  | None =>
      submit env SelectAll ;;;
      w <- getWorld ;;
      ret (table w)
  end.

(** [(a, b) => b.similarity - a.similarity] *)
Definition bySimilarityDesc (a b : Scored) : JsNumber.number :=
  (similarity b - similarity a)%float.

(** The callback of [allEmbeddings.map]: [{ ...item, similarity }]. *)
Definition score (queryEmbedding : list JsNumber.number) (row : BrandVoiceEmbedding)
  : Scored :=
  {| item := row; similarity := cosineSimilarity queryEmbedding (embedding row) |}.

(** What [findSimilarBrandVoice] does with the fetched rows: score, filter,
    sort, slice. *)
Definition rank (queryEmbedding : list JsNumber.number) (limit : Z)
  (minSimilarity : JsNumber.number) (allEmbeddings : list BrandVoiceEmbedding)
  : list Scored :=
  let similarities := map (score queryEmbedding) allEmbeddings in
  Js.slice
    (Js.sort bySimilarityDesc
       (filter (fun s => (minSimilarity <=? similarity s)%float) similarities))
    0 limit.

Definition findSimilarBrandVoice (env : Env) (queryEmbedding : list JsNumber.number)
  (limit : Z) (minSimilarity : JsNumber.number) (src : option BrandVoiceSource)
  : M (list Scored) :=
  allEmbeddings <- selectEmbeddings env src ;;
  ret (rank queryEmbedding limit minSimilarity allEmbeddings).

End BrandVoiceQueries.

(** * Brand voice retrieval ([src/lib/ai/brand-voice-rag.ts]) *)
Module BrandVoiceRag.
Import Runtime Database.
Local Open Scope js_scope.

Record BrandVoiceContext : Type := {
  text : string;
  source : BrandVoiceSource;
  sourceFile : option string;
  similarity : JsNumber.number;
  metadata : option Obj.t
}.

Record RAGOptions : Type := {
  topK : option Z;
  minSimilarity : option JsNumber.number;
  sources : option (list BrandVoiceSource);
  includeMetadata : option bool
}.

Definition noOptions : RAGOptions :=
  {| topK := None; minSimilarity := None; sources := None; includeMetadata := None |}.

Definition DEFAULT_topK : Z := 5.
Definition DEFAULT_minSimilarity : JsNumber.number := 0.7%float.
Definition DEFAULT_includeMetadata : bool := true.

Definition toContext (includeMeta : bool) (result : BrandVoiceQueries.Scored)
  : BrandVoiceContext :=
  let row := BrandVoiceQueries.item result in
  {| text := Database.text row;
     source := Database.source row;
     sourceFile := Database.source_file row;
     similarity := BrandVoiceQueries.similarity result;
     metadata := if includeMeta then Database.metadata row else None |}.

(** [opts = { ...DEFAULT_OPTIONS, ...options }]; only [topK], [minSimilarity]
    and [includeMetadata] of [opts] are read. *)
Definition retrieveBrandVoiceContext (env : Env) (query : string) (options : RAGOptions)
  : M (list BrandVoiceContext) :=
  let opts_topK := Js.orDefault (topK options) DEFAULT_topK in
  let opts_minSimilarity := Js.orDefault (minSimilarity options) DEFAULT_minSimilarity in
  let opts_includeMetadata :=
    Js.orDefault (includeMetadata options) DEFAULT_includeMetadata in
  tryCatch
    (queryEmbeddingResult <- Embeddings.generateEmbedding env query Embeddings.DEFAULT_MODEL ;;
     results <- BrandVoiceQueries.findSimilarBrandVoice env
                  (Embeddings.embedding queryEmbeddingResult)
                  opts_topK opts_minSimilarity None ;;
     ret (map (toContext opts_includeMetadata) results))
    (fun error =>
       throw (JsError (String.append "Failed to retrieve brand voice context: "
                         (messageOf error)))).

Definition guidelinesQuery (contentType : string) (platform : option string) : string :=
  match platform with
  | None | Some EmptyString => String.append "Guidelines for " contentType
  | Some p =>
      String.append "Guidelines for "
        (String.append contentType (String.append " on " (String.append p " social media")))
  end.

Definition getBrandVoiceGuidelines (env : Env) (contentType : string)
  (platform : option string) : M (list BrandVoiceContext) :=
  retrieveBrandVoiceContext env (guidelinesQuery contentType platform)
    {| topK := Some 3; minSimilarity := Some 0.65%float;
       sources := Some [style_guide]; includeMetadata := None |}.

Definition examplesQuery (topic postType : string) : string :=
  String.append "Example "
    (String.append postType (String.append " post about " topic)).

Definition getBrandVoiceExamples (env : Env) (topic postType : string)
  : M (list BrandVoiceContext) :=
  retrieveBrandVoiceContext env (examplesQuery topic postType)
    {| topK := Some 5; minSimilarity := Some 0.7%float;
       sources := Some [example_post; knowledge_base]; includeMetadata := None |}.

(** The callback of [contexts.map((context, index) => ...)] in
    [formatBrandVoiceForPrompt]: the header with the number of the reference
    and, when there is one, the file; the text on the next line; and a line
    with the section when the metadata names one. *)
Definition formatSection (context_index : BrandVoiceContext * Z) : string :=
  let context := fst context_index in
  let header :=
    String.append "[Brand Voice Reference "
      (String.append (Js.numberToString (snd context_index + 1)) "]") in
  let withFile :=
    match BrandVoiceQueries.orNull (sourceFile context) with
    | Some file => String.append header (String.append " (from " (String.append file ")"))
    | None => header
    end in
  let withText := String.append withFile (String.append TextChunker.nl (text context)) in
  let section := Obj.get "section" (Js.orDefault (metadata context) []) in
  if Obj.truthy section
  then String.append withText
         (String.append TextChunker.nl (String.append "Section: " (Obj.toString section)))
  else withText.

(** The separator of the sections: a rule between two empty lines. *)
Definition sectionSeparator : string :=
  String.append TextChunker.nl
    (String.append TextChunker.nl
       (String.append "---" (String.append TextChunker.nl TextChunker.nl))).

Definition formatBrandVoiceForPrompt (contexts : list BrandVoiceContext) : string :=
  match contexts with
  | [] => "No specific brand voice guidelines found for this context."
  | _ => Js.join (map formatSection (indexed contexts)) sectionSeparator
  end.

End BrandVoiceRag.

(** * Statistics on the table ([getBrandVoiceStats] of
    [src/lib/db/queries/brand-voice.ts] and its two callers in
    [src/lib/ai/brand-voice-rag.ts]) *)
Module BrandVoiceStats.
Import Runtime Database.
Local Open Scope js_scope.

(** The three statements of [getBrandVoiceStats]. *)
Inductive CountStatement : Type :=
| CountAll
| CountBySource
| CountByFile.

(** [Record<string, number>], in insertion order. *)
Definition Counts : Type := list (string * Z).

(** One more row for the group of [k]. *)
Fixpoint bump (k : string) (counts : Counts) : Counts :=
  match counts with
  | [] => [(k, 1)]
  | (k', n) :: rest => if String.eqb k k' then (k', n + 1) :: rest else (k', n) :: bump k rest
  end.

(** [SELECT key, COUNT( * ) ... GROUP BY key] over the keys of the rows: one
    entry per key, with the number of rows that have it.  The statement has
    no [ORDER BY], so the database may list the groups in any order; here
    they are listed in the order in which the keys first appear. *)
Definition groupCount (keys : list string) : Counts :=
  fold_left (fun acc k => bump k acc) keys [].

Record StatsResult : Type := {
  total : Z;
  bySource : Counts;
  byFile : Counts
}.

(** Submits a counting statement: the database may reject it. *)
Definition submitCount (count_error : World -> CountStatement -> option thrown)
  (stmt : CountStatement) : M unit :=
  fun w =>
    match count_error w stmt with
    | Some e => Threw e w
    | None => Returned tt w
    end.

(** The key a row contributes under [WHERE source_file IS NOT NULL]. *)
Definition fileKey (row : BrandVoiceEmbedding) : list string :=
  match source_file row with
  | Some f => [f]
  | None => []
  end.

Definition getBrandVoiceStats (count_error : World -> CountStatement -> option thrown)
  : M StatsResult :=
  submitCount count_error CountAll ;;;
  w1 <- getWorld ;;
  submitCount count_error CountBySource ;;;
  w2 <- getWorld ;;
  submitCount count_error CountByFile ;;;
  w3 <- getWorld ;;
  ret {| total := Z.of_nat (List.length (table w1));
         bySource := groupCount (map (fun row => sourceName (source row)) (table w2));
         byFile := groupCount (flat_map fileKey (table w3)) |}.

(** [isBrandVoiceInitialized]: [stats.total > 0] *)
Definition isBrandVoiceInitialized
  (count_error : World -> CountStatement -> option thrown) : M bool :=
  stats <- getBrandVoiceStats count_error ;;
  ret (0 <? total stats).

Record DebugInfo : Type := {
  initialized : bool;
  totalEmbeddings : Z;
  d_bySource : Counts;
  d_byFile : Counts
}.

Definition getBrandVoiceDebugInfo
  (count_error : World -> CountStatement -> option thrown) : M DebugInfo :=
  stats <- getBrandVoiceStats count_error ;;
  ret {| initialized := 0 <? total stats;
         totalEmbeddings := total stats;
         d_bySource := bySource stats;
         d_byFile := byFile stats |}.

End BrandVoiceStats.

(** * PDF reader utility (pdf-reader part of [src/lib/utils/hubspot.ts]) *)
Module PdfReader.
Import Runtime.
Local Open Scope js_scope.

Definition readPDF (env : Env) (filePath : string) : M PDFContent :=
  tryCatch
    (parsed <- fsCall (fun n => pdf_parse env n filePath) ;; ofAnswer parsed)
    (fun error => throw (JsError (String.append "Failed to read PDF: " (messageOf error)))).

(** [s.endsWith(suffix)] *)
Definition endsWith (s suffix : string) : bool :=
  let n := String.length s in
  let k := String.length suffix in
  (k <=? n)%nat && String.eqb (Js.drop (n - k) s) suffix.

(** [results.set(file, content)] on a [Map] kept in insertion order. *)
Fixpoint mapSet {V : Type} (k : string) (v : V) (m : list (string * V)) : list (string * V) :=
  match m with
  | [] => [(k, v)]
  | (k', v') :: m' => if String.eqb k k' then (k, v) :: m' else (k', v') :: mapSet k v m'
  end.

(** The loop over the PDF files: a file that cannot be read is logged and
    left out of the map. *)
Fixpoint readEach (env : Env) (dirPath : string) (pdfFiles : list string)
  (results : list (string * PDFContent)) : M (list (string * PDFContent)) :=
  match pdfFiles with
  | [] => ret results
  | file :: rest =>
      let filePath := path_join env dirPath file in
      results' <- tryCatch
                    (content <- readPDF env filePath ;; ret (mapSet file content results))
                    (fun _ => ret results) ;;
      readEach env dirPath rest results'
  end.

Definition readPDFsFromDirectory (env : Env) (dirPath : string)
  : M (list (string * PDFContent)) :=
  tryCatch
    (listing <- fsCall (fun n => fs_readdir env n dirPath) ;;
     files <- ofAnswer listing ;;
     let pdfFiles := filter (fun file => endsWith (Js.toLowerCase file) ".pdf") files in
     readEach env dirPath pdfFiles [])
    (fun error => throw error).

Definition fileExists (env : Env) (filePath : string) : M bool :=
  fsCall (fun n => fs_access env n filePath).

(** [listPDFFiles]: a directory that cannot be listed gives the empty list. *)
Definition listPDFFiles (env : Env) (dirPath : string) : M (list string) :=
  tryCatch
    (listing <- fsCall (fun n => fs_readdir env n dirPath) ;;
     files <- ofAnswer listing ;;
     ret (filter (fun file => endsWith (Js.toLowerCase file) ".pdf") files))
    (fun _ => ret []).

End PdfReader.

(** * Brand voice document ingestion ([src/unnamed/part_006]) *)
Module BrandVoiceIngestion.
Import Runtime Database.
Local Open Scope js_scope.

Record IngestionOptions : Type := {
  chunkSize : option Z;
  chunkOverlap : option Z;
  source : BrandVoiceSource;
  reIngest : option bool
}.

(** [Partial<IngestionOptions>] *)
Record PartialIngestionOptions : Type := {
  p_chunkSize : option Z;
  p_chunkOverlap : option Z;
  p_source : option BrandVoiceSource;
  p_reIngest : option bool
}.

Record Stats : Type := {
  pages : Z;
  characters : Z;
  chunks : Z;
  embeddings : Z;
  tokens : Z
}.

Record IngestionResult : Type := {
  success : bool;
  fileName : string;
  r_source : BrandVoiceSource;
  stats : Stats;
  errors : list string
}.

Record DirectoryResult : Type := {
  d_success : bool;
  results : list IngestionResult;
  totalStats : Stats
}.

Definition zeroStats : Stats :=
  {| pages := 0; characters := 0; chunks := 0; embeddings := 0; tokens := 0 |}.

(** [x || d] on an optional number: [undefined] and [0] are falsy. *)
Definition orElse (x : option Z) (d : Z) : Z :=
  match x with
  | Some 0 | None => d
  | Some v => v
  end.

Definition modelName (m : EmbeddingModel) : string :=
  match m with
  | SMALL => "text-embedding-3-small"
  | LARGE => "text-embedding-3-large"
  | ADA => "text-embedding-ada-002"
  end.

Definition optString (s : option string) : Obj.value :=
  match s with
  | Some v => Obj.VString v
  | None => Obj.VUndefined
  end.

(** The callback of [embeddingsResult.embeddings.map((emb, index) => ...)]:
    reading a property of [chunks[index]] or of [emb.text] throws a
    [TypeError] when it is [undefined]. *)
Definition toStore (src : BrandVoiceSource) (file : string)
  (chunkList : list TextChunker.TextChunk) (emb_index : Embeddings.EmbeddingResult * Z)
  : M InsertBrandVoiceEmbedding :=
  let emb := fst emb_index in
  match Js.at_ chunkList (snd emb_index) with
  | None =>
      throw (JsError "Cannot read properties of undefined (reading 'metadata')")
  | Some chunk =>
      match Embeddings.text emb with
      | None => throw (JsError "Cannot read properties of undefined (reading 'length')")
      | Some embText =>
          ret {| i_source := src;
                 i_source_file := Some file;
                 i_text := embText;
                 i_embedding := Embeddings.embedding emb;
                 i_metadata :=
                   Some (Obj.spread
                           (Js.orDefault (TextChunker.metadata chunk) [])
                           [("chunkIndex", Obj.VNumber (TextChunker.index chunk));
                            ("model", Obj.VString (modelName (Embeddings.model emb)));
                            ("dimensions", Obj.VNumber (Embeddings.dimensions emb));
                            ("estimatedTokens",
                             Obj.VNumber (TextChunker.estimateTokenCount embText))]%string) |}
      end
  end.

(** The options handed to the chunker:
    [{ chunkSize: options.chunkSize || 1000, chunkOverlap: options.chunkOverlap || 200 }]. *)
Definition chunkingOptions (options : IngestionOptions) : TextChunker.ChunkingOptions :=
  {| TextChunker.chunkSize := Some (orElse (chunkSize options) 1000);
     TextChunker.chunkOverlap := Some (orElse (chunkOverlap options) 200);
     TextChunker.separators := None;
     TextChunker.preserveWhitespace := None |}.

(** The [try] block of [ingestDocument]. *)
Definition ingestSteps (fuel : nat) (env : Env) (filePath file : string)
  (options : IngestionOptions) : M IngestionResult :=
  present <- PdfReader.fileExists env filePath ;;
  (if present then ret tt
   else throw (JsError (String.append "File not found: " filePath))) ;;;
  (match reIngest options with
   | Some true =>
       _ <- BrandVoiceQueries.deleteBrandVoiceEmbeddingsByFile env file ;; ret tt
   | _ => ret tt
   end) ;;;
  pdfContent <- PdfReader.readPDF env filePath ;;
  match
    TextChunker.chunkTextWithMetadata fuel (pdf_text pdfContent)
      [("fileName", Obj.VString file);
       ("source", Obj.VString (sourceName (source options)));
       ("title", optString (title pdfContent));
       ("numPages", Obj.VNumber (numPages pdfContent))]%string
      (chunkingOptions options)
  with
  | None => hang
  | Some chunkList =>
      let texts := map TextChunker.text chunkList in
      embeddingsResult <-
        Embeddings.generateEmbeddingsBatch (List.length texts) env texts SMALL 100 ;;
      embeddingsToStore <-
        mapM (toStore (source options) file chunkList)
             (indexed (Embeddings.embeddings embeddingsResult)) ;;
      stored <- BrandVoiceQueries.bulkInsertBrandVoiceEmbeddings env embeddingsToStore ;;
      ret {| success := true;
             fileName := file;
             r_source := source options;
             stats := {| pages := numPages pdfContent;
                         characters := Js.length (pdf_text pdfContent);
                         chunks := Z.of_nat (List.length chunkList);
                         embeddings := stored;
                         tokens := Embeddings.totalTokens embeddingsResult |};
             errors := [] |}
  end.

(** [ingestDocument]: whatever the [try] block throws ends up as the single
    entry of [errors].  [fuel] bounds the iterations of the chunking loop. *)
Definition ingestDocument (fuel : nat) (env : Env) (filePath : string)
  (options : IngestionOptions) : M IngestionResult :=
  let file := path_basename env filePath in
  tryCatch
    (ingestSteps fuel env filePath file options)
    (fun error =>
       ret {| success := false;
              fileName := file;
              r_source := source options;
              stats := zeroStats;
              errors := [messageOf error] |}).

(** The tag chosen from the file name. *)
Definition inferSource (file : string) : BrandVoiceSource :=
  if Js.includes (Js.toLowerCase file) "style" then style_guide
  else if Js.includes (Js.toLowerCase file) "knowledge" then knowledge_base
  else other.

(** [{ ...options, source }]: the inferred tag is written last. *)
Definition withSource (options : PartialIngestionOptions) (src : BrandVoiceSource)
  : IngestionOptions :=
  {| chunkSize := p_chunkSize options;
     chunkOverlap := p_chunkOverlap options;
     source := src;
     reIngest := p_reIngest options |}.

(** The loop [for (const [fileName, _content] of pdfs)]. *)
Fixpoint ingestEach (fuel : nat) (env : Env) (documentsDir : string)
  (options : PartialIngestionOptions) (pdfs : list (string * PDFContent))
  (acc : list IngestionResult) : M (list IngestionResult) :=
  match pdfs with
  | [] => ret acc
  | (file, _) :: rest =>
      let filePath := path_join env documentsDir file in
      let src := inferSource file in
      result <- ingestDocument fuel env filePath (withSource options src) ;;
      ingestEach fuel env documentsDir options rest (acc ++ [result])
  end.

Definition addStats (acc : Stats) (result : IngestionResult) : Stats :=
  {| pages := pages acc + pages (stats result);
     characters := characters acc + characters (stats result);
     chunks := chunks acc + chunks (stats result);
     embeddings := embeddings acc + embeddings (stats result);
     tokens := tokens acc + tokens (stats result) |}.

(** What [ingestAllDocuments] does once the directory has been scanned. *)
Definition ingestScanned (fuel : nat) (env : Env) (documentsDir : string)
  (options : PartialIngestionOptions) (pdfs : list (string * PDFContent))
  : M DirectoryResult :=
  match pdfs with
  | [] => ret {| d_success := true; results := []; totalStats := zeroStats |}
  | _ =>
      rs <- ingestEach fuel env documentsDir options pdfs [] ;;
      ret {| d_success := forallb success rs;
             results := rs;
             totalStats := fold_left addStats rs zeroStats |}
  end.

Definition ingestAllDocuments (fuel : nat) (env : Env) (documentsDir : string)
  (options : PartialIngestionOptions) : M DirectoryResult :=
  tryCatch
    (pdfs <- PdfReader.readPDFsFromDirectory env documentsDir ;;
     ingestScanned fuel env documentsDir options pdfs)
    (fun error => throw error).

End BrandVoiceIngestion.

(** * IEEE 754 facts needed by the comparator of the similarity search *)

Section SpecFloatSign.
Variables prec emax : Z.
Hypothesis prec_pos : 0 < prec.
Hypothesis prec_lt_emax : prec < emax.

Abbreviation emin := (SpecFloat.emin prec emax).
Abbreviation fexp := (SpecFloat.fexp prec emax).

Lemma digits2_pos_size (m : positive) : digits2_pos m = Pos.size m.
Proof. induction m; simpl; congruence. Qed.

Lemma digits2_lower (m : positive) : 2 ^ (Zpos (digits2_pos m) - 1) <= Zpos m.
Proof.
  rewrite digits2_pos_size.
  pose proof (Pos.size_le m) as H.
  assert (H' : 2 ^ Zpos (Pos.size m) <= 2 * Zpos m).
  { change 2 with (Zpos 2) at 1. rewrite <- Pos2Z.inj_pow. lia. }
  replace (Zpos (Pos.size m)) with (Z.succ (Zpos (Pos.size m) - 1)) in H' by lia.
  rewrite Z.pow_succ_r in H' by lia. lia.
Qed.

Lemma digits2_upper (m : positive) : Zpos m < 2 ^ Zpos (digits2_pos m).
Proof.
  rewrite digits2_pos_size.
  pose proof (Pos.size_gt m) as H.
  change 2 with (Zpos 2). rewrite <- Pos2Z.inj_pow. lia.
Qed.

Lemma iter_pos_nat {A} (f : A -> A) (p : positive) (x : A) :
  iter_pos f p x = Nat.iter (Pos.to_nat p) f x.
Proof.
  revert x. induction p as [p IH|p IH|]; intro x; simpl iter_pos.
  - rewrite !IH, Pos2Nat.inj_xI. simpl Nat.iter.
    rewrite <- Nat.iter_add, Nat.add_0_r.
    rewrite <- Nat.iter_succ, Nat.iter_succ_r. reflexivity.
  - rewrite !IH, Pos2Nat.inj_xO. simpl Nat.mul.
    rewrite <- Nat.iter_add, Nat.add_0_r. reflexivity.
  - reflexivity.
Qed.

Lemma shr_1_m (mrs : shr_record) :
  0 <= shr_m mrs -> shr_m (shr_1 mrs) = Z.div2 (shr_m mrs).
Proof.
  destruct mrs as [m r s]. simpl. destruct m as [|[p|p|]|p]; simpl; trivial; lia.
Qed.

Lemma shr_iter_m (n : nat) (mrs : shr_record) :
  0 <= shr_m mrs ->
  shr_m (Nat.iter n shr_1 mrs) = shr_m mrs / 2 ^ Z.of_nat n.
Proof.
  intro Hm. induction n as [|n IH].
  - simpl. now rewrite Z.div_1_r.
  - rewrite Nat2Z.inj_succ, Z.pow_succ_r by lia. simpl Nat.iter.
    rewrite shr_1_m.
    + rewrite IH, Z.div2_div, Z.div_div by lia. f_equal. lia.
    + rewrite IH. apply Z.div_pos; lia.
Qed.


Lemma emin_le_fexp (e : Z) : emin <= fexp e.
Proof. unfold SpecFloat.fexp. lia. Qed.

(** Shifting a positive mantissa for rounding never clears it when the
    exponent is at least [emin]. *)
Lemma shr_fexp_pos (m e : Z) (l : location) :
  0 < m -> emin <= e ->
  0 < shr_m (fst (shr_fexp prec emax m e l)) /\ emin <= snd (shr_fexp prec emax m e l).
Proof.
  intros Hm He. unfold shr_fexp, shr.
  assert (Hrec : shr_m (shr_record_of_loc m l) = m) by (destruct l as [|[]]; reflexivity).
  destruct m as [|p|p]; try lia. simpl Zdigits2.
  destruct (fexp (Zpos (digits2_pos p) + e) - e) as [|n|n] eqn:En; simpl; rewrite ?Hrec; try (split; lia).
  rewrite iter_pos_nat, shr_iter_m by (rewrite Hrec; lia).
  rewrite Hrec, positive_nat_Z. split; [|lia].
  assert (Hn : Zpos n <= Zpos (digits2_pos p) - 1) by (unfold SpecFloat.fexp in En; lia).
  pose proof (digits2_lower p) as Hlow.
  assert (Hpow : 2 ^ Zpos n <= 2 ^ (Zpos (digits2_pos p) - 1)) by (apply Z.pow_le_mono_r; lia).
  apply Z.div_str_pos. split; [apply Z.pow_pos_nonneg|]; lia.
Qed.

Lemma round_nearest_even_ge (m : Z) (l : location) : m <= round_nearest_even m l.
Proof. destruct l as [|[]]; simpl; try lia. destruct (Z.even m); lia. Qed.

(** A spec_float that is non-zero, not a NaN, and carries sign [s]. *)
Definition SFsigned (s : bool) (x : spec_float) : Prop :=
  match x with
  | S754_finite s' _ _ => s' = s
  | S754_infinity s' => s' = s
  | _ => False
  end.

Lemma binary_round_aux_signed (s : bool) (m : positive) (e : Z) (l : location) :
  emin <= e -> SFsigned s (binary_round_aux prec emax s (Zpos m) e l).
Proof.
  intro He. unfold binary_round_aux.
  pose proof (shr_fexp_pos (Zpos m) e l eq_refl He) as [H1 H1e].
  destruct (shr_fexp prec emax (Zpos m) e l) as [mrs1 e1]. simpl in H1, H1e.
  pose proof (round_nearest_even_ge (shr_m mrs1) (loc_of_shr_record mrs1)) as Hr.
  set (m1 := round_nearest_even (shr_m mrs1) (loc_of_shr_record mrs1)) in *.
  assert (Hm1 : 0 < m1) by lia.
  pose proof (shr_fexp_pos m1 e1 loc_Exact Hm1 H1e) as [H2 _].
  destruct (shr_fexp prec emax m1 e1 loc_Exact) as [mrs2 e2]. simpl in H2.
  destruct (shr_m mrs2); try lia.
  destruct (e2 <=? emax - prec); reflexivity.
Qed.

Lemma binary_round_signed (s : bool) (m : positive) (e : Z) :
  emin <= e -> SFsigned s (binary_round prec emax s m e).
Proof.
  intro He. unfold binary_round, shl_align.
  destruct (fexp (Zpos (digits2_pos m) + e) - e) eqn:En;
    apply binary_round_aux_signed; trivial.
  apply emin_le_fexp.
Qed.

Lemma binary_normalize_pos (d e : Z) :
  emin <= e ->
  SFltb (S754_zero false) (binary_normalize prec emax d e false) = (0 <? d).
Proof.
  intro He. destruct d as [|p|p]; simpl binary_normalize; trivial.
  - pose proof (binary_round_signed false p e He) as H.
    destruct (binary_round prec emax false p e); simpl in H; try contradiction; subst; reflexivity.
  - pose proof (binary_round_signed true p e He) as H.
    destruct (binary_round prec emax true p e); simpl in H; try contradiction; subst; reflexivity.
Qed.


Lemma iter_xO_pow (n : nat) (m : positive) :
  Zpos (Nat.iter n xO m) = Zpos m * 2 ^ Z.of_nat n.
Proof.
  induction n as [|n IH]; [simpl; lia|].
  rewrite Nat2Z.inj_succ, Z.pow_succ_r by lia. simpl Nat.iter.
  rewrite Pos2Z.inj_xO, IH. lia.
Qed.

Lemma shl_align_fst (m : positive) (e e' : Z) :
  e' <= e -> Zpos (fst (shl_align m e e')) = Zpos m * 2 ^ (e - e').
Proof.
  intro Hle. unfold shl_align. destruct (e' - e) as [|d|d] eqn:Ed; simpl fst; try lia.
  - replace (e - e') with 0 by lia. lia.
  - replace (e - e') with (Zpos d) by lia.
    rewrite <- (positive_nat_Z d), <- iter_xO_pow. f_equal. apply Pos2Nat.inj_iter.
Qed.

Lemma bounded_inv (m : positive) (e : Z) :
  bounded prec emax m e = true ->
  emin <= e <= emax - prec /\ Zpos (digits2_pos m) <= prec /\
  (emin < e -> Zpos (digits2_pos m) = prec).
Proof.
  unfold bounded, canonical_mantissa, SpecFloat.fexp. intro H.
  apply andb_prop in H as [H1 H2]. apply Z.eqb_eq in H1. apply Z.leb_le in H2. lia.
Qed.

(** Order embedding of the non-NaN floats into the integers: the value
    scaled by [2^-emin], with the infinities just outside the finite range. *)
Definition SFord (x : spec_float) : Z :=
  match x with
  | S754_zero _ => 0
  | S754_nan => 0
  | S754_infinity s => cond_Zopp s (2 ^ (emax - emin))
  | S754_finite s m e => cond_Zopp s (Zpos m * 2 ^ (e - emin))
  end.

Definition SFis_nan (x : spec_float) : bool :=
  match x with S754_nan => true | _ => false end.

Lemma SFord_finite_pos (m : positive) (e : Z) :
  bounded prec emax m e = true -> 0 < Zpos m * 2 ^ (e - emin) < 2 ^ (emax - emin).
Proof.
  intro Hb. apply bounded_inv in Hb as (He & Hd & _).
  assert (Hp : 0 < 2 ^ (e - emin)) by (apply Z.pow_pos_nonneg; lia).
  split; [lia|].
  pose proof (digits2_upper m) as Hu.
  assert (Hm : Zpos m < 2 ^ prec).
  { eapply Z.lt_le_trans; [exact Hu|]. apply Z.pow_le_mono_r; lia. }
  apply Z.lt_le_trans with (2 ^ prec * 2 ^ (e - emin)).
  - apply Z.mul_lt_mono_pos_r; lia.
  - rewrite <- Z.pow_add_r by lia. apply Z.pow_le_mono_r; lia.
Qed.

Lemma SFord_exponent_lt (m1 m2 : positive) (e1 e2 : Z) :
  bounded prec emax m1 e1 = true -> bounded prec emax m2 e2 = true -> e1 < e2 ->
  Zpos m1 * 2 ^ (e1 - emin) < Zpos m2 * 2 ^ (e2 - emin).
Proof.
  intros H1 H2 Hlt.
  apply bounded_inv in H1 as (He1 & Hd1 & _). apply bounded_inv in H2 as (He2 & _ & Hd2).
  specialize (Hd2 ltac:(lia)).
  pose proof (digits2_upper m1) as Hu. pose proof (digits2_lower m2) as Hl. rewrite Hd2 in Hl.
  assert (Hm1 : Zpos m1 < 2 ^ prec).
  { eapply Z.lt_le_trans; [exact Hu|]. apply Z.pow_le_mono_r; lia. }
  assert (Hp : 0 < 2 ^ (e1 - emin)) by (apply Z.pow_pos_nonneg; lia).
  replace (e2 - emin) with ((e2 - e1) + (e1 - emin)) by lia.
  rewrite Z.pow_add_r by lia. rewrite Z.mul_assoc.
  apply Z.mul_lt_mono_pos_r; [lia|].
  assert (Hq : 2 ^ 1 <= 2 ^ (e2 - e1)) by (apply Z.pow_le_mono_r; lia).
  assert (Hpp : 2 ^ prec = 2 * 2 ^ (prec - 1)).
  { rewrite <- Z.pow_succ_r by lia. f_equal. lia. }
  change (2 ^ 1) with 2 in Hq. nia.
Qed.

Lemma SFcompare_ord (x y : spec_float) :
  SpecFloat.valid_binary prec emax x = true -> SpecFloat.valid_binary prec emax y = true ->
  SFis_nan x = false -> SFis_nan y = false ->
  SFcompare x y = Some (SFord x ?= SFord y).
Proof.
  intros Vx Vy Nx Ny.
  assert (Hinf : 0 < 2 ^ (emax - emin)) by (apply Z.pow_pos_nonneg; unfold SpecFloat.emin; lia).
  set (I := 2 ^ (emax - emin)) in *.
  destruct x as [sx|sx| |sx mx ex], y as [sy|sy| |sy my ey]; try discriminate;
    cbn [SpecFloat.valid_binary] in Vx, Vy;
    try (pose proof (SFord_finite_pos mx ex Vx) as Px; set (X := Zpos mx * 2 ^ (ex - emin)) in * );
    try (pose proof (SFord_finite_pos my ey Vy) as Py; set (Y := Zpos my * 2 ^ (ey - emin)) in * );
    cbn [SFcompare SFord]; fold I; try fold X; try fold Y.
  1-8: try destruct sx; try destruct sy; cbn [cond_Zopp].
  all: try (f_equal; symmetry; first [apply Z.compare_eq_iff; lia | apply Z.compare_lt_iff; lia | apply Z.compare_gt_iff; lia]).
  f_equal. symmetry.
  destruct sx, sy; cbn [cond_Zopp].
  - destruct (Z.compare_spec ex ey) as [Heq|Hlt|Hgt].
    + subst ey. rewrite Pos.compare_cont_spec. cbn [Pos.switch_Eq].
      assert (Hp : 0 < 2 ^ (ex - emin)) by (subst X; nia).
      rewrite Z.compare_opp.
      subst X Y.
      destruct (Pos.compare_spec mx my) as [E|L|G]; cbn [CompOpp].
      * subst. apply Z.compare_eq_iff. lia.
      * apply Z.compare_gt_iff. apply Pos2Z.pos_lt_pos in L. nia.
      * apply Z.compare_lt_iff. apply Pos2Z.pos_lt_pos in G. nia.
    + pose proof (SFord_exponent_lt mx my ex ey Vx Vy Hlt). apply Z.compare_gt_iff. lia.
    + pose proof (SFord_exponent_lt my mx ey ex Vy Vx ltac:(lia)). apply Z.compare_lt_iff. lia.
  - apply Z.compare_lt_iff. lia.
  - apply Z.compare_gt_iff. lia.
  - destruct (Z.compare_spec ex ey) as [Heq|Hlt|Hgt].
    + subst ey. rewrite Pos.compare_cont_spec. cbn [Pos.switch_Eq].
      assert (Hp : 0 < 2 ^ (ex - emin)) by (subst X; nia).
      subst X Y.
      destruct (Pos.compare_spec mx my) as [E|L|G].
      * subst. apply Z.compare_eq_iff. lia.
      * apply Z.compare_lt_iff. apply Pos2Z.pos_lt_pos in L. nia.
      * apply Z.compare_gt_iff. apply Pos2Z.pos_lt_pos in G. nia.
    + pose proof (SFord_exponent_lt mx my ex ey Vx Vy Hlt). apply Z.compare_lt_iff. lia.
    + pose proof (SFord_exponent_lt my mx ey ex Vy Vx ltac:(lia)). apply Z.compare_gt_iff. lia.
Qed.

Lemma SFord_scaled (s : bool) (m : positive) (e ez : Z) :
  emin <= ez -> ez <= e ->
  SFord (S754_finite s m e) = cond_Zopp s (Zpos (fst (shl_align m e ez))) * 2 ^ (ez - emin).
Proof.
  intros H1 H2. cbn [SFord]. rewrite shl_align_fst by lia.
  replace (e - emin) with ((e - ez) + (ez - emin)) by lia.
  rewrite Z.pow_add_r by lia. destruct s; cbn [cond_Zopp]; lia.
Qed.

(** The sign of a difference decides the order of its operands; this is
    what makes [(a, b) => b - a] a consistent comparator. *)
Lemma SFsub_pos (a b : spec_float) :
  SpecFloat.valid_binary prec emax a = true -> SpecFloat.valid_binary prec emax b = true ->
  SFltb (S754_zero false) (SFsub prec emax a b) = SFltb b a.
Proof.
  intros Va Vb.
  destruct a as [sa|sa| |sa ma ea], b as [sb|sb| |sb mb eb];
    try (try destruct sa; try destruct sb; reflexivity).
  cbn [SFsub]. cbn [SpecFloat.valid_binary] in Va, Vb.
  pose proof (bounded_inv _ _ Va) as (Ha & _). pose proof (bounded_inv _ _ Vb) as (Hb & _).
  rewrite binary_normalize_pos by lia.
  unfold SFltb. rewrite SFcompare_ord by (trivial; reflexivity).
  rewrite (SFord_scaled sa ma ea (Z.min ea eb)), (SFord_scaled sb mb eb (Z.min ea eb)) by lia.
  set (A := cond_Zopp sa _). set (B := cond_Zopp sb _).
  assert (Hp : 0 < 2 ^ (Z.min ea eb - emin)) by (apply Z.pow_pos_nonneg; lia).
  change (match B * 2 ^ (Z.min ea eb - emin) ?= A * 2 ^ (Z.min ea eb - emin) with Lt => true | _ => false end)
    with (B * 2 ^ (Z.min ea eb - emin) <? A * 2 ^ (Z.min ea eb - emin)).
  destruct (Z.ltb_spec 0 (A - B)), (Z.ltb_spec (B * 2 ^ (Z.min ea eb - emin)) (A * 2 ^ (Z.min ea eb - emin)));
    trivial; nia.
Qed.

End SpecFloatSign.

(** ** The order of binary64 numbers *)
Module JsNumberFacts.
Import JsNumber.

(** Integer image of a number under the order embedding. *)
Definition ord (x : number) : Z := SFord prec emax (Prim2SF x).

Lemma binary64_prec_pos : 0 < prec.
Proof. reflexivity. Qed.

Lemma binary64_prec_lt_emax : prec < emax.
Proof. reflexivity. Qed.

Lemma isNaN_spec (x : number) : isNaN x = SFis_nan (Prim2SF x).
Proof.
  unfold isNaN. rewrite eqb_spec. pose proof (Prim2SF_valid x) as V.
  destruct (Prim2SF x) as [s|s| |s m e] eqn:E; try (destruct s; reflexivity); try reflexivity.
  unfold SFeqb. rewrite (SFcompare_ord prec emax binary64_prec_pos binary64_prec_lt_emax) by (trivial; reflexivity).
  now rewrite Z.compare_refl.
Qed.

Lemma compare_ord (x y : number) :
  isNaN x = false -> isNaN y = false ->
  SFcompare (Prim2SF x) (Prim2SF y) = Some (ord x ?= ord y).
Proof.
  rewrite !isNaN_spec. intros.
  apply (SFcompare_ord prec emax binary64_prec_pos binary64_prec_lt_emax); trivial; apply Prim2SF_valid.
Qed.

Lemma ltb_ord (x y : number) :
  isNaN x = false -> isNaN y = false -> (x <? y)%float = (ord x <? ord y).
Proof. intros. rewrite ltb_spec. unfold SFltb. now rewrite compare_ord. Qed.

Lemma leb_ord (x y : number) :
  isNaN x = false -> isNaN y = false -> (x <=? y)%float = (ord x <=? ord y).
Proof.
  intros. rewrite leb_spec. unfold SFleb. rewrite compare_ord by trivial.
  unfold Z.leb. now destruct (ord x ?= ord y).
Qed.

Lemma eqb_ord (x y : number) :
  isNaN x = false -> isNaN y = false -> (x =? y)%float = (ord x =? ord y).
Proof.
  intros. rewrite eqb_spec. unfold SFeqb. rewrite compare_ord by trivial.
  destruct (Z.compare_spec (ord x) (ord y)); symmetry;
    [apply Z.eqb_eq | apply Z.eqb_neq | apply Z.eqb_neq]; lia.
Qed.

Lemma leb_true_not_nan (x y : number) :
  (x <=? y)%float = true -> isNaN x = false /\ isNaN y = false.
Proof.
  rewrite leb_spec, !isNaN_spec. unfold SFleb.
  destruct (Prim2SF x), (Prim2SF y); simpl; auto; discriminate.
Qed.

Lemma eqb_true_not_nan (x y : number) :
  (x =? y)%float = true -> isNaN x = false /\ isNaN y = false.
Proof.
  rewrite eqb_spec, !isNaN_spec. unfold SFeqb.
  destruct (Prim2SF x), (Prim2SF y); simpl; auto; discriminate.
Qed.

Lemma ltb_sub_pos (x y : number) : (0 <? y - x)%float = (x <? y)%float.
Proof.
  rewrite !ltb_spec, sub_spec.
  change (Prim2SF 0) with (S754_zero false).
  apply (SFsub_pos prec emax binary64_prec_pos binary64_prec_lt_emax); apply Prim2SF_valid.
Qed.

End JsNumberFacts.

(** * Properties of the built-ins *)

Section SortFacts.
Context {A : Type}.
Variable compareFn : A -> A -> JsNumber.number.

Lemma insertSorted_perm (x : A) (l : list A) :
  Permutation (Js.insertSorted compareFn x l) (x :: l).
Proof.
  induction l as [|y l IH]; simpl; [apply Permutation_refl|].
  destruct (Js.after compareFn x y); [|apply Permutation_refl].
  apply perm_trans with (y :: x :: l); [now apply perm_skip | apply perm_swap].
Qed.

Lemma sort_perm (l : list A) : Permutation (Js.sort compareFn l) l.
Proof.
  induction l as [|x l IH]; simpl; [apply perm_nil|].
  apply perm_trans with (x :: Js.sort compareFn l);
    [apply insertSorted_perm | now apply perm_skip].
Qed.

(** When the comparator is, on the elements that satisfy [good], the
    descending order of an integer key, the result is sorted by that key. *)
Variable key : A -> Z.
Variable good : A -> Prop.
Hypothesis after_key :
  forall x y, good x -> good y -> Js.after compareFn x y = (key x <? key y).

Definition keyDesc (a b : A) : Prop := key b <= key a.

Lemma insertSorted_sorted (x : A) (l : list A) :
  good x -> Forall good l ->
  StronglySorted keyDesc l -> StronglySorted keyDesc (Js.insertSorted compareFn x l).
Proof.
  intros Gx Gl. induction 1 as [|y l Hs IH Hall]; simpl.
  - repeat constructor.
  - inversion Gl as [|? ? Gy Gl']; subst.
    rewrite after_key by trivial. destruct (Z.ltb_spec (key x) (key y)) as [Hlt|Hge].
    + constructor; [now apply IH|].
      apply Forall_forall. intros z Hz.
      apply (Permutation_in _ (insertSorted_perm x l)) in Hz. destruct Hz as [<-|Hz].
      * unfold keyDesc. lia.
      * rewrite Forall_forall in Hall. now apply Hall.
    + constructor; [now constructor|].
      constructor; [exact Hge|].
      eapply Forall_impl; [|exact Hall]. unfold keyDesc. intros; lia.
Qed.

Lemma sort_good (l : list A) : Forall good l -> Forall good (Js.sort compareFn l).
Proof.
  intro H. apply Forall_forall. intros z Hz.
  apply (Permutation_in _ (sort_perm l)) in Hz.
  rewrite Forall_forall in H. now apply H.
Qed.

Lemma sort_sorted (l : list A) :
  Forall good l -> StronglySorted keyDesc (Js.sort compareFn l).
Proof.
  induction 1 as [|x l Gx Gl IH]; simpl; [constructor|].
  apply insertSorted_sorted; auto using sort_good.
Qed.

(** [before a b l]: an occurrence of [a] precedes an occurrence of [b]. *)
Definition before (a b : A) (l : list A) : Prop :=
  exists l1 l2 l3, l = l1 ++ a :: l2 ++ b :: l3.

Lemma before_cons (a b y : A) (l : list A) : before a b l -> before a b (y :: l).
Proof. intros (l1 & l2 & l3 & ->). now exists (y :: l1), l2, l3. Qed.

Lemma before_head (a b : A) (l : list A) : In b l -> before a b (a :: l).
Proof. intro H. apply in_split in H as (l2 & l3 & ->). now exists [], l2, l3. Qed.

Lemma before_inv (a b y : A) (l : list A) :
  before a b (y :: l) -> (y = a /\ In b l) \/ before a b l.
Proof.
  intros ([|z l1] & l2 & l3 & E); simpl in E; injection E as -> ->.
  - left. split; trivial. apply in_or_app. right. now left.
  - right. now exists l1, l2, l3.
Qed.

Lemma before_nil (a b : A) : ~ before a b [].
Proof. intros ([|? ?] & ? & ? & E); discriminate E. Qed.

Lemma insertSorted_keeps_order (x a b : A) (l : list A) :
  before a b l -> before a b (Js.insertSorted compareFn x l).
Proof.
  induction l as [|y l IH]; simpl; intro H.
  - now apply before_nil in H.
  - destruct (Js.after compareFn x y); [|now apply before_cons].
    apply before_inv in H as [[-> Hb]|H].
    + apply before_head. apply (Permutation_in _ (Permutation_sym (insertSorted_perm x l))).
      now right.
    + apply before_cons. now apply IH.
Qed.

Lemma insertSorted_first_among_ties (x b : A) (l : list A) :
  good x -> Forall good l ->
  key b = key x -> In b l -> before x b (Js.insertSorted compareFn x l).
Proof.
  intros Gx Gl Hk. induction Gl as [|y l Gy Gl IH]; simpl; intro Hin; [contradiction|].
  rewrite after_key by trivial. destruct (Z.ltb_spec (key x) (key y)) as [Hlt|Hge].
  - destruct Hin as [->|Hin]; [lia|]. apply before_cons. now apply IH.
  - now apply before_head.
Qed.

(** Stability: elements with equal keys keep their relative order. *)
Lemma sort_stable (a b : A) (l : list A) :
  Forall good l -> key a = key b -> before a b l -> before a b (Js.sort compareFn l).
Proof.
  intros Gl Hk. induction Gl as [|y l Gy Gl IH]; simpl; intro H.
  - now apply before_nil in H.
  - apply before_inv in H as [[-> Hb]|H].
    + apply insertSorted_first_among_ties; auto using sort_good.
      apply (Permutation_in _ (Permutation_sym (sort_perm l))). exact Hb.
    + apply insertSorted_keeps_order. now apply IH.
Qed.

End SortFacts.

Section ListFacts.
Context {A : Type}.

Lemma slice_0_firstn (l : list A) (k : Z) :
  Js.slice l 0 k =
  firstn (Z.to_nat (if k <? 0 then Z.max (Z.of_nat (List.length l) + k) 0
                    else Z.min k (Z.of_nat (List.length l)))) l.
Proof.
  unfold Js.slice. simpl (0 <? 0). cbv iota.
  replace (Z.min 0 (Z.of_nat (List.length l))) with 0 by lia.
  simpl skipn. now rewrite Z.sub_0_r.
Qed.

Lemma slice_0_length (l : list A) (k : Z) :
  0 <= k -> Z.of_nat (List.length (Js.slice l 0 k)) <= k.
Proof.
  intro Hk. rewrite slice_0_firstn. destruct (Z.ltb_spec k 0); [lia|].
  rewrite length_firstn. lia.
Qed.

Lemma firstn_incl (n : nat) (l : list A) (x : A) : In x (firstn n l) -> In x l.
Proof.
  revert l. induction n as [|n IH]; intros [|y l]; simpl; try tauto.
  intros [->|H]; auto.
Qed.

Lemma firstn_StronglySorted (R : A -> A -> Prop) (n : nat) (l : list A) :
  StronglySorted R l -> StronglySorted R (firstn n l).
Proof.
  intro H. revert n. induction H as [|x l Hs IH Hall]; intros [|n]; simpl; try constructor.
  - apply IH.
  - apply Forall_forall. intros y Hy. apply firstn_incl in Hy.
    rewrite Forall_forall in Hall. now apply Hall.
Qed.

Lemma StronglySorted_weaken (R R' : A -> A -> Prop) (l : list A) :
  (forall a b, In a l -> In b l -> R a b -> R' a b) ->
  StronglySorted R l -> StronglySorted R' l.
Proof.
  intros Himp H. induction H as [|x l Hs IH Hall]; constructor.
  - apply IH. intros a b Ha Hb. apply Himp; now right.
  - apply Forall_forall. intros y Hy. rewrite Forall_forall in Hall.
    apply Himp; [now left | now right | now apply Hall].
Qed.

Lemma before_map {B : Type} (f : A -> B) (a b : A) (l : list A) :
  before a b l -> before (f a) (f b) (map f l).
Proof.
  intros (l1 & l2 & l3 & ->). exists (map f l1), (map f l2), (map f l3).
  now rewrite map_app, (map_cons f a), map_app.
Qed.

Lemma before_filter (p : A -> bool) (a b : A) (l : list A) :
  p a = true -> p b = true -> before a b l -> before a b (filter p l).
Proof.
  intros Ha Hb (l1 & l2 & l3 & ->). exists (filter p l1), (filter p l2), (filter p l3).
  rewrite filter_app. simpl. rewrite Ha, filter_app. simpl. now rewrite Hb.
Qed.

Lemma before_firstn (a b : A) (n : nat) (l : list A) :
  NoDup l -> before a b l -> In b (firstn n l) -> before a b (firstn n l).
Proof.
  intros Hnd (l1 & l2 & l3 & ->) Hin.
  set (P := l1 ++ a :: l2) in *.
  assert (E : l1 ++ a :: l2 ++ b :: l3 = P ++ b :: l3).
  { unfold P. now rewrite <- app_assoc. }
  rewrite E in *.
  apply NoDup_remove_2 in Hnd.
  rewrite firstn_app in Hin |- *.
  destruct (Nat.le_gt_cases n (List.length P)) as [Hle|Hgt].
  - exfalso. replace (n - List.length P)%nat with O in Hin by lia. simpl in Hin.
    rewrite app_nil_r in Hin. apply firstn_incl in Hin. apply Hnd. apply in_or_app. now left.
  - rewrite firstn_all2 by lia.
    destruct (n - List.length P)%nat as [|m] eqn:Em; [lia|]. simpl.
    exists l1, l2, (firstn m l3). unfold P. now rewrite <- app_assoc.
Qed.

End ListFacts.

(** * Similarity search *)
Section RankFacts.
Import BrandVoiceQueries Database.

Definition aboveThreshold (minSimilarity : JsNumber.number) (s : Scored) : Prop :=
  (minSimilarity <=? similarity s)%float = true.

Definition simKey (s : Scored) : Z := JsNumberFacts.ord (similarity s).

(** Non-increasing similarity. *)
Definition descending (a b : Scored) : Prop :=
  (similarity b <=? similarity a)%float = true.

(** Decreasing similarity. *)
Definition strictlyDescending (a b : Scored) : Prop :=
  (similarity b <? similarity a)%float = true.

Lemma after_bySimilarityDesc (minSimilarity : JsNumber.number) (x y : Scored) :
  aboveThreshold minSimilarity x -> aboveThreshold minSimilarity y ->
  Js.after bySimilarityDesc x y = (simKey x <? simKey y).
Proof.
  unfold aboveThreshold, Js.after, bySimilarityDesc, simKey. intros Hx Hy.
  apply JsNumberFacts.leb_true_not_nan in Hx as [_ Hx], Hy as [_ Hy].
  rewrite JsNumberFacts.ltb_sub_pos. now apply JsNumberFacts.ltb_ord.
Qed.

Lemma filter_aboveThreshold (minSimilarity : JsNumber.number) (l : list Scored) :
  Forall (aboveThreshold minSimilarity)
    (filter (fun s => (minSimilarity <=? similarity s)%float) l).
Proof. apply Forall_forall. intros s Hs. now apply filter_In in Hs as [_ Hs]. Qed.

Lemma rank_prefix (q : list JsNumber.number) (limit : Z) (minSimilarity : JsNumber.number)
  (candidates : list BrandVoiceEmbedding) :
  exists n,
    rank q limit minSimilarity candidates =
    firstn n (Js.sort bySimilarityDesc
                (filter (fun s => (minSimilarity <=? similarity s)%float)
                        (map (score q) candidates))).
Proof. unfold rank. rewrite slice_0_firstn. eauto. Qed.

Lemma rank_aboveThreshold (q : list JsNumber.number) (limit : Z)
  (minSimilarity : JsNumber.number) (candidates : list BrandVoiceEmbedding) :
  Forall (aboveThreshold minSimilarity) (rank q limit minSimilarity candidates).
Proof.
  destruct (rank_prefix q limit minSimilarity candidates) as [n ->].
  apply Forall_forall. intros s Hs. apply firstn_incl in Hs.
  apply (Permutation_in _ (sort_perm _ _)) in Hs.
  pose proof (filter_aboveThreshold minSimilarity (map (score q) candidates)) as H.
  rewrite Forall_forall in H. now apply H.
Qed.

Lemma rank_descending (q : list JsNumber.number) (limit : Z)
  (minSimilarity : JsNumber.number) (candidates : list BrandVoiceEmbedding) :
  StronglySorted descending (rank q limit minSimilarity candidates).
Proof.
  pose proof (rank_aboveThreshold q limit minSimilarity candidates) as Hall.
  rewrite Forall_forall in Hall.
  apply StronglySorted_weaken with (R := keyDesc simKey).
  - intros a b Ha Hb Hk. unfold descending, keyDesc, simKey in *.
    apply Hall in Ha, Hb.
    apply JsNumberFacts.leb_true_not_nan in Ha as [_ Ha], Hb as [_ Hb].
    rewrite JsNumberFacts.leb_ord by trivial. now apply Z.leb_le.
  - destruct (rank_prefix q limit minSimilarity candidates) as [n ->].
    apply firstn_StronglySorted.
    apply sort_sorted with (good := aboveThreshold minSimilarity).
    + intros. now apply after_bySimilarityDesc with (minSimilarity := minSimilarity).
    + apply filter_aboveThreshold.
Qed.

Lemma findSimilarBrandVoice_rank (env : Runtime.Env) (q : list JsNumber.number) (limit : Z)
  (minSimilarity : JsNumber.number) (src : option BrandVoiceSource) (w : Runtime.World) :
  findSimilarBrandVoice env q limit minSimilarity src w =
  match src with
  | Some s =>
      match Runtime.sql_error env w (Runtime.SelectBySource s) with
      | Some e => Runtime.Threw e w
      | None =>
          Runtime.Returned
            (rank q limit minSimilarity
               (filter (fun row => sourceEqb (source row) s) (Runtime.table w))) w
      end
  | None =>
      match Runtime.sql_error env w Runtime.SelectAll with
      | Some e => Runtime.Threw e w
      | None => Runtime.Returned (rank q limit minSimilarity (Runtime.table w)) w
      end
  end.
Proof.
  unfold findSimilarBrandVoice, selectEmbeddings, Runtime.bind, submit.
  destruct src as [s|]; simpl;
    [destruct (Runtime.sql_error env w (Runtime.SelectBySource s))
    |destruct (Runtime.sql_error env w Runtime.SelectAll)]; reflexivity.
Qed.

End RankFacts.

(** * Concrete worlds used by the examples *)
Module Scenario.
Import Runtime Database.
Local Open Scope string_scope.

Definition row (i : nat) (s : BrandVoiceSource) (e : list JsNumber.number) (t : Z)
  : BrandVoiceEmbedding :=
  {| id := i; source := s; source_file := Some "notes.pdf"; text := "Be friendly.";
     embedding := e; metadata := None; created_at := t |}.

(** [path.basename] for paths without a trailing slash: what follows the
    last slash. *)
Fixpoint basename (path : string) : string :=
  match path with
  | EmptyString => EmptyString
  | String c rest =>
      if Js.includes rest "/" then basename rest
      else if Ascii.eqb c "/" then rest
      else path
  end.

(** A provider that answers every input with the vector [vec], a database
    that rejects the statements [reject] selects, and a directory that holds
    [files], which [parse] reads. *)
Definition env (vec : list JsNumber.number) (files : list string)
  (parse : string -> answer PDFContent) (reject : Statement -> option thrown) : Env :=
  {| OPENAI_API_KEY := true;
     embeddings_create := fun _ _ input =>
       Ok {| data := map (fun _ => vec) input;
             total_tokens := Z.of_nat (List.length input) |};
     sql_error := fun _ stmt => reject stmt;
     fs_access := fun _ path => match parse path with Ok _ => true | Fail _ => false end;
     fs_readdir := fun _ _ => Ok files;
     pdf_parse := fun _ path => parse path;
     path_basename := basename;
     path_join := fun dir file => String.append dir (String.append "/" file) |}.

Definition noFiles : string -> answer PDFContent :=
  fun _ => Fail (JsError "ENOENT: no such file or directory").

Definition acceptAll : Statement -> option thrown := fun _ => None.

(** Two one-page documents. *)
Definition twoGuides (path : string) : answer PDFContent :=
  if String.eqb path "documents/style-guide.pdf" then
    Ok {| pdf_text := "Our tone is friendly and direct."; numPages := 1; title := None |}
  else if String.eqb path "documents/knowledge-style.pdf" then
    Ok {| pdf_text := "Centercode runs beta tests."; numPages := 1; title := None |}
  else Fail (JsError "ENOENT: no such file or directory").

Definition world (rows : list BrandVoiceEmbedding) : World :=
  {| table := rows; requests := []; nextId := 100%nat; clock := 1000; fsCalls := O |}.

(** The same world after [n] calls to the file system. *)
Definition worldAfter (n : nat) (rows : list BrandVoiceEmbedding) : World :=
  {| table := rows; requests := []; nextId := 100%nat; clock := 1000; fsCalls := n |}.

Definition older : BrandVoiceEmbedding := row 1 style_guide [1%float; 0%float] 100.
Definition newer : BrandVoiceEmbedding := row 2 style_guide [1%float; 0%float] 200.
Definition weaker : BrandVoiceEmbedding := row 3 style_guide [1%float; 1%float] 300.
Definition feedbackNote : BrandVoiceEmbedding := row 4 feedback [1%float; 0%float] 400.

End Scenario.

Section SearchClaims.
Import Runtime BrandVoiceQueries Database.

(** The rows the [SELECT] of [findSimilarBrandVoice] yields: the candidate
    set. *)
Definition fetched (src : option BrandVoiceSource) (w : World) : list BrandVoiceEmbedding :=
  match src with
  | Some s => filter (fun row => sourceEqb (source row) s) (table w)
  | None => table w
  end.

Lemma findSimilarBrandVoice_Returned (env : Env) (q : list JsNumber.number) (limit : Z)
  (minSimilarity : JsNumber.number) (src : option BrandVoiceSource) (w w' : World)
  (results : list Scored) :
  findSimilarBrandVoice env q limit minSimilarity src w = Returned results w' ->
  results = rank q limit minSimilarity (fetched src w).
Proof.
  rewrite findSimilarBrandVoice_rank. unfold fetched.
  destruct src as [s|];
    [destruct (sql_error env w (SelectBySource s)) | destruct (sql_error env w SelectAll)];
    intro H; try discriminate H; now injection H as <- _.
Qed.

Lemma rank_length (q : list JsNumber.number) (limit : Z) (minSimilarity : JsNumber.number)
  (candidates : list BrandVoiceEmbedding) :
  0 <= limit -> Z.of_nat (List.length (rank q limit minSimilarity candidates)) <= limit.
Proof. intro Hk. unfold rank. now apply slice_0_length. Qed.

(** C4 (as amended).  The results of [findSimilarBrandVoice] are sorted by
    non-increasing similarity, none is below [minSimilarity], and for a
    non-negative [limit] (topK) there are at most [limit] of them. *)
Theorem findSimilarBrandVoice_sorted_thresholded_bounded (env : Env)
  (q : list JsNumber.number) (limit : Z) (minSimilarity : JsNumber.number)
  (src : option BrandVoiceSource) (w w' : World) (results : list Scored) :
  findSimilarBrandVoice env q limit minSimilarity src w = Returned results w' ->
  StronglySorted descending results /\
  Forall (fun r => (minSimilarity <=? similarity r)%float = true) results /\
  (0 <= limit -> Z.of_nat (List.length results) <= limit).
Proof.
  intro H. apply findSimilarBrandVoice_Returned in H as ->.
  split; [apply rank_descending|]. split; [apply rank_aboveThreshold | apply rank_length].
Qed.

Lemma findSimilarBrandVoice_sorted_thresholded_bounded_witness :
  let results := [score [1%float; 0%float] Scenario.older;
                  score [1%float; 0%float] Scenario.weaker] in
  StronglySorted descending results /\
  Forall (fun r => (0.5 <=? similarity r)%float = true) results /\
  Z.of_nat (List.length results) <= 2.
Proof.
  destruct (findSimilarBrandVoice_sorted_thresholded_bounded
              (Scenario.env [] [] Scenario.noFiles Scenario.acceptAll)
              [1%float; 0%float] 2 0.5%float (Some style_guide)
              (Scenario.world [Scenario.weaker; Scenario.feedbackNote; Scenario.older])
              (Scenario.world [Scenario.weaker; Scenario.feedbackNote; Scenario.older])
              [score [1%float; 0%float] Scenario.older;
               score [1%float; 0%float] Scenario.weaker])
    as (Hsorted & Hmin & Hlen).
  - vm_compute. reflexivity.
  - repeat split; [exact Hsorted | exact Hmin | apply Hlen; lia].
Defined.

(** C4 (as stated) fails: two rows with the same embedding tie, so the order
    is not strictly descending; and with a negative [limit] the slice drops
    rows from the end, which leaves more than [limit] results. *)
Lemma findSimilarBrandVoice_not_strict_nor_bounded :
  exists results w',
    findSimilarBrandVoice (Scenario.env [] [] Scenario.noFiles Scenario.acceptAll)
      [1%float; 0%float] (-1) 0.5%float None
      (Scenario.world [Scenario.older; Scenario.newer; Scenario.weaker]) =
      Returned results w' /\
    ~ StronglySorted strictlyDescending results /\
    ~ Z.of_nat (List.length results) <= -1.
Proof.
  eexists. eexists. split; [vm_compute; reflexivity|]. split.
  - intro H. inversion H as [|? ? _ Hall]; subst.
    inversion Hall as [|? ? Hlt _]; subst. vm_compute in Hlt. discriminate Hlt.
  - simpl. lia.
Qed.

Lemma score_injective (q : list JsNumber.number) : Injective (score q).
Proof. intros a b H. now apply (f_equal item) in H. Qed.

(** Stability of the ranking: tied rows keep the order of the candidate set. *)
Lemma rank_ties_stable (q : list JsNumber.number) (limit : Z)
  (minSimilarity : JsNumber.number) (candidates : list BrandVoiceEmbedding)
  (a b : BrandVoiceEmbedding) :
  NoDup candidates ->
  before a b candidates ->
  (similarity (score q a) =? similarity (score q b))%float = true ->
  In (score q b) (rank q limit minSimilarity candidates) ->
  before (score q a) (score q b) (rank q limit minSimilarity candidates).
Proof.
  intros Hnd Hab Htie Hin.
  pose proof (rank_aboveThreshold q limit minSimilarity candidates) as Hall.
  rewrite Forall_forall in Hall. pose proof (Hall _ Hin) as Hb. unfold aboveThreshold in Hb.
  destruct (JsNumberFacts.eqb_true_not_nan _ _ Htie) as [Na Nb].
  destruct (JsNumberFacts.leb_true_not_nan _ _ Hb) as [Nm _].
  rewrite JsNumberFacts.eqb_ord in Htie by trivial. apply Z.eqb_eq in Htie.
  assert (Ha : (minSimilarity <=? similarity (score q a))%float = true).
  { rewrite JsNumberFacts.leb_ord in Hb |- * by trivial. now rewrite Htie. }
  destruct (rank_prefix q limit minSimilarity candidates) as [n E].
  rewrite E in Hin |- *.
  set (kept := filter (fun s => (minSimilarity <=? similarity s)%float)
                      (map (score q) candidates)) in *.
  assert (Hkept : NoDup kept).
  { apply NoDup_filter. apply Injective_map_NoDup; [apply score_injective | exact Hnd]. }
  apply before_firstn; trivial.
  - apply (Permutation_NoDup (Permutation_sym (sort_perm _ _)) Hkept).
  - apply sort_stable with (key := simKey) (good := aboveThreshold minSimilarity).
    + intros. now apply after_bySimilarityDesc with (minSimilarity := minSimilarity).
    + apply filter_aboveThreshold.
    + exact Htie.
    + apply before_filter; trivial. now apply before_map.
Qed.

(** C5 (as amended).  Two distinct fetched rows with equal similarity are
    listed in the order in which the candidate set holds them: when the one
    fetched later is in the result, the one fetched earlier precedes it
    there.  [created_at] is not consulted. *)
Theorem findSimilarBrandVoice_ties_keep_fetch_order (env : Env)
  (q : list JsNumber.number) (limit : Z) (minSimilarity : JsNumber.number)
  (src : option BrandVoiceSource) (w w' : World) (results : list Scored)
  (a b : BrandVoiceEmbedding) :
  findSimilarBrandVoice env q limit minSimilarity src w = Returned results w' ->
  NoDup (fetched src w) ->
  before a b (fetched src w) ->
  (similarity (score q a) =? similarity (score q b))%float = true ->
  In (score q b) results ->
  before (score q a) (score q b) results.
Proof.
  intro H. apply findSimilarBrandVoice_Returned in H as ->. apply rank_ties_stable.
Qed.

Lemma findSimilarBrandVoice_ties_keep_fetch_order_witness :
  before (score [1%float; 0%float] Scenario.older) (score [1%float; 0%float] Scenario.newer)
    [score [1%float; 0%float] Scenario.older; score [1%float; 0%float] Scenario.newer].
Proof.
  apply (findSimilarBrandVoice_ties_keep_fetch_order
           (Scenario.env [] [] Scenario.noFiles Scenario.acceptAll)
           [1%float; 0%float] 5 0.7%float None
           (Scenario.world [Scenario.older; Scenario.newer])
           (Scenario.world [Scenario.older; Scenario.newer])).
  - vm_compute. reflexivity.
  - repeat constructor; simpl; intuition discriminate.
  - exists [], [], []. reflexivity.
  - vm_compute. reflexivity.
  - right. left. reflexivity.
Defined.

(** What C5 states: among results with equal similarity, a row is never
    listed before a more recent one. *)
Definition recentFirstOnTies (results : list Scored) : Prop :=
  forall a b, before a b results ->
    (similarity a =? similarity b)%float = true ->
    created_at (item b) <= created_at (item a).

(** C5 (as stated) fails: the older of two tied rows is fetched first and
    stays first. *)
Lemma findSimilarBrandVoice_ties_not_by_recency :
  exists results w',
    findSimilarBrandVoice (Scenario.env [] [] Scenario.noFiles Scenario.acceptAll)
      [1%float; 0%float] 5 0.7%float None
      (Scenario.world [Scenario.older; Scenario.newer]) = Returned results w' /\
    ~ recentFirstOnTies results.
Proof.
  eexists. eexists. split; [vm_compute; reflexivity|]. intro H.
  specialize (H (score [1%float; 0%float] Scenario.older)
                (score [1%float; 0%float] Scenario.newer)).
  assert (Hb : before (score [1%float; 0%float] Scenario.older)
                 (score [1%float; 0%float] Scenario.newer)
                 [score [1%float; 0%float] Scenario.older;
                  score [1%float; 0%float] Scenario.newer])
    by (exists [], [], []; reflexivity).
  change (score [1%float; 0%float] Scenario.older)
    with {| item := Scenario.older; similarity := 1%float |} in H, Hb.
  change (score [1%float; 0%float] Scenario.newer)
    with {| item := Scenario.newer; similarity := 1%float |} in H, Hb.
  specialize (H Hb ltac:(vm_compute; reflexivity)). vm_compute in H. now apply H.
Qed.

End SearchClaims.

(** * Cosine similarity *)
Section CosineFacts.
Import Runtime.

Definition addSquare (acc x : JsNumber.number) : JsNumber.number := (acc + x * x)%float.

(** The magnitude the code computes for a vector: the square root of the
    running sum of squares. *)
Definition magnitude (v : list JsNumber.number) : JsNumber.number :=
  PrimFloat.sqrt (fold_left addSquare v 0%float).

Definition zeroMagnitude (v : list JsNumber.number) : Prop :=
  (magnitude v =? 0)%float = true.

Lemma accumulate_sums (a b : list JsNumber.number) (d ma mb : JsNumber.number) :
  List.length a = List.length b ->
  snd (fst (Embeddings.accumulate a b (d, ma, mb))) = fold_left addSquare a ma /\
  snd (Embeddings.accumulate a b (d, ma, mb)) = fold_left addSquare b mb.
Proof.
  revert b d ma mb. induction a as [|x a IH]; intros [|y b] d ma mb Hlen;
    try discriminate Hlen; simpl.
  - now split.
  - apply IH. now injection Hlen.
Qed.

Lemma float_eqb_zero (x : JsNumber.number) :
  (x =? 0)%float = true -> x = 0%float \/ x = (-0)%float.
Proof.
  intro H. rewrite eqb_spec in H.
  rewrite <- (SF2Prim_Prim2SF x).
  destruct (Prim2SF x) as [[|]|[|]| |[|] m e]; try discriminate H; [right|left]; reflexivity.
Qed.

(** A vector whose components are all zero has zero magnitude. *)
Lemma zero_vector_zeroMagnitude (v : list JsNumber.number) :
  Forall (fun x => (x =? 0)%float = true) v -> zeroMagnitude v.
Proof.
  intro H. unfold zeroMagnitude, magnitude.
  assert (E : fold_left addSquare v 0%float = 0%float).
  { induction H as [|x v Hx _ IH]; simpl; trivial.
    replace (addSquare 0%float x) with 0%float; trivial.
    apply float_eqb_zero in Hx as [->| ->]; reflexivity. }
  rewrite E. reflexivity.
Qed.

(** C2 (as amended).  When the lengths differ or either vector has zero
    magnitude, the [cosineSimilarity] of the database queries returns
    exactly 0; the exported [cosineSimilarity] of the embeddings service
    returns exactly 0 for vectors of equal length and throws on a length
    mismatch. *)
Theorem cosineSimilarity_degenerate (a b : list JsNumber.number) :
  List.length a <> List.length b \/ zeroMagnitude a \/ zeroMagnitude b ->
  BrandVoiceQueries.cosineSimilarity a b = 0%float /\
  Embeddings.cosineSimilarity a b =
    (if (List.length a =? List.length b)%nat then Ok 0%float
     else Fail (JsError "Embeddings must have the same dimensions")).
Proof.
  intro H. unfold BrandVoiceQueries.cosineSimilarity, Embeddings.cosineSimilarity.
  destruct (Nat.eqb_spec (List.length a) (List.length b)) as [Hlen|Hlen]; simpl.
  2: now split.
  destruct H as [H|H]; [contradiction|].
  pose proof (accumulate_sums a b 0%float 0%float 0%float Hlen) as [Ha Hb].
  destruct (Embeddings.accumulate a b (0%float, 0%float, 0%float)) as [[d sa] sb] eqn:E.
  unfold zeroMagnitude, magnitude in H.
  unfold JsNumber.number in *. rewrite E in Ha, Hb. simpl in Ha, Hb. subst sa sb.
  destruct H as [H|H]; rewrite H; rewrite ?orb_true_r; now split.
Qed.

Lemma cosineSimilarity_degenerate_witness :
  BrandVoiceQueries.cosineSimilarity [0%float; 0%float] [3%float; 4%float] = 0%float /\
  Embeddings.cosineSimilarity [0%float; 0%float] [3%float; 4%float] = Ok 0%float.
Proof.
  apply (cosineSimilarity_degenerate [0%float; 0%float] [3%float; 4%float]).
  right. left. vm_compute. reflexivity.
Defined.

(** C2 (as stated) fails for the exported [cosineSimilarity]: on vectors of
    different lengths it throws instead of returning 0. *)
Lemma cosineSimilarity_mismatch_throws :
  Embeddings.cosineSimilarity [1%float] [1%float; 2%float] <> Ok 0%float /\
  Embeddings.cosineSimilarity [1%float] [1%float; 2%float] =
    Fail (JsError "Embeddings must have the same dimensions").
Proof. split; [discriminate | reflexivity]. Qed.

End CosineFacts.

(** * Retrieval presets *)
Section RetrievalFacts.
Import Runtime Database BrandVoiceRag.

Definition withSources (options : RAGOptions) (s : option (list BrandVoiceSource))
  : RAGOptions :=
  {| topK := topK options; minSimilarity := minSimilarity options;
     sources := s; includeMetadata := includeMetadata options |}.

(** The [sources] option is never read. *)
Lemma retrieveBrandVoiceContext_sources_unread (env : Env) (query : string)
  (options : RAGOptions) (s : option (list BrandVoiceSource)) :
  retrieveBrandVoiceContext env query (withSources options s) =
  retrieveBrandVoiceContext env query options.
Proof. reflexivity. Qed.

(** C1, at the failing input: the table holds one row tagged [feedback] whose
    embedding equals the embedding of the query; the guidelines preset
    returns it, and the examples preset returns it as well. *)
Theorem presets_return_feedback_row :
  let env := Scenario.env [1%float; 0%float] [] Scenario.noFiles Scenario.acceptAll in
  let w := Scenario.world [Scenario.feedbackNote] in
  (exists w',
     getBrandVoiceGuidelines env "blog post" (Some "LinkedIn"%string) w =
     Returned [{| text := "Be friendly."; source := feedback;
                  sourceFile := Some "notes.pdf"%string;
                  similarity := 1%float; metadata := None |}] w') /\
  (exists w',
     getBrandVoiceExamples env "beta testing" "announcement" w =
     Returned [{| text := "Be friendly."; source := feedback;
                  sourceFile := Some "notes.pdf"%string;
                  similarity := 1%float; metadata := None |}] w').
Proof. split; eexists; vm_compute; reflexivity. Qed.

End RetrievalFacts.

(** * Batched embedding generation *)
Section BatchFacts.
Import Runtime Embeddings.

(** [Math.ceil(n / d)] for a positive [d]. *)
Definition ceilDiv (n d : Z) : Z := (n + d - 1) / d.

(** The provider answers every request, with one vector per input. *)
Definition answersEveryInput (env : Env) : Prop :=
  forall history mdl input,
    exists r, embeddings_create env history mdl input = Ok r /\
              List.length (data r) = List.length input.

Lemma ceilDiv_step (m d : Z) : 0 < d -> ceilDiv m d = ceilDiv (m - d) d + 1.
Proof.
  intro Hd. unfold ceilDiv.
  replace (m + d - 1) with ((m - d + d - 1) + 1 * d) by lia.
  now rewrite Z.div_add by lia.
Qed.

Lemma ceilDiv_nonpos (m d : Z) : 0 < d -> m <= 0 -> Z.to_nat (ceilDiv m d) = O.
Proof.
  intros Hd Hm. unfold ceilDiv.
  assert ((m + d - 1) / d < 1) by (apply Z.div_lt_upper_bound; lia). lia.
Qed.

Lemma ceilDiv_pos (m d : Z) : 0 < d -> 0 < m -> 0 <= ceilDiv (m - d) d.
Proof.
  intros Hd Hm. unfold ceilDiv. apply Z.div_pos; lia.
Qed.

Lemma slice_batch {A : Type} (l : list A) (i size : Z) :
  0 <= i < Z.of_nat (List.length l) -> 0 < size ->
  Js.slice l i (i + size) = firstn (Z.to_nat size) (skipn (Z.to_nat i) l).
Proof.
  intros Hi Hs. unfold Js.slice.
  destruct (Z.ltb_spec i 0); [lia|]. destruct (Z.ltb_spec (i + size) 0); [lia|].
  replace (Z.min i (Z.of_nat (List.length l))) with i by lia.
  destruct (Z.le_gt_cases (i + size) (Z.of_nat (List.length l))) as [Hle|Hgt].
  - f_equal. lia.
  - rewrite !firstn_all2; trivial; rewrite length_skipn; lia.
Qed.

Lemma indexedFrom_texts (batch : list string) (j : nat) (vectors : list (list JsNumber.number))
  (mdl : EmbeddingModel) :
  List.length vectors = List.length (skipn j batch) ->
  map text
    (map (fun item_index =>
            {| embedding := fst item_index;
               text := Js.at_ batch (snd item_index);
               model := mdl;
               dimensions := Z.of_nat (List.length (fst item_index)) |})
         (indexedFrom (Z.of_nat j) vectors)) =
  map Some (skipn j batch).
Proof.
  revert j. induction vectors as [|v vectors IH]; intros j Hlen.
  - destruct (skipn j batch); [reflexivity | discriminate Hlen].
  - destruct (skipn j batch) as [|t rest] eqn:E; [discriminate Hlen|].
    simpl. f_equal.
    + unfold Js.at_. destruct (Z.ltb_spec (Z.of_nat j) 0); [lia|].
      rewrite Nat2Z.id.
      rewrite <- (firstn_skipn j batch), E, nth_error_app2 by (rewrite length_firstn; lia).
      rewrite length_firstn.
      assert (j < List.length batch)%nat.
      { destruct (Nat.lt_ge_cases j (List.length batch)); trivial.
        rewrite skipn_all2 in E by lia. discriminate E. }
      replace (j - Nat.min j (List.length batch))%nat with O by lia. reflexivity.
    + replace (Z.of_nat j + 1) with (Z.of_nat (S j)) by lia.
      assert (Erest : skipn (S j) batch = rest).
      { replace (S j) with (1 + j)%nat by lia. now rewrite <- skipn_skipn, E. }
      rewrite IH; rewrite Erest; trivial. simpl in Hlen. lia.
Qed.

(** The entry pushed for a text and the vector the provider gave for it:
    [{ embedding: item.embedding, text: batch[index], model, dimensions }]. *)
Definition resultFor (mdl : EmbeddingModel) (text_vector : string * list JsNumber.number)
  : EmbeddingResult :=
  {| embedding := snd text_vector;
     text := Some (fst text_vector);
     model := mdl;
     dimensions := Z.of_nat (List.length (snd text_vector)) |}.

(** [responses] are the answers of the provider to the requests [issued],
    made one after the other once [history] had been asked; each answer holds
    one vector per input of its request. *)
Fixpoint answeredBy (env : Env) (mdl : EmbeddingModel) (history issued : list (list string))
  (responses : list CreateResponse) : Prop :=
  match issued, responses with
  | [], [] => True
  | input :: issued', r :: responses' =>
      embeddings_create env history mdl input = Ok r /\
      List.length (data r) = List.length input /\
      answeredBy env mdl (history ++ [input]) issued' responses'
  | _, _ => False
  end.

Definition sumTokens (responses : list CreateResponse) : Z :=
  fold_right (fun r acc => total_tokens r + acc) 0 responses.

Lemma indexedFrom_results (batch : list string) (j : nat) (vectors : list (list JsNumber.number))
  (mdl : EmbeddingModel) :
  List.length vectors = List.length (skipn j batch) ->
  map (fun item_index =>
         {| embedding := fst item_index;
            text := Js.at_ batch (snd item_index);
            model := mdl;
            dimensions := Z.of_nat (List.length (fst item_index)) |})
      (indexedFrom (Z.of_nat j) vectors) =
  map (resultFor mdl) (combine (skipn j batch) vectors).
Proof.
  revert j. induction vectors as [|v vectors IH]; intros j Hlen.
  - destruct (skipn j batch); reflexivity.
  - destruct (skipn j batch) as [|t rest] eqn:E; [discriminate Hlen|].
    simpl. f_equal.
    + unfold resultFor. simpl. f_equal.
      unfold Js.at_. destruct (Z.ltb_spec (Z.of_nat j) 0); [lia|].
      rewrite Nat2Z.id.
      rewrite <- (firstn_skipn j batch), E, nth_error_app2 by (rewrite length_firstn; lia).
      rewrite length_firstn.
      assert (j < List.length batch)%nat.
      { destruct (Nat.lt_ge_cases j (List.length batch)); trivial.
        rewrite skipn_all2 in E by lia. discriminate E. }
      replace (j - Nat.min j (List.length batch))%nat with O by lia. reflexivity.
    + replace (Z.of_nat j + 1) with (Z.of_nat (S j)) by lia.
      assert (Erest : skipn (S j) batch = rest).
      { replace (S j) with (1 + j)%nat by lia. now rewrite <- skipn_skipn, E. }
      rewrite IH; rewrite Erest; trivial. simpl in Hlen. lia.
Qed.

Lemma combine_app_same {A B : Type} (l1 l2 : list A) (m1 m2 : list B) :
  List.length l1 = List.length m1 ->
  combine (l1 ++ l2) (m1 ++ m2) = combine l1 m1 ++ combine l2 m2.
Proof.
  revert m1. induction l1 as [|a l1 IH]; intros [|b m1] H; try discriminate H; simpl; trivial.
  f_equal. apply IH. now injection H.
Qed.

Lemma batchLoop_complete (env : Env) (texts : list string) (mdl : EmbeddingModel)
  (batchSize : Z) :
  answersEveryInput env -> 0 < batchSize ->
  forall (fuel : nat) (i : Z) (acc : list EmbeddingResult) (tok : Z) (w : World),
    0 <= i ->
    (Z.to_nat (ceilDiv (Z.of_nat (List.length texts) - i) batchSize) <= fuel)%nat ->
    exists res w' issued responses,
      batchLoop fuel env texts mdl batchSize i acc tok w = Returned res w' /\
      map text (embeddings res) = map text acc ++ map Some (skipn (Z.to_nat i) texts) /\
      requests w' = requests w ++ issued /\
      List.length issued = Z.to_nat (ceilDiv (Z.of_nat (List.length texts) - i) batchSize) /\
      List.concat issued = skipn (Z.to_nat i) texts /\
      table w' = table w /\
      Forall (fun input => Z.of_nat (List.length input) <= batchSize) issued /\
      answeredBy env mdl (requests w) issued responses /\
      embeddings res =
        acc ++ map (resultFor mdl)
                 (combine (skipn (Z.to_nat i) texts) (List.concat (map data responses))) /\
      totalTokens res = tok + sumTokens responses /\
      b_model res = mdl.
Proof.
  intros Hprov Hbs. set (n := Z.of_nat (List.length texts)).
  induction fuel as [|fuel IH]; intros i acc tok w Hi Hfuel.
  - destruct (Z.ltb_spec i n) as [Hlt|Hge].
    + pose proof (ceilDiv_step (n - i) batchSize Hbs).
      pose proof (ceilDiv_pos (n - i) batchSize Hbs ltac:(lia)). lia.
    + simpl. fold n. destruct (Z.ltb_spec i n); [lia|].
      exists {| embeddings := acc; totalTokens := tok; b_model := mdl |}, w, [], [].
      rewrite skipn_all2 by lia. rewrite ceilDiv_nonpos by lia.
      rewrite !app_nil_r. simpl. rewrite Z.add_0_r. repeat split; trivial.
  - simpl. fold n. destruct (Z.ltb_spec i n) as [Hlt|Hge].
    + set (batch := Js.slice texts i (i + batchSize)).
      destruct (Hprov (requests w) mdl batch) as (r & Er & Hlen).
      unfold bind at 1, tryCatch, create. rewrite Er. simpl.
      set (w1 := {| table := table w; requests := requests w ++ [batch];
                    nextId := nextId w; clock := clock w; fsCalls := fsCalls w |}).
      set (acc1 := acc ++ _).
      pose proof (ceilDiv_step (n - i) batchSize Hbs) as Hstep.
      pose proof (ceilDiv_pos (n - i) batchSize Hbs ltac:(lia)) as Hpos.
      replace (n - i - batchSize) with (n - (i + batchSize)) in * by lia.
      destruct (IH (i + batchSize) acc1 (tok + total_tokens r) w1 ltac:(lia) ltac:(lia))
        as (res & w' & issued & responses & Erun & Htxt & Hreq & Hcount & Hcat & Htab &
            Hsize & Hans & Hres & Htok & Hmdl).
      exists res, w', (batch :: issued), (r :: responses). split; [exact Erun|].
      assert (Ebatch : batch = firstn (Z.to_nat batchSize) (skipn (Z.to_nat i) texts))
        by (apply slice_batch; fold n; lia).
      assert (Esplit : skipn (Z.to_nat i) texts =
                       batch ++ skipn (Z.to_nat (i + batchSize)) texts).
      { rewrite Ebatch, Z2Nat.inj_add by lia.
        rewrite (Nat.add_comm (Z.to_nat i)), <- skipn_skipn. symmetry. apply firstn_skipn. }
      assert (Epushed : acc1 = acc ++ map (resultFor mdl) (combine batch (data r))).
      { unfold acc1. f_equal. apply (indexedFrom_results batch O). simpl. exact Hlen. }
      split; [|split; [|split; [|split; [|split; [|split; [|split; [|split; [|split]]]]]]]].
      * rewrite Htxt. unfold acc1. rewrite map_app, <- app_assoc. f_equal.
        rewrite Esplit, map_app. f_equal.
        apply (indexedFrom_texts batch O). simpl. exact Hlen.
      * rewrite Hreq. simpl. now rewrite <- app_assoc.
      * simpl. rewrite Hcount. lia.
      * simpl. now rewrite Hcat.
      * exact Htab.
      * constructor; [|exact Hsize]. rewrite Ebatch, length_firstn. lia.
      * simpl. split; [exact Er|]. split; [exact Hlen | exact Hans].
      * rewrite Hres, Epushed, <- app_assoc. f_equal. rewrite Esplit. simpl.
        rewrite combine_app_same by (symmetry; exact Hlen). now rewrite map_app.
      * rewrite Htok. simpl. lia.
      * exact Hmdl.
    + exists {| embeddings := acc; totalTokens := tok; b_model := mdl |}, w, [], [].
      rewrite skipn_all2 by lia. rewrite ceilDiv_nonpos by lia.
      rewrite !app_nil_r. simpl. rewrite Z.add_0_r. repeat split; trivial.
Qed.

Lemma batchLoop_stuck (env : Env) (texts : list string) (mdl : EmbeddingModel)
  (batchSize : Z) :
  answersEveryInput env -> batchSize <= 0 ->
  forall (fuel : nat) (i : Z) (acc : list EmbeddingResult) (tok : Z) (w : World),
    i < Z.of_nat (List.length texts) ->
    batchLoop fuel env texts mdl batchSize i acc tok w = Hang.
Proof.
  intros Hprov Hbs. induction fuel as [|fuel IH]; intros i acc tok w Hi; simpl;
    destruct (Z.ltb_spec i (Z.of_nat (List.length texts))); try lia; trivial.
  destruct (Hprov (requests w) mdl (Js.slice texts i (i + batchSize))) as (r & Er & _).
  unfold bind at 1, tryCatch, create. rewrite Er. simpl. apply IH. lia.
Qed.

(** C6 (as amended).  With the API key set and a provider that answers every
    request with one vector per input:
    - for a positive batch size and enough iterations allowed,
      [generateEmbeddingsBatch] returns and has issued exactly
      [ceil(n / batchSize)] provider calls, of at most [batchSize] inputs
      each, whose inputs concatenate to [texts]; it returns one entry per
      text, in the order of the texts: the entry of a text carries that
      text, the vector the provider returned for it, the model and the
      length of the vector; the token count is the sum of the counts of the
      answers;
    - for a batch size of zero or less and at least one text, it does not
      return, however many iterations are allowed. *)
Theorem generateEmbeddingsBatch_calls_and_order (fuel : nat) (env : Env)
  (texts : list string) (mdl : EmbeddingModel) (batchSize : Z) (w : World) :
  OPENAI_API_KEY env = true ->
  answersEveryInput env ->
  (0 < batchSize ->
   (Z.to_nat (ceilDiv (Z.of_nat (List.length texts)) batchSize) <= fuel)%nat ->
   exists res w' issued responses,
     generateEmbeddingsBatch fuel env texts mdl batchSize w = Returned res w' /\
     requests w' = requests w ++ issued /\
     Z.of_nat (List.length issued) = ceilDiv (Z.of_nat (List.length texts)) batchSize /\
     Forall (fun input => Z.of_nat (List.length input) <= batchSize) issued /\
     List.concat issued = texts /\
     answeredBy env mdl (requests w) issued responses /\
     embeddings res =
       map (resultFor mdl) (combine texts (List.concat (map data responses))) /\
     List.length (embeddings res) = List.length texts /\
     map text (embeddings res) = map Some texts /\
     totalTokens res = sumTokens responses /\
     b_model res = mdl) /\
  (batchSize <= 0 -> texts <> [] ->
   generateEmbeddingsBatch fuel env texts mdl batchSize w = Hang).
Proof.
  intros Hkey Hprov. split.
  - intros Hbs Hfuel.
    destruct (batchLoop_complete env texts mdl batchSize Hprov Hbs fuel 0 [] 0 w
                ltac:(lia) ltac:(now rewrite Z.sub_0_r))
      as (res & w' & issued & responses & Erun & Htxt & Hreq & Hcount & Hcat & _ &
          Hsize & Hans & Hres & Htok & Hmdl).
    exists res, w', issued, responses.
    unfold generateEmbeddingsBatch, getOpenAIClient, bind. rewrite Hkey. simpl.
    rewrite Z.sub_0_r in Hcount. simpl in Htxt, Hcat, Hres.
    split; [exact Erun|]. split; [exact Hreq|]. split.
    { rewrite Hcount. apply Z2Nat.id. unfold ceilDiv. apply Z.div_pos; lia. }
    split; [exact Hsize|]. split; [exact Hcat|]. split; [exact Hans|].
    split; [exact Hres|]. split.
    { rewrite <- (length_map text), Htxt. apply length_map. }
    split; [exact Htxt|]. split; [lia | exact Hmdl].
  - intros Hbs Hne. unfold generateEmbeddingsBatch, getOpenAIClient, bind.
    rewrite Hkey. simpl. apply batchLoop_stuck; trivial.
    destruct texts; [contradiction | simpl; lia].
Qed.

(** The instance named by the specification: five texts in batches of two
    make three provider calls, and five entries come back in the order of
    the texts.  With a batch size of 0 the same call does not return. *)
Lemma generateEmbeddingsBatch_calls_and_order_witness :
  let env := Scenario.env [1%float] [] Scenario.noFiles Scenario.acceptAll in
  let texts := ["a"; "b"; "c"; "d"; "e"]%string in
  (exists res w' issued responses,
     generateEmbeddingsBatch 3 env texts SMALL 2 (Scenario.world []) = Returned res w' /\
     requests w' = requests (Scenario.world []) ++ issued /\
     Z.of_nat (List.length issued) = 3 /\
     Forall (fun input => Z.of_nat (List.length input) <= 2) issued /\
     List.concat issued = texts /\
     answeredBy env SMALL (requests (Scenario.world [])) issued responses /\
     embeddings res =
       map (resultFor SMALL) (combine texts (List.concat (map data responses))) /\
     List.length (embeddings res) = 5%nat /\
     map text (embeddings res) = map Some texts /\
     totalTokens res = sumTokens responses /\
     b_model res = SMALL) /\
  generateEmbeddingsBatch 3 env texts SMALL 0 (Scenario.world []) = Hang.
Proof.
  intros env texts.
  assert (Hprov : answersEveryInput env).
  { intros history mdl input. eexists. split; [reflexivity|]. simpl. apply length_map. }
  split.
  - destruct (generateEmbeddingsBatch_calls_and_order 3 env texts SMALL 2 (Scenario.world [])
                eq_refl Hprov) as [Hpositive _].
    apply Hpositive; [lia | vm_compute; lia].
  - destruct (generateEmbeddingsBatch_calls_and_order 3 env texts SMALL 0 (Scenario.world [])
                eq_refl Hprov) as [_ Hstuck].
    apply Hstuck; [lia | discriminate].
Defined.

(** C6 (as stated) fails for a batch size that is not positive: the index of
    the loop does not advance, so with one text and a batch size of 0 or of
    -1 the function never returns, however many iterations it is allowed. *)
Lemma generateEmbeddingsBatch_zero_batch_never_returns :
  let env := Scenario.env [1%float] [] Scenario.noFiles Scenario.acceptAll in
  (forall fuel, generateEmbeddingsBatch fuel env ["a"%string] SMALL 0 (Scenario.world []) = Hang) /\
  (forall fuel,
     generateEmbeddingsBatch fuel env ["a"%string] SMALL (-1) (Scenario.world []) = Hang).
Proof.
  intro env.
  assert (Hprov : answersEveryInput env).
  { intros history mdl input. eexists. split; [reflexivity|]. simpl. apply length_map. }
  split.
  - intro fuel. unfold generateEmbeddingsBatch, bind. simpl.
    apply batchLoop_stuck; trivial; simpl; lia.
  - intro fuel. unfold generateEmbeddingsBatch, bind. simpl.
    apply batchLoop_stuck; trivial; simpl; lia.
Qed.

End BatchFacts.

(** * Reasoning about code that returns, throws or hangs *)
Section OutcomeFacts.
Import Runtime.

Definition neverHangs {A : Type} (m : M A) : Prop := forall w, m w <> Hang.

Lemma bind_Returned_inv {A B : Type} (m : M A) (k : A -> M B) (w w' : World) (b : B) :
  bind m k w = Returned b w' ->
  exists a w1, m w = Returned a w1 /\ k a w1 = Returned b w'.
Proof. unfold bind. destruct (m w) as [a w1|e w1|]; try discriminate. eauto. Qed.

Lemma neverHangs_bind {A B : Type} (m : M A) (k : A -> M B) :
  neverHangs m ->
  (forall a w w', m w = Returned a w' -> k a w' <> Hang) ->
  neverHangs (bind m k).
Proof.
  intros Hm Hk w. unfold bind. specialize (Hm w).
  destruct (m w) as [a w1|e w1|] eqn:E; [eapply Hk; eauto | discriminate | contradiction].
Qed.

Lemma neverHangs_tryCatch {A : Type} (m : M A) (handler : thrown -> M A) :
  neverHangs m -> (forall e, neverHangs (handler e)) -> neverHangs (tryCatch m handler).
Proof.
  intros Hm Hh w. unfold tryCatch. specialize (Hm w).
  destruct (m w) as [a w1|e w1|]; [discriminate | apply Hh | contradiction].
Qed.

Lemma neverHangs_ret {A : Type} (a : A) : neverHangs (ret a).
Proof. intros w. discriminate. Qed.

Lemma neverHangs_throw {A : Type} (e : thrown) : neverHangs (@throw A e).
Proof. intros w. discriminate. Qed.

Lemma neverHangs_ofAnswer {A : Type} (a : answer A) : neverHangs (ofAnswer a).
Proof. destruct a; [apply neverHangs_ret | apply neverHangs_throw]. Qed.

Lemma neverHangs_getWorld : neverHangs getWorld.
Proof. intros w. discriminate. Qed.

Lemma neverHangs_putWorld (w' : World) : neverHangs (putWorld w').
Proof. intros w. discriminate. Qed.

Lemma neverHangs_fsCall {A : Type} (call : nat -> A) : neverHangs (fsCall call).
Proof. intros w. discriminate. Qed.

Lemma neverHangs_mapM {A B : Type} (f : A -> M B) (l : list A) :
  (forall a, neverHangs (f a)) -> neverHangs (mapM f l).
Proof.
  intro Hf. induction l as [|a l IH]; simpl; [apply neverHangs_ret|].
  apply neverHangs_bind; [apply Hf|]. intros b w w' _.
  apply neverHangs_bind; [exact IH|]. intros. apply neverHangs_ret.
Qed.

End OutcomeFacts.

Create HintDb hang.
#[local] Hint Resolve neverHangs_ret neverHangs_throw neverHangs_ofAnswer
  neverHangs_getWorld neverHangs_putWorld : hang.

(** * The collaborators of the ingestion never hang *)
Section CollaboratorFacts.
Import Runtime.
Variable env : Env.

Lemma neverHangs_submit (stmt : Statement) : neverHangs (BrandVoiceQueries.submit env stmt).
Proof. intros w. unfold BrandVoiceQueries.submit. destruct (sql_error env w stmt); discriminate. Qed.

Lemma neverHangs_delete (file : string) :
  neverHangs (BrandVoiceQueries.deleteBrandVoiceEmbeddingsByFile env file).
Proof.
  unfold BrandVoiceQueries.deleteBrandVoiceEmbeddingsByFile.
  apply neverHangs_bind; [apply neverHangs_submit|]. intros _ w w' _.
  apply neverHangs_bind; [apply neverHangs_getWorld|]. intros w1 w2 w3 _.
  apply neverHangs_bind; [apply neverHangs_putWorld|]. intros. apply neverHangs_ret.
Qed.

Lemma neverHangs_unsafe (stmt : Statement) : neverHangs (BrandVoiceQueries.unsafe env stmt).
Proof. intros w. unfold BrandVoiceQueries.unsafe. destruct (sql_error env w stmt); discriminate. Qed.

Lemma neverHangs_insertLoop (rows : list Database.InsertBrandVoiceEmbedding) :
  forall (fuel : nat) (i total : Z),
    Z.of_nat (List.length rows) - i <= Z.of_nat fuel ->
    neverHangs (BrandVoiceQueries.insertLoop fuel env rows i total).
Proof.
  induction fuel as [|fuel IH]; intros i total Hfuel w; simpl;
    destruct (Z.ltb_spec i (Z.of_nat (List.length rows))); try discriminate; try lia.
  revert w. apply neverHangs_bind; [apply neverHangs_unsafe|].
  intros _ w w' _. apply IH. lia.
Qed.

Lemma neverHangs_bulkInsert (rows : list Database.InsertBrandVoiceEmbedding) :
  neverHangs (BrandVoiceQueries.bulkInsertBrandVoiceEmbeddings env rows).
Proof.
  unfold BrandVoiceQueries.bulkInsertBrandVoiceEmbeddings.
  destruct rows as [|r rows]; [apply neverHangs_ret|].
  apply neverHangs_insertLoop. lia.
Qed.

Lemma neverHangs_create (mdl : EmbeddingModel) (input : list string) :
  neverHangs (Embeddings.create env mdl input).
Proof.
  intros w. unfold Embeddings.create.
  destruct (embeddings_create env (requests w) mdl input); discriminate.
Qed.

Lemma neverHangs_batchLoop (texts : list string) (mdl : EmbeddingModel) (batchSize : Z) :
  0 < batchSize ->
  forall (fuel : nat) (i : Z) (acc : list Embeddings.EmbeddingResult) (tok : Z),
    Z.of_nat (List.length texts) - i <= Z.of_nat fuel ->
    neverHangs (Embeddings.batchLoop fuel env texts mdl batchSize i acc tok).
Proof.
  intros Hbs. induction fuel as [|fuel IH]; intros i acc tok Hfuel w; simpl;
    destruct (Z.ltb_spec i (Z.of_nat (List.length texts))); try discriminate; try lia.
  revert w. apply neverHangs_bind.
  - apply neverHangs_tryCatch; [apply neverHangs_create | intro; apply neverHangs_throw].
  - intros r w w' _. apply IH. lia.
Qed.

Lemma neverHangs_generateEmbeddingsBatch (texts : list string) (mdl : EmbeddingModel) :
  neverHangs (Embeddings.generateEmbeddingsBatch (List.length texts) env texts mdl 100).
Proof.
  unfold Embeddings.generateEmbeddingsBatch.
  apply neverHangs_bind.
  - unfold Embeddings.getOpenAIClient. destruct (OPENAI_API_KEY env); auto with hang.
  - intros _ w w' _. apply neverHangs_batchLoop; lia.
Qed.

Lemma neverHangs_readPDF (filePath : string) : neverHangs (PdfReader.readPDF env filePath).
Proof.
  unfold PdfReader.readPDF.
  apply neverHangs_tryCatch; [|intro; apply neverHangs_throw].
  apply neverHangs_bind; [apply neverHangs_fsCall | intros; apply neverHangs_ofAnswer].
Qed.

Lemma readPDF_Returned (filePath : string) (w w' : World) (content : PDFContent) :
  PdfReader.readPDF env filePath w = Returned content w' ->
  pdf_parse env (fsCalls w) filePath = Ok content.
Proof.
  unfold PdfReader.readPDF, tryCatch, bind, fsCall, ofAnswer.
  destruct (pdf_parse env (fsCalls w) filePath); simpl; intro H;
    [now injection H as -> | discriminate].
Qed.

Lemma neverHangs_toStore (src : Database.BrandVoiceSource) (file : string)
  (chunkList : list TextChunker.TextChunk) (emb : Embeddings.EmbeddingResult * Z) :
  neverHangs (BrandVoiceIngestion.toStore src file chunkList emb).
Proof.
  unfold BrandVoiceIngestion.toStore.
  destruct (Js.at_ chunkList (snd emb)); [|apply neverHangs_throw].
  destruct (Embeddings.text (fst emb)); auto with hang.
Qed.

End CollaboratorFacts.

(** * Ingestion of documents *)
Section IngestionFacts.
Import Runtime Database BrandVoiceIngestion.
Variable env : Env.

(** The chunking loop of the document at [filePath] finishes within [fuel]
    iterations, whatever the document reader returns for it. *)
Definition chunkingFinishes (fuel : nat) (filePath : string)
  (options : IngestionOptions) : Prop :=
  forall n content,
    pdf_parse env n filePath = Ok content ->
    TextChunker.chunkText fuel (pdf_text content) (chunkingOptions options) <> None.

(** The result [ingestDocument] builds in its [catch] block. *)
Definition failure (file : string) (options : IngestionOptions) (error : thrown)
  : IngestionResult :=
  {| success := false; fileName := file; r_source := source options;
     stats := zeroStats; errors := [messageOf error] |}.

Lemma ingestDocument_outcome (fuel : nat) (filePath : string) (options : IngestionOptions)
  (w : World) :
  ingestDocument fuel env filePath options w =
  match ingestSteps fuel env filePath (path_basename env filePath) options w with
  | Returned r w' => Returned r w'
  | Threw e w' => Returned (failure (path_basename env filePath) options e) w'
  | Hang => Hang
  end.
Proof. reflexivity. Qed.

Lemma ingestSteps_Returned (fuel : nat) (filePath file : string) (options : IngestionOptions)
  (w w' : World) (r : IngestionResult) :
  ingestSteps fuel env filePath file options w = Returned r w' ->
  success r = true /\ fileName r = file /\ r_source r = source options /\ errors r = [].
Proof.
  unfold ingestSteps. intro H.
  apply bind_Returned_inv in H as (present & w1 & _ & H).
  apply bind_Returned_inv in H as (_ & w2 & _ & H).
  apply bind_Returned_inv in H as (_ & w3 & _ & H).
  apply bind_Returned_inv in H as (pdfContent & w4 & _ & H).
  destruct (TextChunker.chunkTextWithMetadata _ _ _ _) as [chunkList|]; [|discriminate H].
  apply bind_Returned_inv in H as (embeddingsResult & w5 & _ & H).
  apply bind_Returned_inv in H as (embeddingsToStore & w6 & _ & H).
  apply bind_Returned_inv in H as (stored & w7 & _ & H).
  injection H as <- _. repeat split.
Qed.

Lemma ingestSteps_neverHangs (fuel : nat) (filePath file : string)
  (options : IngestionOptions) :
  chunkingFinishes fuel filePath options ->
  neverHangs (ingestSteps fuel env filePath file options).
Proof.
  intro Hchunk. unfold ingestSteps.
  apply neverHangs_bind; [apply neverHangs_fsCall|]. intros present w0 w1 _.
  apply neverHangs_bind; [destruct present; auto with hang|]. intros _ w2 w3 _.
  apply neverHangs_bind.
  { destruct (reIngest options) as [[|]|]; auto with hang.
    apply neverHangs_bind; [apply neverHangs_delete | intros; apply neverHangs_ret]. }
  intros _ w4 w5 _.
  apply neverHangs_bind; [apply neverHangs_readPDF|]. intros pdfContent w6 w7 Hread.
  apply readPDF_Returned in Hread. specialize (Hchunk _ pdfContent Hread).
  unfold TextChunker.chunkTextWithMetadata.
  destruct (TextChunker.chunkText fuel (pdf_text pdfContent) (chunkingOptions options))
    as [chunkList|]; [|contradiction]. simpl.
  apply neverHangs_bind; [apply neverHangs_generateEmbeddingsBatch|]. intros res w8 w9 _.
  apply neverHangs_bind; [apply neverHangs_mapM; intro; apply neverHangs_toStore|].
  intros rows w10 w11 _.
  apply neverHangs_bind; [apply neverHangs_bulkInsert | intros; apply neverHangs_ret].
Qed.

(** [r] is what [ingestDocument] makes of the run of its [try] block from
    the world [w], and [w'] the world that run leaves: the result the block
    returned, or, when the block threw, the failure built in the [catch]
    block, whose only error is the message of what was thrown. *)
Definition recorded (fuel : nat) (filePath : string) (options : IngestionOptions)
  (w : World) (r : IngestionResult) (w' : World) : Prop :=
  let file := path_basename env filePath in
  (ingestSteps fuel env filePath file options w = Returned r w' /\
   success r = true /\ errors r = []) \/
  (exists error,
     ingestSteps fuel env filePath file options w = Threw error w' /\
     r = failure file options error).

Lemma ingestDocument_returns (fuel : nat) (filePath : string) (options : IngestionOptions)
  (w : World) :
  chunkingFinishes fuel filePath options ->
  exists r w', ingestDocument fuel env filePath options w = Returned r w' /\
               recorded fuel filePath options w r w'.
Proof.
  intro Hchunk. rewrite ingestDocument_outcome. unfold recorded.
  pose proof (ingestSteps_neverHangs fuel filePath (path_basename env filePath)
                options Hchunk w) as Hn.
  destruct (ingestSteps fuel env filePath (path_basename env filePath) options w)
    as [r w'|e w'|] eqn:E; [| |contradiction].
  - apply ingestSteps_Returned in E as (Hs & _ & _ & He).
    exists r, w'. split; trivial. now left.
  - exists (failure (path_basename env filePath) options e), w'. split; trivial.
    right. now exists e.
Qed.

Lemma ingestDocument_never_throws (fuel : nat) (filePath : string)
  (options : IngestionOptions) (w w' : World) (e : thrown) :
  ingestDocument fuel env filePath options w <> Threw e w'.
Proof.
  rewrite ingestDocument_outcome.
  destruct (ingestSteps fuel env filePath (path_basename env filePath) options w);
    discriminate.
Qed.

(** C10.  A result of [ingestDocument] with [success = false] has all five
    statistics equal to 0 and a non-empty list of errors. *)
Theorem ingestDocument_failure_reports_nothing (fuel : nat) (filePath : string)
  (options : IngestionOptions) (w w' : World) (r : IngestionResult) :
  ingestDocument fuel env filePath options w = Returned r w' ->
  success r = false ->
  pages (stats r) = 0 /\ characters (stats r) = 0 /\ chunks (stats r) = 0 /\
  embeddings (stats r) = 0 /\ tokens (stats r) = 0 /\ errors r <> [].
Proof.
  rewrite ingestDocument_outcome. intros H Hfail.
  destruct (ingestSteps fuel env filePath (path_basename env filePath) options w)
    as [r0 w0|e w0|] eqn:E; try discriminate H.
  - injection H as -> ->. apply ingestSteps_Returned in E as (Hs & _). congruence.
  - injection H as <- _. simpl. repeat split. discriminate.
Qed.

End IngestionFacts.

Section DirectoryFacts.
Import Runtime Database BrandVoiceIngestion.
Variable env : Env.

Lemma ingestDocument_source (fuel : nat) (filePath : string) (options : IngestionOptions)
  (w w' : World) (r : IngestionResult) :
  ingestDocument fuel env filePath options w = Returned r w' ->
  r_source r = source options.
Proof.
  rewrite ingestDocument_outcome.
  destruct (ingestSteps fuel env filePath (path_basename env filePath) options w)
    as [r0 w0|e w0|] eqn:E; intro H; try discriminate H.
  - injection H as -> ->. now apply ingestSteps_Returned in E.
  - now injection H as <- _.
Qed.

(** The documents [pdfs] are ingested one after the other, each from the
    world its predecessor left, whether that one failed or not; [rs] are
    their results and [w'] is the world after the last. *)
Fixpoint ingestedInTurn (fuel : nat) (dir : string) (options : PartialIngestionOptions)
  (pdfs : list (string * PDFContent)) (w : World) (rs : list IngestionResult) (w' : World)
  : Prop :=
  match pdfs, rs with
  | [], [] => w' = w
  | p :: pdfs', r :: rs' =>
      exists w1,
        recorded env fuel (path_join env dir (fst p))
          (withSource options (inferSource (fst p))) w r w1 /\
        ingestedInTurn fuel dir options pdfs' w1 rs' w'
  | _, _ => False
  end.

Lemma ingestEach_returns (fuel : nat) (dir : string) (options : PartialIngestionOptions)
  (pdfs : list (string * PDFContent)) :
  (forall file, In file (map fst pdfs) ->
     chunkingFinishes env fuel (path_join env dir file)
       (withSource options (inferSource file))) ->
  forall (acc : list IngestionResult) (w : World),
  exists rs w',
    ingestEach fuel env dir options pdfs acc w = Returned (acc ++ rs) w' /\
    ingestedInTurn fuel dir options pdfs w rs w'.
Proof.
  induction pdfs as [|[file content] pdfs IH]; intros Hchunk acc w.
  - exists [], w. rewrite app_nil_r. now split.
  - simpl. unfold bind at 1.
    destruct (ingestDocument_returns env fuel (path_join env dir file)
                (withSource options (inferSource file)) w
                (Hchunk file (or_introl eq_refl))) as (r & w1 & E & Hr).
    rewrite E.
    destruct (IH (fun f Hf => Hchunk f (or_intror Hf)) (acc ++ [r]) w1)
      as (rs & w' & E' & Hrs).
    exists (r :: rs), w'. rewrite E', <- app_assoc. split; [reflexivity|].
    exists w1. now split.
Qed.

Lemma ingestAllDocuments_scanned (fuel : nat) (dir : string)
  (options : PartialIngestionOptions) (w w0 : World) (pdfs : list (string * PDFContent)) :
  PdfReader.readPDFsFromDirectory env dir w = Returned pdfs w0 ->
  (forall file, In file (map fst pdfs) ->
     chunkingFinishes env fuel (path_join env dir file)
       (withSource options (inferSource file))) ->
  exists rs w',
    ingestAllDocuments fuel env dir options w =
      Returned {| d_success := forallb success rs; results := rs;
                  totalStats := fold_left addStats rs zeroStats |} w' /\
    ingestedInTurn fuel dir options pdfs w0 rs w'.
Proof.
  intros Hscan Hchunk. unfold ingestAllDocuments, tryCatch, bind. rewrite Hscan.
  unfold ingestScanned. destruct pdfs as [|p pdfs].
  - exists [], w0. now split.
  - destruct (ingestEach_returns fuel dir options (p :: pdfs) Hchunk [] w0)
      as (rs & w' & E & Hrs).
    unfold bind. rewrite E. exists rs, w'. now split.
Qed.

(** The tag the file name decides, case by case. *)
Definition taggedByName (file : string) (tag : BrandVoiceSource) : Prop :=
  let name := Js.toLowerCase file in
  (Js.includes name "style" = true -> tag = style_guide) /\
  (Js.includes name "style" = false -> Js.includes name "knowledge" = true ->
   tag = knowledge_base) /\
  (Js.includes name "style" = false -> Js.includes name "knowledge" = false ->
   tag = other).

Lemma inferSource_taggedByName (file : string) : taggedByName file (inferSource file).
Proof.
  unfold taggedByName, inferSource.
  destruct (Js.includes (Js.toLowerCase file) "style");
    destruct (Js.includes (Js.toLowerCase file) "knowledge");
    repeat split; intros; trivial; discriminate.
Qed.

Lemma ingestEach_sources (fuel : nat) (dir : string) (options : PartialIngestionOptions)
  (pdfs : list (string * PDFContent)) :
  forall (acc out : list IngestionResult) (w w' : World),
    ingestEach fuel env dir options pdfs acc w = Returned out w' ->
    exists rs, out = acc ++ rs /\
               Forall2 (fun p r => taggedByName (fst p) (r_source r)) pdfs rs.
Proof.
  induction pdfs as [|[file content] pdfs IH]; intros acc out w w' H.
  - injection H as <- _. exists []. rewrite app_nil_r. now split.
  - simpl in H. apply bind_Returned_inv in H as (r & w1 & Hdoc & H).
    apply IH in H as (rs & -> & Hrs). exists (r :: rs). rewrite <- app_assoc.
    split; [reflexivity|]. constructor; trivial. simpl.
    apply ingestDocument_source in Hdoc. rewrite Hdoc. apply inferSource_taggedByName.
Qed.

(** C9 (as amended).  Whatever the options hold, also a [source], every
    result of a directory ingestion carries the tag of its file name: with
    the name in lower case, [style_guide] when it contains "style",
    otherwise [knowledge_base] when it contains "knowledge", otherwise
    [other]. *)
Theorem ingestAllDocuments_tags_by_file_name (fuel : nat) (dir : string)
  (options : PartialIngestionOptions) (w w' : World) (res : DirectoryResult) :
  ingestAllDocuments fuel env dir options w = Returned res w' ->
  exists pdfs w0,
    PdfReader.readPDFsFromDirectory env dir w = Returned pdfs w0 /\
    Forall2 (fun p r => taggedByName (fst p) (r_source r)) pdfs (results res).
Proof.
  unfold ingestAllDocuments, tryCatch. intro H.
  destruct (bind _ _ w) as [res0 w1|e w1|] eqn:E; try discriminate H.
  injection H as -> ->.
  apply bind_Returned_inv in E as (pdfs & w0 & Hscan & H).
  exists pdfs, w0. split; trivial.
  unfold ingestScanned in H. destruct pdfs as [|p pdfs].
  - injection H as <- _. constructor.
  - apply bind_Returned_inv in H as (rs & w2 & Heach & H).
    injection H as <- _. simpl.
    apply ingestEach_sources in Heach as (rs' & -> & Hrs). exact Hrs.
Qed.

End DirectoryFacts.

Section IngestionExamples.
Import Runtime Database BrandVoiceIngestion.

Definition guidesEnv : Env :=
  Scenario.env [1%float; 0%float] ["style-guide.pdf"; "notes.txt"; "knowledge-style.pdf"]%string
    Scenario.twoGuides Scenario.acceptAll.

Definition callerOptions (src : option BrandVoiceSource) : PartialIngestionOptions :=
  {| p_chunkSize := None; p_chunkOverlap := None; p_source := src; p_reIngest := Some true |}.

Lemma ingestDocument_failure_reports_nothing_witness :
  exists r w',
    ingestDocument 5 guidesEnv "documents/missing.pdf"
      (withSource (callerOptions None) other) (Scenario.world []) = Returned r w' /\
    success r = false /\
    pages (stats r) = 0 /\ characters (stats r) = 0 /\ chunks (stats r) = 0 /\
    embeddings (stats r) = 0 /\ tokens (stats r) = 0 /\ errors r <> [].
Proof.
  eexists. eexists. split; [vm_compute; reflexivity|]. split; [reflexivity|].
  eapply (ingestDocument_failure_reports_nothing guidesEnv 5 "documents/missing.pdf"
            (withSource (callerOptions None) other) (Scenario.world [])).
  - vm_compute. reflexivity.
  - reflexivity.
Defined.

Lemma ingestAllDocuments_tags_by_file_name_witness :
  exists res w',
    ingestAllDocuments 5 guidesEnv "documents" (callerOptions (Some feedback))
      (Scenario.world []) = Returned res w' /\
    exists pdfs w0,
      PdfReader.readPDFsFromDirectory guidesEnv "documents" (Scenario.world []) =
        Returned pdfs w0 /\
      Forall2 (fun p r => taggedByName (fst p) (r_source r)) pdfs (results res).
Proof.
  eexists. eexists. split; [vm_compute; reflexivity|].
  eapply (ingestAllDocuments_tags_by_file_name guidesEnv 5 "documents"
            (callerOptions (Some feedback)) (Scenario.world [])).
  vm_compute. reflexivity.
Defined.

(** C9 (as stated) fails: the caller asks for [feedback], and the results are
    tagged from the file names all the same; and a name that contains both
    "knowledge" and "style" is tagged [style_guide]. *)
Lemma ingestAllDocuments_ignores_caller_source :
  exists res w',
    ingestAllDocuments 5 guidesEnv "documents" (callerOptions (Some feedback))
      (Scenario.world []) = Returned res w' /\
    map fileName (results res) = ["style-guide.pdf"; "knowledge-style.pdf"]%string /\
    map r_source (results res) = [style_guide; style_guide] /\
    map success (results res) = [true; true].
Proof. eexists. eexists. split; [vm_compute; reflexivity|]. repeat split. Qed.

End IngestionExamples.

(** * Strings *)
Section StringFacts.

Lemma substring_none (n : nat) (s : string) : String.substring n 0 s = EmptyString.
Proof. revert s. induction n as [|n IH]; intros [|c s]; simpl; auto. Qed.

Lemma lastIndexOf_upto_range (sep s : string) (n : nat) :
  Js.lastIndexOf_upto sep s n = -1 \/ 0 <= Js.lastIndexOf_upto sep s n <= Z.of_nat n.
Proof.
  induction n as [|n IH]; simpl.
  - destruct (String.prefix _ _); [right|left]; lia.
  - destruct (String.prefix _ _); [right; lia|].
    destruct IH as [->|IH]; [now left | right; lia].
Qed.

Lemma lastIndexOf_range (s sep : string) (position : Z) :
  Js.lastIndexOf s sep position = -1 \/ 0 <= Js.lastIndexOf s sep position.
Proof.
  unfold Js.lastIndexOf. destruct (Js.length s - Js.length sep <? 0); [now left|].
  destruct (lastIndexOf_upto_range sep s
              (Z.to_nat (Z.min (Z.max position 0) (Js.length s - Js.length sep))))
    as [->|H]; [now left | right; lia].
Qed.

Lemma length_nonneg (s : string) : 0 <= Js.length s.
Proof. unfold Js.length. lia. Qed.

Lemma length_pos (s : string) : s <> EmptyString -> 0 < Js.length s.
Proof. destruct s; [contradiction | unfold Js.length; simpl; lia]. Qed.

Lemma trimStart_head (s : string) :
  match Js.trimStart s with
  | EmptyString => True
  | String c _ => Js.isWhiteSpace c = false
  end.
Proof.
  induction s as [|c s IH]; simpl; trivial.
  destruct (Js.isWhiteSpace c) eqn:E; [exact IH | simpl; exact E].
Qed.

Lemma trimEnd_head (c : ascii) (s : string) :
  Js.isWhiteSpace c = false -> exists r, Js.trimEnd (String c s) = String c r.
Proof.
  intro H. simpl. destruct (Js.trimEnd s); rewrite ?H; eauto.
Qed.

(** A trimmed string is empty or starts with a character that is not white
    space. *)
Lemma trim_head (s : string) :
  match Js.trim s with
  | EmptyString => True
  | String c _ => Js.isWhiteSpace c = false
  end.
Proof.
  unfold Js.trim. pose proof (trimStart_head s) as H.
  destruct (Js.trimStart s) as [|c r]; simpl; trivial.
  destruct (trimEnd_head c r H) as [r' E]. simpl in E. rewrite E. exact H.
Qed.

Lemma trim_keeps_head (c : ascii) (s : string) :
  Js.isWhiteSpace c = false -> Js.trim (String c s) <> EmptyString.
Proof.
  intro H. unfold Js.trim. simpl Js.trimStart. rewrite H.
  destruct (trimEnd_head c s H) as [r E]. rewrite E. discriminate.
Qed.

Lemma substring_head (c : ascii) (s : string) (e : Z) :
  0 < e -> exists r, Js.substring (String c s) 0 e = String c r.
Proof.
  intro He. unfold Js.substring, Js.clamp.
  assert (Hl : 0 < Js.length (String c s)) by (unfold Js.length; simpl; lia).
  set (len := Js.length (String c s)) in *.
  replace (Z.min (Z.min (Z.max 0 0) len) (Z.min (Z.max e 0) len)) with 0 by lia.
  replace (Z.max (Z.min (Z.max 0 0) len) (Z.min (Z.max e 0) len) - 0)
    with (Z.min e len) by lia.
  destruct (Z.to_nat (Z.min e len)) as [|k] eqn:Ek; [lia|]. simpl. eauto.
Qed.

Lemma substring_same (s : string) (a : Z) : Js.substring s a a = EmptyString.
Proof.
  unfold Js.substring.
  replace (Z.max (Js.clamp (Js.length s) a) (Js.clamp (Js.length s) a) -
           Z.min (Js.clamp (Js.length s) a) (Js.clamp (Js.length s) a)) with 0 by lia.
  apply substring_none.
Qed.

End StringFacts.

Section MoreStringFacts.

Fixpoint lastChar (s : string) : option ascii :=
  match s with
  | EmptyString => None
  | String c EmptyString => Some c
  | String _ r => lastChar r
  end.

(** The string is not empty and its last character is not white space. *)
Definition endsNonBlank (s : string) : Prop :=
  match lastChar s with
  | Some c => Js.isWhiteSpace c = false
  | None => False
  end.

Lemma trimEnd_last (s : string) : Js.trimEnd s = EmptyString \/ endsNonBlank (Js.trimEnd s).
Proof.
  induction s as [|c s IH]; simpl; [now left|].
  destruct (Js.trimEnd s) as [|d r] eqn:E.
  - destruct (Js.isWhiteSpace c) eqn:Hc; [now left | right; exact Hc].
  - right. destruct IH as [IH|IH]; [discriminate IH|]. exact IH.
Qed.

Lemma trim_last (s : string) : Js.trim s = EmptyString \/ endsNonBlank (Js.trim s).
Proof. apply trimEnd_last. Qed.

Lemma lastChar_drop (n : nat) (s : string) :
  (n < String.length s)%nat -> lastChar (Js.drop n s) = lastChar s.
Proof.
  revert s. induction n as [|n IH]; intros [|c s] H; simpl in H; try lia; trivial.
  simpl Js.drop. rewrite IH by lia.
  destruct s as [|d r]; [simpl in H; lia | reflexivity].
Qed.

Lemma substring_drop (n : nat) (s : string) :
  String.substring n (String.length s - n) s = Js.drop n s.
Proof.
  revert s. induction n as [|n IH]; intros s.
  - rewrite Nat.sub_0_r. simpl Js.drop. induction s as [|c s IHs]; simpl; congruence.
  - destruct s as [|c s]; [reflexivity|]. simpl. apply IH.
Qed.

Lemma substring_to_end (s : string) (c : Z) :
  0 <= c <= Js.length s -> Js.substring s c (Js.length s) = Js.drop (Z.to_nat c) s.
Proof.
  intro Hc. unfold Js.substring, Js.clamp.
  replace (Z.min (Z.min (Z.max c 0) (Js.length s))
                 (Z.min (Z.max (Js.length s) 0) (Js.length s))) with c by lia.
  replace (Z.max (Z.min (Z.max c 0) (Js.length s))
                 (Z.min (Z.max (Js.length s) 0) (Js.length s)) - c)
    with (Js.length s - c) by lia.
  unfold Js.length in *. rewrite <- substring_drop. f_equal. lia.
Qed.

Lemma endsNonBlank_trimStart (s : string) : endsNonBlank s -> Js.trimStart s <> EmptyString.
Proof.
  induction s as [|c s IH]; [intros []|]. intro H. simpl.
  destruct (Js.isWhiteSpace c) eqn:Hc; [|discriminate].
  apply IH. unfold endsNonBlank in *. destruct s as [|d r]; [|exact H].
  simpl in H. congruence.
Qed.

Lemma endsNonBlank_trim (s : string) : endsNonBlank s -> Js.trim s <> EmptyString.
Proof.
  intro H. apply endsNonBlank_trimStart in H. unfold Js.trim.
  pose proof (trimStart_head s) as Hh.
  destruct (Js.trimStart s) as [|c r]; [contradiction|].
  destruct (trimEnd_head c r Hh) as [r' ->]. discriminate.
Qed.

End MoreStringFacts.

(** * The chunking loop *)
Section ChunkerFacts.
Import TextChunker.
Variable opts : Resolved.
Variable cleanText : string.

Lemma findSplit_after_start (startPos endPos : Z) (seps : list string) (p : Z) :
  findSplit cleanText startPos endPos seps = Some p ->
  startPos <= p /\ (Forall (fun sep => sep <> EmptyString) seps -> startPos < p).
Proof.
  induction seps as [|sep seps IH]; simpl; [discriminate|].
  destruct (lastIndexOf_range
              (Js.substring cleanText (Z.max startPos (endPos - 200))
                 (Z.min (endPos + 100) (Js.length cleanText)))
              sep (endPos - Z.max startPos (endPos - 200))) as [E|Hge].
  - rewrite E. simpl. intro H. apply IH in H as [H1 H2]. split; trivial.
    intro Hall. inversion Hall; subst. now apply H2.
  - destruct (Z.eqb_spec
                (Js.lastIndexOf
                   (Js.substring cleanText (Z.max startPos (endPos - 200))
                      (Z.min (endPos + 100) (Js.length cleanText)))
                   sep (endPos - Z.max startPos (endPos - 200))) (-1)) as [E|_]; [lia|].
    intro H. injection H as <-. pose proof (length_nonneg sep). split; [lia|].
    intro Hall. inversion Hall as [|? ? Hsep _]; subst.
    apply length_pos in Hsep. lia.
Qed.

Lemma endPosAt_after_start (c : Z) :
  1 <= r_chunkSize opts -> 0 <= c < Js.length cleanText ->
  c <= endPosAt opts cleanText c /\
  (Forall (fun sep => sep <> EmptyString) (r_separators opts) ->
   c < endPosAt opts cleanText c).
Proof.
  intros Hsize Hc. unfold endPosAt.
  destruct (Z.min (c + r_chunkSize opts) (Js.length cleanText) <? Js.length cleanText);
    [|lia].
  destruct (findSplit cleanText c (Z.min (c + r_chunkSize opts) (Js.length cleanText))
              (r_separators opts)) as [p|] eqn:E; [|lia].
  now apply findSplit_after_start in E.
Qed.

(** The span that starts at [c] is emitted as a chunk (it is not blank). *)
Definition emits (c : Z) : bool :=
  0 <? Js.length (Js.trim (Js.substring cleanText c (endPosAt opts cleanText c))).

Lemma last_of_pushed (l : list TextChunk) (c : TextChunk) :
  Js.at_ (l ++ [c]) (Z.of_nat (List.length (l ++ [c])) - 1) = Some c.
Proof.
  unfold Js.at_. rewrite length_app. simpl List.length.
  destruct (Z.ltb_spec (Z.of_nat (List.length l + 1) - 1) 0); [lia|].
  replace (Z.to_nat (Z.of_nat (List.length l + 1) - 1)) with (List.length l) by lia.
  rewrite nth_error_app2 by lia. now rewrite Nat.sub_diag.
Qed.

(** An iteration that emits a chunk appends it and leaves the cursor at the
    end of the chunk or [chunkOverlap] before it, whichever the guard picks. *)
Lemma chunkStep_emitting (st : LoopState) :
  emits (startPos st) = true ->
  let endPos := endPosAt opts cleanText (startPos st) in
  chunks (chunkStep opts cleanText st) =
    chunks st ++ [{| text := Js.trim (Js.substring cleanText (startPos st) endPos);
                     index := chunkIndex st; startPosition := startPos st;
                     endPosition := endPos; metadata := None |}] /\
  startPos (chunkStep opts cleanText st) =
    (if endPos - r_chunkOverlap opts <=? startPos st then endPos
     else endPos - r_chunkOverlap opts).
Proof.
  intro He. unfold emits in He. unfold chunkStep. rewrite He. simpl.
  rewrite last_of_pushed. simpl. now split.
Qed.

Lemma emits_nonempty_span (c : Z) :
  emits c = true -> endPosAt opts cleanText c <> c.
Proof.
  unfold emits. intros H E. rewrite E, substring_same in H. discriminate H.
Qed.

Lemma chunkStep_progress (st : LoopState) :
  1 <= r_chunkSize opts ->
  0 <= startPos st < Js.length cleanText ->
  emits (startPos st) = true ->
  startPos st < startPos (chunkStep opts cleanText st).
Proof.
  intros Hsize Hc He.
  destruct (chunkStep_emitting st He) as [_ E]. cbv zeta in E. rewrite E.
  pose proof (emits_nonempty_span _ He).
  destruct (endPosAt_after_start (startPos st) Hsize Hc) as [Hle _].
  destruct (Z.leb_spec (endPosAt opts cleanText (startPos st) - r_chunkOverlap opts)
              (startPos st)); lia.
Qed.

(** The states the loop goes through: the initial one, and the one that an
    iteration makes of a state in which the loop condition holds. *)
Inductive reached : LoopState -> Prop :=
| reached_initial : reached initial
| reached_step (st : LoopState) :
    reached st -> startPos st < Js.length cleanText ->
    reached (chunkStep opts cleanText st).

(** No span is dropped as blank: every iteration of the run emits a chunk. *)
Definition noSpanDropped : Prop :=
  forall st, reached st -> startPos st < Js.length cleanText -> emits (startPos st) = true.

Lemma reached_nonneg :
  (forall st, reached st -> 0 <= startPos st < Js.length cleanText ->
              startPos st < startPos (chunkStep opts cleanText st)) ->
  forall st, reached st -> 0 <= startPos st.
Proof.
  intros Hprog st Hst. induction Hst as [|st Hst IH Hlt]; [simpl; lia|].
  pose proof (Hprog st Hst ltac:(lia)). lia.
Qed.

Lemma chunkLoop_terminates_reached (fuel : nat) (st : LoopState) :
  (forall st', reached st' -> 0 <= startPos st' < Js.length cleanText ->
               startPos st' < startPos (chunkStep opts cleanText st')) ->
  reached st -> 0 <= startPos st ->
  Js.length cleanText - startPos st <= Z.of_nat fuel ->
  exists chunkList, chunkLoop fuel opts cleanText st = Some chunkList.
Proof.
  intros Hprog. revert st. induction fuel as [|fuel IH]; intros st Hst H0 Hfuel; simpl;
    destruct (Z.ltb_spec (startPos st) (Js.length cleanText)) as [Hlt|Hge];
    eauto; try lia.
  pose proof (Hprog st Hst ltac:(lia)). apply IH; [now apply reached_step | lia | lia].
Qed.

Lemma iterate_last (n : nat) (st : LoopState) :
  iterate (S n) opts cleanText st = chunkStep opts cleanText (iterate n opts cleanText st).
Proof. revert st. induction n as [|n IH]; intro st; [reflexivity|]. simpl in *. apply IH. Qed.

End ChunkerFacts.

Section WindowFacts.
Import TextChunker.
Variable opts : Resolved.
Variable cleanText : string.

Lemma findSplit_after_window (startPos endPos : Z) (seps : list string) (p : Z) :
  Forall (fun sep => sep <> EmptyString) seps ->
  findSplit cleanText startPos endPos seps = Some p ->
  endPos - 200 < p.
Proof.
  induction seps as [|sep seps IH]; simpl; [discriminate|]. intro Hall.
  inversion Hall as [|? ? Hsep Hrest]; subst.
  destruct (lastIndexOf_range
              (Js.substring cleanText (Z.max startPos (endPos - 200))
                 (Z.min (endPos + 100) (Js.length cleanText)))
              sep (endPos - Z.max startPos (endPos - 200))) as [E|Hge].
  - rewrite E. simpl. now apply IH.
  - destruct (Z.eqb_spec
                (Js.lastIndexOf
                   (Js.substring cleanText (Z.max startPos (endPos - 200))
                      (Z.min (endPos + 100) (Js.length cleanText)))
                   sep (endPos - Z.max startPos (endPos - 200))) (-1)) as [E|_]; [lia|].
    intro H. injection H as <-. apply length_pos in Hsep. lia.
Qed.

(** After an iteration the cursor is at the end of the span or
    [chunkOverlap] before it. *)
Lemma chunkStep_cursor (st : LoopState) :
  let endPos := endPosAt opts cleanText (startPos st) in
  startPos (chunkStep opts cleanText st) = endPos \/
  startPos (chunkStep opts cleanText st) = endPos - r_chunkOverlap opts.
Proof.
  unfold chunkStep. cbn [startPos].
  destruct (Js.at_ _ _) as [lastChunk|]; [|now right].
  destruct (_ <=? _); [now left | now right].
Qed.

Lemma tail_emits (c : Z) :
  endsNonBlank cleanText -> 0 <= c < Js.length cleanText ->
  endPosAt opts cleanText c = Js.length cleanText ->
  emits opts cleanText c = true.
Proof.
  intros Hend Hc E. unfold emits. rewrite E, substring_to_end by lia.
  apply Z.ltb_lt, length_pos, endsNonBlank_trim.
  unfold endsNonBlank. rewrite lastChar_drop; [exact Hend|].
  unfold Js.length in Hc. lia.
Qed.

(** Progress from the search window alone: the split is searched no earlier
    than 200 characters before the size limit, so an overlap of at most
    [chunkSize - 200] cannot take the cursor back to where it was. *)
Lemma chunkStep_progress_window (st : LoopState) :
  0 <= r_chunkOverlap opts -> r_chunkOverlap opts + 200 <= r_chunkSize opts ->
  Forall (fun sep => sep <> EmptyString) (r_separators opts) ->
  endsNonBlank cleanText ->
  0 <= startPos st < Js.length cleanText ->
  startPos st < startPos (chunkStep opts cleanText st).
Proof.
  intros Ho Hwin Hseps Hend Hc.
  destruct (Z.lt_ge_cases (startPos st + r_chunkSize opts) (Js.length cleanText))
    as [Hin|Htail].
  - assert (He : startPos st + r_chunkOverlap opts < endPosAt opts cleanText (startPos st)).
    { unfold endPosAt.
      replace (Z.min (startPos st + r_chunkSize opts) (Js.length cleanText))
        with (startPos st + r_chunkSize opts) by lia.
      destruct (Z.ltb_spec (startPos st + r_chunkSize opts) (Js.length cleanText)); [|lia].
      destruct (findSplit _ _ _ _) as [p|] eqn:E; [|lia].
      apply findSplit_after_window in E; trivial. lia. }
    destruct (chunkStep_cursor st) as [-> | ->]; lia.
  - apply chunkStep_progress; try lia.
    apply tail_emits; trivial. unfold endPosAt.
    replace (Z.min (startPos st + r_chunkSize opts) (Js.length cleanText))
      with (Js.length cleanText) by lia.
    now rewrite Z.ltb_irrefl.
Qed.

Lemma chunkLoop_terminates_by_progress (fuel : nat) (st : LoopState) :
  (forall st', 0 <= startPos st' < Js.length cleanText ->
               startPos st' < startPos (chunkStep opts cleanText st')) ->
  0 <= startPos st -> Js.length cleanText - startPos st <= Z.of_nat fuel ->
  exists chunkList, chunkLoop fuel opts cleanText st = Some chunkList.
Proof.
  intros Hprog. revert st. induction fuel as [|fuel IH]; intros st H0 Hfuel; simpl;
    destruct (Z.ltb_spec (startPos st) (Js.length cleanText)) as [Hlt|Hge];
    eauto; try lia.
  pose proof (Hprog st ltac:(lia)). apply IH; lia.
Qed.

End WindowFacts.

Section IngestionChunking.
Import Runtime BrandVoiceIngestion.

(** With chunk sizes that keep the overlap clear of the search window, as
    the defaults do, the chunking of a document finishes within as many
    iterations as its cleaned text has characters. *)
Lemma chunkingFinishes_window (env : Env) (fuel : nat) (filePath : string)
  (options : IngestionOptions) :
  0 <= orElse (chunkOverlap options) 200 ->
  orElse (chunkOverlap options) 200 + 200 <= orElse (chunkSize options) 1000 ->
  (forall n content,
     pdf_parse env n filePath = Ok content ->
     Js.length (TextChunker.normalize (pdf_text content)) <= Z.of_nat fuel) ->
  chunkingFinishes env fuel filePath options.
Proof.
  intros Ho Hwin Hlen n content Hparse. specialize (Hlen n content Hparse).
  unfold TextChunker.chunkText.
  set (opts := TextChunker.resolve (chunkingOptions options)).
  change (TextChunker.cleanTextOf opts (pdf_text content))
    with (TextChunker.normalize (pdf_text content)).
  destruct (Z.eqb_spec (Js.length (TextChunker.normalize (pdf_text content))) 0);
    [discriminate|].
  destruct (chunkLoop_terminates_by_progress opts
              (TextChunker.normalize (pdf_text content)) fuel TextChunker.initial)
    as [chunkList ->]; try discriminate; simpl; try lia.
  intros st Hst. apply chunkStep_progress_window; trivial.
  - vm_compute. repeat constructor; discriminate.
  - unfold TextChunker.normalize in *.
    destruct (trim_last (Js.collapseBlanks false
                           (Js.collapseNewlines 0 (Js.replaceCRLF (pdf_text content)))))
      as [E|E]; [|exact E].
    rewrite E in Hst. unfold Js.length in Hst. simpl in Hst. lia.
Qed.


End IngestionChunking.

Section IsolationExamples.
Import Runtime Database BrandVoiceIngestion.
Local Open Scope string_scope.

Definition page (text : string) : PDFContent :=
  {| pdf_text := text; numPages := 1; title := None |}.

(** A directory of five documents.  After the scan the first is gone, the
    rows of the second cannot be deleted, the third can no longer be read,
    and the provider turns down the text of the fourth; the fifth is
    ingested. *)
Definition troubledEnv : Env :=
  {| OPENAI_API_KEY := true;
     embeddings_create := fun _ _ input =>
       if List.existsb (String.eqb "Too many requests.") input
       then Fail (JsError "429 Rate limit reached")
       else Ok {| data := map (fun _ => [1%float; 0%float]) input;
                  total_tokens := Z.of_nat (List.length input) |};
     sql_error := fun _ stmt =>
       match stmt with
       | DeleteByFile file =>
           if String.eqb file "locked.pdf"
           then Some (JsError "permission denied for table brand_voice_embeddings")
           else None
       | _ => None
       end;
     fs_access := fun _ path => negb (String.eqb path "documents/gone.pdf");
     fs_readdir := fun _ _ =>
       Ok ["gone.pdf"; "locked.pdf"; "torn.pdf"; "long.pdf"; "style-guide.pdf"];
     pdf_parse := fun n path =>
       if String.eqb path "documents/gone.pdf" then Ok (page "Gone soon.")
       else if String.eqb path "documents/locked.pdf" then Ok (page "Locked rows.")
       else if String.eqb path "documents/torn.pdf" then
         if (n <=? 5)%nat then Ok (page "Torn later.")
         else Fail (JsError "Invalid PDF structure")
       else if String.eqb path "documents/long.pdf" then Ok (page "Too many requests.")
       else if String.eqb path "documents/style-guide.pdf"
       then Ok (page "Our tone is friendly and direct.")
       else Fail (JsError "ENOENT: no such file or directory");
     path_basename := Scenario.basename;
     path_join := fun dir file => String.append dir (String.append "/" file) |}.

Definition troubledScan : list (string * PDFContent) :=
  [("gone.pdf", page "Gone soon."); ("locked.pdf", page "Locked rows.");
   ("torn.pdf", page "Torn later."); ("long.pdf", page "Too many requests.");
   ("style-guide.pdf", page "Our tone is friendly and direct.")].



End IsolationExamples.

Section ChunkerClaims.
Import TextChunker.

Definition sized (size overlap : Z) : ChunkingOptions :=
  {| chunkSize := Some size; chunkOverlap := Some overlap;
     separators := None; preserveWhitespace := None |}.

(** Four letters, three line feeds separated by blanks, twenty letters. *)
Definition blankRun : string :=
  String.append "aaaa"
    (String.append nl (String.append " " (String.append nl (String.append " "
       (String.append nl "bbbbbbbbbbbbbbbbbbbb"))))).

Lemma chunkLoop_stuck (opts : Resolved) (cleanText : string) (st : LoopState) :
  startPos st < Js.length cleanText ->
  chunkStep opts cleanText st = st ->
  forall fuel, chunkLoop fuel opts cleanText st = None.
Proof.
  intros Hlt Hfix. induction fuel as [|fuel IH]; simpl;
    destruct (Z.ltb_spec (startPos st) (Js.length cleanText)); try lia; trivial.
  now rewrite Hfix.
Qed.

(** The overlap stays clear of the window in which a split is searched (the
    200 characters before the size limit), with the default whitespace
    handling and no empty separator.  The defaults, size 1000 and overlap
    200, are such a configuration. *)
Definition overlapClearOfWindow (opts : Resolved) : Prop :=
  r_preserveWhitespace opts = false /\
  0 <= r_chunkOverlap opts /\
  r_chunkOverlap opts + 200 <= r_chunkSize opts /\
  Forall (fun sep => sep <> EmptyString) (r_separators opts).

(** C8 (as amended).  When no iteration of the run drops a span as blank
    (chunk size at least 1, whatever the overlap), or when the overlap is at
    most the chunk size minus 200, every iteration of the run moves the
    cursor strictly forward and the loop ends within as many iterations as
    the cleaned text has characters. *)
Theorem chunkLoop_progress_and_termination (rawText : string) (options : ChunkingOptions) :
  let opts := resolve options in
  let cleanText := cleanTextOf opts rawText in
  (1 <= r_chunkSize opts /\ noSpanDropped opts cleanText) \/ overlapClearOfWindow opts ->
  (forall st, reached opts cleanText st -> startPos st < Js.length cleanText ->
              startPos st < startPos (chunkStep opts cleanText st)) /\
  exists chunkList,
    chunkText (Z.to_nat (Js.length cleanText)) rawText options = Some chunkList.
Proof.
  intros opts cleanText H.
  assert (Hprog : forall st, reached opts cleanText st ->
                             0 <= startPos st < Js.length cleanText ->
                             startPos st < startPos (chunkStep opts cleanText st)).
  { intros st Hreached Hst. destruct H as [[Hsize Hall]|(Hpw & Ho & Hwin & Hseps)].
    - apply chunkStep_progress; trivial. apply Hall; [exact Hreached | lia].
    - apply chunkStep_progress_window; trivial.
      unfold cleanText, cleanTextOf in *. rewrite Hpw in *. unfold normalize in *.
      destruct (trim_last (Js.collapseBlanks false
                             (Js.collapseNewlines 0 (Js.replaceCRLF rawText)))) as [E|E];
        [|exact E].
      rewrite E in Hst. unfold Js.length in Hst. simpl in Hst. lia. }
  split.
  - intros st Hreached Hlt. apply Hprog; trivial.
    pose proof (reached_nonneg opts cleanText Hprog st Hreached). lia.
  - unfold chunkText. fold opts. fold cleanText.
    destruct (Z.eqb_spec (Js.length cleanText) 0); [eauto|].
    apply chunkLoop_terminates_reached; trivial; [constructor | simpl; lia |];
      simpl; pose proof (length_nonneg cleanText); lia.
Qed.

Lemma chunkLoop_progress_and_termination_witness :
  (exists chunkList, chunkText 5 "ab cd" (sized 2 0) = Some chunkList) /\
  (exists chunkList, chunkText 5 "aaaaa" (sized 10 1) = Some chunkList) /\
  (exists chunkList, chunkText 32 "Our tone is friendly and direct." noOptions = Some chunkList).
Proof.
  split; [|split].
  - apply (chunkLoop_progress_and_termination "ab cd" (sized 2 0)).
    left. split; [vm_compute; discriminate|].
    set (opts := resolve (sized 2 0)).
    change (cleanTextOf opts "ab cd") with "ab cd"%string.
    assert (Hrun : forall st, reached opts "ab cd" st ->
                     exists k, (k <= 2)%nat /\ st = iterate k opts "ab cd" initial).
    { intros st Hst. induction Hst as [|st Hst (k & Hk & ->) Hlt];
        [exists O; split; [lia | reflexivity]|].
      destruct k as [|[|[|k]]]; try lia.
      - exists 1%nat. split; [lia | reflexivity].
      - exists 2%nat. split; [lia | reflexivity].
      - vm_compute in Hlt. discriminate Hlt. }
    intros st Hst Hlt. destruct (Hrun st Hst) as (k & Hk & ->).
    destruct k as [|[|[|k]]]; try lia; try (vm_compute; reflexivity).
    vm_compute in Hlt. discriminate Hlt.
  - apply (chunkLoop_progress_and_termination "aaaaa" (sized 10 1)).
    left. split; [vm_compute; discriminate|].
    set (opts := resolve (sized 10 1)).
    change (cleanTextOf opts "aaaaa") with "aaaaa"%string.
    assert (Hrun : forall st, reached opts "aaaaa" st ->
                     exists k, (k <= 2)%nat /\ st = iterate k opts "aaaaa" initial).
    { intros st Hst. induction Hst as [|st Hst (k & Hk & ->) Hlt];
        [exists O; split; [lia | reflexivity]|].
      destruct k as [|[|[|k]]]; try lia.
      - exists 1%nat. split; [lia | reflexivity].
      - exists 2%nat. split; [lia | reflexivity].
      - vm_compute in Hlt. discriminate Hlt. }
    intros st Hst Hlt. destruct (Hrun st Hst) as (k & Hk & ->).
    destruct k as [|[|[|k]]]; try lia; try (vm_compute; reflexivity).
    vm_compute in Hlt. discriminate Hlt.
  - apply (chunkLoop_progress_and_termination "Our tone is friendly and direct." noOptions).
    right. split; [reflexivity|]. split; [vm_compute; discriminate|].
    split; [vm_compute; discriminate|]. vm_compute. repeat constructor; discriminate.
Defined.

(** C8 (as stated) fails.  The bound: five letters with size 10 and overlap 1
    take two iterations, and [ceil(5 / 9)] is 1.  Progress: on [blankRun]
    with size 10 and overlap 5 the second iteration drops a blank span and
    leaves the cursor where it was, so the loop never ends. *)
Lemma chunkLoop_exceeds_bound_and_stalls :
  (Z.to_nat (ceilDiv (Js.length "aaaaa") (10 - 1)) = 1%nat /\
   chunkText 1 "aaaaa" (sized 10 1) = None /\
   exists chunkList, chunkText 2 "aaaaa" (sized 10 1) = Some chunkList) /\
  (let opts := resolve (sized 10 5) in
   let stalled := iterate 1 opts blankRun initial in
   cleanTextOf opts blankRun = blankRun /\
   startPos (chunkStep opts blankRun stalled) = startPos stalled /\
   forall fuel, chunkText fuel blankRun (sized 10 5) = None).
Proof.
  split.
  - split; [reflexivity|]. split; [vm_compute; reflexivity|]. eexists. vm_compute. reflexivity.
  - intros opts stalled.
    assert (Hclean : cleanTextOf opts blankRun = blankRun) by (vm_compute; reflexivity).
    assert (Hfix : chunkStep opts blankRun stalled = stalled) by (vm_compute; reflexivity).
    split; [exact Hclean|]. split; [now rewrite Hfix|].
    assert (Hstuck : forall fuel, chunkLoop fuel opts blankRun stalled = None).
    { apply chunkLoop_stuck; [vm_compute; reflexivity | exact Hfix]. }
    intros [|fuel]; unfold chunkText; fold opts; rewrite Hclean.
    + vm_compute. reflexivity.
    + change (Js.length blankRun =? 0) with false. cbv iota.
      change (chunkLoop (S fuel) opts blankRun initial)
        with (chunkLoop fuel opts blankRun (chunkStep opts blankRun initial)).
      apply Hstuck.
Qed.

(** C3 (as amended).  An overlap of at least the chunk size is accepted, not
    rejected: on a text that is not blank (default whitespace handling, chunk
    size at least 1, no empty separator) the first iteration emits a chunk
    that starts at offset 0 and moves the cursor forward; when that chunk
    ends within the chunk size, the cursor is put at its end, that is, the
    next chunk starts without any overlap. *)
Theorem chunkText_accepts_large_overlap (rawText : string) (options : ChunkingOptions) :
  let opts := resolve options in
  let cleanText := cleanTextOf opts rawText in
  r_preserveWhitespace opts = false ->
  cleanText <> EmptyString ->
  1 <= r_chunkSize opts ->
  r_chunkSize opts <= r_chunkOverlap opts ->
  Forall (fun sep => sep <> EmptyString) (r_separators opts) ->
  (forall fuel, chunkText (S fuel) rawText options =
                chunkLoop fuel opts cleanText (chunkStep opts cleanText initial)) /\
  exists c,
    chunks (chunkStep opts cleanText initial) = [c] /\
    startPosition c = 0 /\ text c <> EmptyString /\
    0 < startPos (chunkStep opts cleanText initial) /\
    (endPosition c <= r_chunkSize opts ->
     startPos (chunkStep opts cleanText initial) = endPosition c).
Proof.
  intros opts cleanText Hpw Hne Hsize Hover Hseps.
  pose proof (length_pos cleanText Hne) as Hlen.
  split.
  - intro fuel. unfold chunkText. fold opts. fold cleanText.
    destruct (Z.eqb_spec (Js.length cleanText) 0); [lia|].
    simpl. destruct (Z.ltb_spec 0 (Js.length cleanText)); [reflexivity | lia].
  - destruct (endPosAt_after_start opts cleanText 0 Hsize ltac:(lia)) as [_ Hend].
    specialize (Hend Hseps).
    assert (Hhead : exists ch r, cleanText = String ch r /\ Js.isWhiteSpace ch = false).
    { unfold cleanText, cleanTextOf in *. rewrite Hpw in *. unfold normalize in *.
      pose proof (trim_head (Js.collapseBlanks false
                               (Js.collapseNewlines 0 (Js.replaceCRLF rawText)))) as H.
      destruct (Js.trim _) as [|ch r]; [contradiction | eauto]. }
    destruct Hhead as (ch & r & Eclean & Hch).
    assert (He : emits opts cleanText (startPos initial) = true).
    { unfold emits. simpl startPos. apply Z.ltb_lt. apply length_pos.
      rewrite Eclean at 1.
      destruct (substring_head ch r (endPosAt opts cleanText 0) Hend) as [r' ->].
      now apply trim_keeps_head. }
    destruct (chunkStep_emitting opts cleanText initial He) as [Hchunks Hpos].
    cbv zeta in Hchunks, Hpos.
    change (startPos initial) with 0 in Hchunks, Hpos.
    change (chunks initial) with (@nil TextChunk) in Hchunks.
    rewrite app_nil_l in Hchunks.
    eexists. split; [exact Hchunks|]. cbn [startPosition text endPosition].
    split; [reflexivity|]. split.
    + unfold emits in He. change (startPos initial) with 0 in He. apply Z.ltb_lt in He.
      intro E. rewrite E in He. discriminate He.
    + rewrite Hpos.
      destruct (Z.leb_spec (endPosAt opts cleanText 0 - r_chunkOverlap opts) 0); split;
        intros; lia.
Qed.

Lemma chunkText_accepts_large_overlap_witness :
  exists c,
    chunks (chunkStep (resolve (sized 2 5)) "aaaaa" initial) = [c] /\
    startPosition c = 0 /\ text c <> EmptyString /\
    0 < startPos (chunkStep (resolve (sized 2 5)) "aaaaa" initial) /\
    (endPosition c <= 2 ->
     startPos (chunkStep (resolve (sized 2 5)) "aaaaa" initial) = endPosition c).
Proof.
  apply (chunkText_accepts_large_overlap "aaaaa" (sized 2 5)).
  - reflexivity.
  - vm_compute. discriminate.
  - vm_compute. discriminate.
  - vm_compute. discriminate.
  - vm_compute. repeat constructor; discriminate.
Defined.

(** C3 (as stated) fails: with size 2 and overlap 5 nothing is rejected and
    three chunks are produced. *)
Lemma chunkText_large_overlap_produces_chunks :
  chunkText 3 "aaaaa" (sized 2 5) =
  Some [{| text := "aa"; index := 0; startPosition := 0; endPosition := 2; metadata := None |};
        {| text := "aa"; index := 1; startPosition := 2; endPosition := 4; metadata := None |};
        {| text := "a"; index := 2; startPosition := 4; endPosition := 5; metadata := None |}].
Proof. vm_compute. reflexivity. Qed.

End ChunkerClaims.

(** * More facts on strings *)
Section SpanFacts.

Lemma substring_length (n m : nat) (s : string) :
  String.length (String.substring n m s) = Nat.min m (String.length s - n).
Proof.
  revert n m. induction s as [|c s IH]; intros [|n] [|m]; simpl; trivial;
    rewrite IH; lia.
Qed.

(** Length of [s.substring(a, b)] when [a <= b]. *)
Lemma js_substring_length (s : string) (a b : Z) :
  a <= b ->
  Js.length (Js.substring s a b) = Js.clamp (Js.length s) b - Js.clamp (Js.length s) a.
Proof.
  intro Hab. unfold Js.substring, Js.length at 1. rewrite substring_length.
  unfold Js.clamp, Js.length. lia.
Qed.

Lemma trimStart_length (s : string) : Js.length (Js.trimStart s) <= Js.length s.
Proof.
  unfold Js.length. induction s as [|c s IH]; simpl; [lia|].
  destruct (Js.isWhiteSpace c); simpl; lia.
Qed.

Lemma trimEnd_length (s : string) : Js.length (Js.trimEnd s) <= Js.length s.
Proof.
  unfold Js.length. induction s as [|c s IH]; simpl; [lia|].
  destruct (Js.trimEnd s); [destruct (Js.isWhiteSpace c)|]; simpl in *; lia.
Qed.

Lemma trim_length (s : string) : Js.length (Js.trim s) <= Js.length s.
Proof.
  unfold Js.trim. pose proof (trimEnd_length (Js.trimStart s)).
  pose proof (trimStart_length s). lia.
Qed.

Lemma trimStart_empty_blank (s : string) (n : nat) (ch : ascii) :
  Js.trimStart s = EmptyString -> String.get n s = Some ch -> Js.isWhiteSpace ch = true.
Proof.
  revert n. induction s as [|c s IH]; intros n; simpl; [discriminate 2|].
  destruct (Js.isWhiteSpace c) eqn:Hc; [|discriminate].
  intros E. destruct n as [|n]; [intro H; now injection H as <- | now apply IH].
Qed.

(** A string that trims to nothing holds white space only. *)
Lemma trim_empty_blank (s : string) (n : nat) (ch : ascii) :
  Js.trim s = EmptyString -> String.get n s = Some ch -> Js.isWhiteSpace ch = true.
Proof.
  unfold Js.trim. intro E. apply trimStart_empty_blank.
  pose proof (trimStart_head s) as H.
  destruct (Js.trimStart s) as [|c r]; trivial.
  destruct (trimEnd_head c r H) as [r' E']. congruence.
Qed.

(** The character at position [p] of a span that contains [p]. *)
Lemma js_substring_get (s : string) (a b p : Z) :
  a <= p < b -> 0 <= p -> b <= Js.length s ->
  String.get (Z.to_nat (p - Z.max a 0)) (Js.substring s a b) = String.get (Z.to_nat p) s.
Proof.
  intros Hp H0 Hb. unfold Js.substring, Js.clamp.
  replace (Z.min (Z.min (Z.max a 0) (Js.length s)) (Z.min (Z.max b 0) (Js.length s)))
    with (Z.max a 0) by lia.
  replace (Z.max (Z.min (Z.max a 0) (Js.length s)) (Z.min (Z.max b 0) (Js.length s)))
    with b by lia.
  rewrite String.substring_correct1 by lia. f_equal. lia.
Qed.

Lemma lastIndexOf_upper (s sep : string) (position : Z) :
  0 <= Js.lastIndexOf s sep position ->
  Js.lastIndexOf s sep position <= Js.length s - Js.length sep /\
  Js.lastIndexOf s sep position <= Z.max position 0.
Proof.
  unfold Js.lastIndexOf.
  destruct (Z.ltb_spec (Js.length s - Js.length sep) 0) as [|Hroom]; [lia|].
  destruct (lastIndexOf_upto_range sep s
              (Z.to_nat (Z.min (Z.max position 0) (Js.length s - Js.length sep))))
    as [->|H]; lia.
Qed.

End SpanFacts.

(** * What the chunking loop keeps true of the chunks it has emitted *)
Section ChunkInvariants.
Import TextChunker.
Variable opts : Resolved.
Variable cleanText : string.

(** Not empty, and neither the first nor the last character is white space. *)
Definition trimmed (s : string) : Prop :=
  match s with
  | EmptyString => False
  | String c _ => Js.isWhiteSpace c = false
  end /\ endsNonBlank s.

Lemma trim_trimmed (s : string) : 0 < Js.length (Js.trim s) -> trimmed (Js.trim s).
Proof.
  intro H. pose proof (trim_head s) as Hh. split.
  - destruct (Js.trim s); [unfold Js.length in H; simpl in H; lia | exact Hh].
  - destruct (trim_last s) as [E|E]; [|exact E].
    rewrite E in H. unfold Js.length in H. simpl in H. lia.
Qed.

(** The chunk at place [i] of the result: numbered [i], holding the trimmed
    span of the cleaned text between its two positions. *)
Definition chunkAt (i : nat) (c : TextChunk) : Prop :=
  index c = Z.of_nat i /\
  trimmed (text c) /\
  text c = Js.trim (Js.substring cleanText (startPosition c) (endPosition c)) /\
  metadata c = None.

Definition numbered (l : list TextChunk) : Prop :=
  forall i c, nth_error l i = Some c -> chunkAt i c.

Lemma chunkStep_dropping (st : LoopState) :
  emits opts cleanText (startPos st) = false ->
  chunks (chunkStep opts cleanText st) = chunks st /\
  chunkIndex (chunkStep opts cleanText st) = chunkIndex st.
Proof. intro He. unfold emits in He. unfold chunkStep. rewrite He. now split. Qed.

Lemma chunkStep_index (st : LoopState) :
  chunkIndex st = Z.of_nat (List.length (chunks st)) ->
  chunkIndex (chunkStep opts cleanText st) =
  Z.of_nat (List.length (chunks (chunkStep opts cleanText st))).
Proof.
  intro H. destruct (emits opts cleanText (startPos st)) eqn:He.
  - destruct (chunkStep_emitting opts cleanText st He) as [-> _].
    unfold chunkStep. unfold emits in He. rewrite He. cbn [chunkIndex].
    rewrite length_app. simpl List.length. lia.
  - destruct (chunkStep_dropping st He) as [-> ->]. exact H.
Qed.

Lemma chunkStep_numbered (st : LoopState) :
  chunkIndex st = Z.of_nat (List.length (chunks st)) ->
  numbered (chunks st) -> numbered (chunks (chunkStep opts cleanText st)).
Proof.
  intros Hi Hn. destruct (emits opts cleanText (startPos st)) eqn:He.
  - destruct (chunkStep_emitting opts cleanText st He) as [-> _].
    intros i c Hc. destruct (Nat.lt_ge_cases i (List.length (chunks st))) as [Hlt|Hge].
    + rewrite nth_error_app1 in Hc by trivial. now apply Hn.
    + rewrite nth_error_app2 in Hc by trivial.
      destruct (i - List.length (chunks st))%nat as [|k] eqn:Ek;
        [|destruct k; discriminate Hc].
      injection Hc as <-. unfold chunkAt. cbn [index text startPosition endPosition metadata].
      repeat split; trivial; [lia| |]; apply trim_trimmed, Z.ltb_lt; exact He.
  - now destruct (chunkStep_dropping st He) as [-> _].
Qed.

Lemma chunkLoop_numbered (fuel : nat) (st : LoopState) (l : list TextChunk) :
  chunkIndex st = Z.of_nat (List.length (chunks st)) ->
  numbered (chunks st) ->
  chunkLoop fuel opts cleanText st = Some l -> numbered l.
Proof.
  revert st. induction fuel as [|fuel IH]; intros st Hi Hn; simpl;
    destruct (startPos st <? Js.length cleanText); try discriminate;
    try (intro H; injection H as <-; exact Hn).
  apply IH; [now apply chunkStep_index | now apply chunkStep_numbered].
Qed.

End ChunkInvariants.

Section ChunkTextInvariants.
Import TextChunker.

Lemma numbered_nil (cleanText : string) : numbered cleanText [].
Proof. intros [|i] c H; discriminate H. Qed.

Lemma chunkText_numbered (fuel : nat) (rawText : string) (options : ChunkingOptions)
  (l : list TextChunk) :
  chunkText fuel rawText options = Some l ->
  numbered (cleanTextOf (resolve options) rawText) l.
Proof.
  unfold chunkText.
  destruct (Js.length (cleanTextOf (resolve options) rawText) =? 0); intro H.
  - injection H as <-. apply numbered_nil.
  - eapply (chunkLoop_numbered (resolve options)) in H; [exact H|reflexivity|].
    apply numbered_nil.
Qed.

(** X1.  Every chunk [chunkText] returns is numbered by its place in the
    result (0, 1, 2, ...), has a text that is not empty and neither starts nor
    ends with white space, namely the trimmed span of the cleaned text between
    its two positions, and carries no metadata. *)
Theorem chunkText_chunks_numbered_and_trimmed (fuel : nat) (rawText : string)
  (options : ChunkingOptions) (l : list TextChunk) (i : nat) (c : TextChunk) :
  chunkText fuel rawText options = Some l ->
  nth_error l i = Some c ->
  index c = Z.of_nat i /\
  trimmed (text c) /\
  text c = Js.trim (Js.substring (cleanTextOf (resolve options) rawText)
                      (startPosition c) (endPosition c)) /\
  metadata c = None.
Proof. intros H Hc. apply chunkText_numbered in H. now apply H in Hc. Qed.

Lemma chunkText_chunks_numbered_and_trimmed_witness :
  let c := {| text := "aa"; index := 1; startPosition := 2; endPosition := 4;
              metadata := None |} in
  index c = Z.of_nat 1 /\
  trimmed (text c) /\
  text c = Js.trim (Js.substring (cleanTextOf (resolve (sized 2 5)) "aaaaa")
                      (startPosition c) (endPosition c)) /\
  metadata c = None.
Proof.
  apply (chunkText_chunks_numbered_and_trimmed 3 "aaaaa" (sized 2 5)
           [{| text := "aa"; index := 0; startPosition := 0; endPosition := 2;
               metadata := None |};
            {| text := "aa"; index := 1; startPosition := 2; endPosition := 4;
               metadata := None |};
            {| text := "a"; index := 2; startPosition := 4; endPosition := 5;
               metadata := None |}] 1).
  - vm_compute. reflexivity.
  - reflexivity.
Defined.

End ChunkTextInvariants.

Section SortedAppend.
Context {A : Type}.
Variable R : A -> A -> Prop.

Lemma StronglySorted_snoc (l : list A) (x : A) :
  StronglySorted R l -> Forall (fun a => R a x) l -> StronglySorted R (l ++ [x]).
Proof.
  induction 1 as [|y l Hs IH Hall]; intro Hx; simpl.
  - repeat constructor.
  - inversion Hx as [|? ? Hy Hx']; subst. constructor; [now apply IH|].
    apply Forall_app. split; [exact Hall | now constructor].
Qed.

Lemma StronglySorted_snoc_inv (l : list A) (x : A) :
  StronglySorted R (l ++ [x]) -> Forall (fun a => R a x) l.
Proof.
  induction l as [|y l IH]; simpl; intro H; [constructor|].
  inversion H as [|? ? Hs Hall]; subst. constructor; [|now apply IH].
  apply Forall_app in Hall as [_ Hall]. now inversion Hall.
Qed.

End SortedAppend.

(** * Positions of the chunks *)
Section ChunkPositions.
Import TextChunker.
Variable opts : Resolved.
Variable cleanText : string.
Hypothesis size_nonneg : 0 <= r_chunkSize opts.

(** Bound on the length of every separator. *)
Variable longest : Z.
Hypothesis separators_bounded :
  Forall (fun sep => Js.length sep <= longest) (r_separators opts).

Lemma findSplit_upper (startPos endPos : Z) (seps : list string) (p : Z) :
  startPos <= endPos <= Js.length cleanText ->
  findSplit cleanText startPos endPos seps = Some p ->
  p <= Js.length cleanText /\
  (Forall (fun sep => Js.length sep <= longest) seps -> p <= endPos + longest).
Proof.
  intro Hpos. induction seps as [|sep seps IH]; simpl; [discriminate|].
  set (searchStart := Z.max startPos (endPos - 200)).
  set (searchEnd := Z.min (endPos + 100) (Js.length cleanText)).
  set (segment := Js.substring cleanText searchStart searchEnd).
  destruct (lastIndexOf_range segment sep (endPos - searchStart)) as [E|Hge].
  - rewrite E. simpl. intro H. apply IH in H as [H1 H2]. split; trivial.
    intro Hall. inversion Hall; subst. now apply H2.
  - destruct (Z.eqb_spec (Js.lastIndexOf segment sep (endPos - searchStart)) (-1));
      [lia|].
    intro H. injection H as <-.
    destruct (lastIndexOf_upper segment sep (endPos - searchStart) Hge) as [Hroom Hat].
    assert (Hseg : Js.length segment =
                   Js.clamp (Js.length cleanText) searchEnd -
                   Js.clamp (Js.length cleanText) searchStart).
    { apply js_substring_length. unfold searchStart, searchEnd. lia. }
    unfold Js.clamp in Hseg. unfold searchStart, searchEnd in *. split; [lia|].
    intro Hall. inversion Hall; subst. lia.
Qed.

Lemma endPosAt_bounds (c : Z) :
  c < Js.length cleanText ->
  c <= endPosAt opts cleanText c <= Js.length cleanText /\
  endPosAt opts cleanText c <= c + r_chunkSize opts + Z.max longest 0.
Proof.
  intro Hc. unfold endPosAt.
  destruct (Z.min (c + r_chunkSize opts) (Js.length cleanText) <? Js.length cleanText);
    [|lia].
  destruct (findSplit cleanText c (Z.min (c + r_chunkSize opts) (Js.length cleanText))
              (r_separators opts)) as [p|] eqn:E; [|lia].
  pose proof (findSplit_after_start cleanText _ _ _ _ E) as [Hlow _].
  apply findSplit_upper in E as [Hup Hlong]; [|lia].
  specialize (Hlong separators_bounded). lia.
Qed.

Definition startsBefore (a b : TextChunk) : Prop := startPosition a < startPosition b.

(** The span of a chunk: not empty, inside the text, and no longer than the
    chunk size plus the longest separator. *)
Definition spanOk (c : TextChunk) : Prop :=
  startPosition c < endPosition c <= Js.length cleanText /\
  endPosition c - startPosition c <= r_chunkSize opts + Z.max longest 0.

Definition ordered (st : LoopState) : Prop :=
  StronglySorted startsBefore (chunks st) /\
  Forall (fun c => startPosition c < startPos st) (chunks st) /\
  Forall spanOk (chunks st).

Lemma at_last_cases (l : list TextChunk) :
  (l = [] /\ Js.at_ l (Z.of_nat (List.length l) - 1) = None) \/
  (exists l' x, l = l' ++ [x] /\ Js.at_ l (Z.of_nat (List.length l) - 1) = Some x).
Proof.
  destruct l as [|a l]; [now left | right].
  destruct (@exists_last _ (a :: l)) as (l' & x & E); [discriminate|].
  exists l', x. split; trivial. rewrite E. apply last_of_pushed.
Qed.

Lemma chunkStep_dropping_cursor (st : LoopState) :
  emits opts cleanText (startPos st) = false ->
  startPos (chunkStep opts cleanText st) =
  let endPos := endPosAt opts cleanText (startPos st) in
  match Js.at_ (chunks st) (Z.of_nat (List.length (chunks st)) - 1) with
  | Some lastChunk =>
      if endPos - r_chunkOverlap opts <=? startPosition lastChunk then endPos
      else endPos - r_chunkOverlap opts
  | None => endPos - r_chunkOverlap opts
  end.
Proof. intro He. unfold emits in He. unfold chunkStep. now rewrite He. Qed.

Lemma chunkStep_ordered (st : LoopState) :
  startPos st < Js.length cleanText -> ordered st -> ordered (chunkStep opts cleanText st).
Proof.
  intros Hc (Hs & Hcur & Hspan).
  destruct (endPosAt_bounds (startPos st) Hc) as [Hend Hlong].
  destruct (emits opts cleanText (startPos st)) eqn:He.
  - pose proof (emits_nonempty_span _ _ _ He) as Hne.
    destruct (chunkStep_emitting opts cleanText st He) as [Ech Ecur].
    cbv zeta in Ech, Ecur. unfold ordered. rewrite Ech, Ecur.
    assert (Hnext : startPos st <
                    (if endPosAt opts cleanText (startPos st) - r_chunkOverlap opts <=?
                        startPos st
                     then endPosAt opts cleanText (startPos st)
                     else endPosAt opts cleanText (startPos st) - r_chunkOverlap opts)).
    { destruct (Z.leb_spec (endPosAt opts cleanText (startPos st) - r_chunkOverlap opts)
                  (startPos st)); lia. }
    repeat split.
    + apply StronglySorted_snoc; trivial.
    + apply Forall_app. split; [|constructor; [exact Hnext|constructor]].
      eapply Forall_impl; [|exact Hcur]. cbv beta. intros; lia.
    + apply Forall_app. split; trivial. constructor; [|constructor].
      unfold spanOk. cbn [startPosition endPosition]. lia.
  - destruct (chunkStep_dropping opts cleanText st He) as [Ech _].
    pose proof (chunkStep_dropping_cursor st He) as Ecur. cbv zeta in Ecur.
    unfold ordered. rewrite Ech, Ecur. repeat split; trivial.
    destruct (at_last_cases (chunks st)) as [[E ->]|(l' & x & E & ->)].
    + rewrite E. constructor.
    + rewrite E in Hs, Hcur |- *. apply StronglySorted_snoc_inv in Hs.
      apply Forall_app in Hcur as [Hcur Hx]. inversion Hx as [|? ? Hx' _]; subst.
      destruct (Z.leb_spec (endPosAt opts cleanText (startPos st) - r_chunkOverlap opts)
                  (startPosition x)) as [Hle|Hgt].
      * apply Forall_app. split; [|constructor; [lia|constructor]].
        eapply Forall_impl; [|exact Hcur]. cbv beta. intros; lia.
      * apply Forall_app. split; [|constructor; [lia|constructor]].
        eapply Forall_impl; [|exact Hs]. unfold startsBefore. intros; lia.
Qed.

Lemma chunkLoop_ordered (fuel : nat) (st : LoopState) (l : list TextChunk) :
  ordered st -> chunkLoop fuel opts cleanText st = Some l ->
  StronglySorted startsBefore l /\ Forall spanOk l.
Proof.
  revert st. induction fuel as [|fuel IH]; intros st Ho; simpl;
    destruct (Z.ltb_spec (startPos st) (Js.length cleanText)) as [Hlt|Hge];
    try discriminate;
    try (intro H; injection H as <-; destruct Ho as (? & _ & ?); now split).
  apply IH. now apply chunkStep_ordered.
Qed.

(** ** Coverage *)

Hypothesis overlap_nonneg : 0 <= r_chunkOverlap opts.

(** Position [p] lies in the span of one of the chunks. *)
Definition covered (l : list TextChunk) (p : Z) : Prop :=
  exists c, In c l /\ startPosition c <= p < endPosition c.

(** A position of the text that holds a character other than white space. *)
Definition inked (p : Z) : Prop :=
  0 <= p /\
  exists ch, String.get (Z.to_nat p) cleanText = Some ch /\ Js.isWhiteSpace ch = false.

Definition coversUpTo (reach : Z) (l : list TextChunk) : Prop :=
  forall p, p < reach -> inked p -> covered l p.

Definition sweeping (st : LoopState) : Prop :=
  exists reach, startPos st <= reach <= Js.length cleanText /\
                coversUpTo reach (chunks st).

Lemma covered_incl (l l' : list TextChunk) (p : Z) :
  incl l l' -> covered l p -> covered l' p.
Proof. intros Hi (c & Hc & Hp). exists c. split; auto. Qed.

Lemma chunkStep_chunks_incl (st : LoopState) :
  incl (chunks st) (chunks (chunkStep opts cleanText st)).
Proof.
  destruct (emits opts cleanText (startPos st)) eqn:He.
  - destruct (chunkStep_emitting opts cleanText st He) as [-> _]. now apply incl_appl.
  - destruct (chunkStep_dropping opts cleanText st He) as [-> _]. apply incl_refl.
Qed.

Lemma chunkStep_sweeping (st : LoopState) :
  startPos st < Js.length cleanText -> sweeping st -> sweeping (chunkStep opts cleanText st).
Proof.
  intros Hc (reach & Hreach & Hcov).
  destruct (endPosAt_bounds (startPos st) Hc) as [Hend _].
  exists (Z.max reach (endPosAt opts cleanText (startPos st))). split.
  - destruct (chunkStep_cursor opts cleanText st) as [-> | ->]; lia.
  - intros p Hp Hink.
    destruct (Z.lt_ge_cases p reach) as [Hold|Hnew].
    + eapply covered_incl; [apply chunkStep_chunks_incl | now apply Hcov].
    + destruct (emits opts cleanText (startPos st)) eqn:He.
      * destruct (chunkStep_emitting opts cleanText st He) as [-> _].
        eexists. split; [apply in_or_app; right; now left|].
        cbn [startPosition endPosition]. lia.
      * exfalso. destruct Hink as (H0 & ch & Hget & Hch).
        unfold emits in He. apply Z.ltb_ge in He.
        assert (E : Js.trim (Js.substring cleanText (startPos st)
                               (endPosAt opts cleanText (startPos st))) = EmptyString).
        { destruct (Js.trim _); trivial. unfold Js.length in He. simpl in He. lia. }
        rewrite <- (js_substring_get cleanText (startPos st)
                      (endPosAt opts cleanText (startPos st)) p) in Hget by lia.
        apply (trim_empty_blank _ _ _ E) in Hget. congruence.
Qed.

Lemma chunkLoop_sweeps (fuel : nat) (st : LoopState) (l : list TextChunk) :
  sweeping st -> chunkLoop fuel opts cleanText st = Some l ->
  forall p, p < Js.length cleanText -> inked p -> covered l p.
Proof.
  revert st. induction fuel as [|fuel IH]; intros st Hsw; simpl;
    destruct (Z.ltb_spec (startPos st) (Js.length cleanText)) as [Hlt|Hge];
    try discriminate;
    try (intro H; injection H as <-; destruct Hsw as (reach & Hr & Hcov);
         intros p Hp; apply Hcov; lia).
  apply IH. now apply chunkStep_sweeping.
Qed.

End ChunkPositions.

Section ChunkTextPositions.
Import TextChunker.

Lemma get_beyond (s : string) (n : nat) :
  (String.length s <= n)%nat -> String.get n s = None.
Proof.
  revert n. induction s as [|c s IH]; intros [|n] H; simpl in *; trivial; try lia.
  apply IH. lia.
Qed.

(** Length of the longest separator. *)
Definition longestOf (seps : list string) : Z :=
  fold_right (fun sep m => Z.max (Js.length sep) m) 0 seps.

Lemma longestOf_bounds (seps : list string) :
  Forall (fun sep => Js.length sep <= longestOf seps) seps.
Proof.
  induction seps as [|sep seps IH]; constructor; simpl; [lia|].
  eapply Forall_impl; [|exact IH]. cbv beta. intros; lia.
Qed.

Lemma longestOf_nonneg (seps : list string) : 0 <= longestOf seps.
Proof. induction seps; simpl; lia. Qed.

Lemma ordered_initial (opts : Resolved) (cleanText : string) (longest : Z) :
  ordered opts cleanText longest initial.
Proof. repeat split; constructor. Qed.

(** X2.  For a chunk size that is not negative, the chunks [chunkText] returns
    start at strictly increasing positions; the span of each is not empty,
    ends inside the cleaned text, and is at most the chunk size plus the
    length of the longest separator long. *)
Theorem chunkText_positions_increase (fuel : nat) (rawText : string)
  (options : ChunkingOptions) (l : list TextChunk) :
  0 <= r_chunkSize (resolve options) ->
  chunkText fuel rawText options = Some l ->
  StronglySorted (fun a b => startPosition a < startPosition b) l /\
  Forall (fun c =>
            startPosition c < endPosition c <=
              Js.length (cleanTextOf (resolve options) rawText) /\
            endPosition c - startPosition c <=
              r_chunkSize (resolve options) + longestOf (r_separators (resolve options)))
         l.
Proof.
  intros Hsize. unfold chunkText.
  destruct (Js.length (cleanTextOf (resolve options) rawText) =? 0).
  - intro H. injection H as <-. split; constructor.
  - intro H.
    apply (chunkLoop_ordered (resolve options) (cleanTextOf (resolve options) rawText)
             Hsize (longestOf (r_separators (resolve options)))
             (longestOf_bounds _)) in H as [Hs Hspan]; [|apply ordered_initial].
    split; [exact Hs|].
    eapply Forall_impl; [|exact Hspan]. unfold spanOk.
    pose proof (longestOf_nonneg (r_separators (resolve options))). intros; lia.
Qed.

Lemma chunkText_positions_increase_witness :
  StronglySorted (fun a b => startPosition a < startPosition b)
    [{| text := "aa"; index := 0; startPosition := 0; endPosition := 2; metadata := None |};
     {| text := "aa"; index := 1; startPosition := 2; endPosition := 4; metadata := None |};
     {| text := "a"; index := 2; startPosition := 4; endPosition := 5; metadata := None |}] /\
  Forall (fun c =>
            startPosition c < endPosition c <=
              Js.length (cleanTextOf (resolve (sized 2 5)) "aaaaa") /\
            endPosition c - startPosition c <=
              r_chunkSize (resolve (sized 2 5)) +
              longestOf (r_separators (resolve (sized 2 5))))
    [{| text := "aa"; index := 0; startPosition := 0; endPosition := 2; metadata := None |};
     {| text := "aa"; index := 1; startPosition := 2; endPosition := 4; metadata := None |};
     {| text := "a"; index := 2; startPosition := 4; endPosition := 5; metadata := None |}].
Proof.
  apply (chunkText_positions_increase 3 "aaaaa" (sized 2 5)).
  - vm_compute. discriminate.
  - vm_compute. reflexivity.
Defined.

(** X3.  For a chunk size and an overlap that are not negative, every
    character of the cleaned text that is not white space lies in the span
    of one of the chunks [chunkText] returns. *)
Theorem chunkText_covers_text (fuel : nat) (rawText : string)
  (options : ChunkingOptions) (l : list TextChunk) (p : nat) (ch : ascii) :
  0 <= r_chunkSize (resolve options) ->
  0 <= r_chunkOverlap (resolve options) ->
  chunkText fuel rawText options = Some l ->
  String.get p (cleanTextOf (resolve options) rawText) = Some ch ->
  Js.isWhiteSpace ch = false ->
  exists c, In c l /\ startPosition c <= Z.of_nat p < endPosition c.
Proof.
  intros Hsize Hover. unfold chunkText.
  set (cleanText := cleanTextOf (resolve options) rawText).
  intros H Hget Hch.
  assert (Hp : Z.of_nat p < Js.length cleanText).
  { unfold Js.length. apply Nat2Z.inj_lt.
    destruct (Nat.lt_ge_cases p (String.length cleanText)) as [|Hge]; trivial.
    apply get_beyond in Hge. congruence. }
  destruct (Js.length cleanText =? 0) eqn:E0; [apply Z.eqb_eq in E0; lia|].
  apply (chunkLoop_sweeps (resolve options) cleanText Hsize
           (longestOf (r_separators (resolve options))) (longestOf_bounds _)
           Hover fuel initial l)
    with (p := Z.of_nat p) in H; trivial.
  - exists 0. split; [simpl; lia|]. intros q Hq [Hq0 _]. lia.
  - split; [lia|]. exists ch. now rewrite Nat2Z.id.
Qed.

Lemma chunkText_covers_text_witness :
  exists c,
    In c [{| text := "ab"; index := 0; startPosition := 0; endPosition := 3; metadata := None |};
          {| text := "cd"; index := 1; startPosition := 3; endPosition := 5; metadata := None |}] /\
    startPosition c <= Z.of_nat 3 < endPosition c.
Proof.
  apply (chunkText_covers_text 2 "ab cd" (sized 2 0) _ 3 "c").
  - vm_compute. discriminate.
  - vm_compute. discriminate.
  - vm_compute. reflexivity.
  - reflexivity.
  - reflexivity.
Defined.

(** X4.  With separators of at most four characters (the default ones have
    at most two) and a token limit that is not negative, every chunk
    [chunkByTokenLimit] returns has an estimated token count of at most
    [maxTokens + 1]: a cut behind a separator may exceed the limit by one
    token, not by more. *)
Theorem chunkByTokenLimit_within_one_token (fuel : nat) (rawText : string)
  (maxTokens : option Z) (options : ChunkingOptions) (l : list TextChunk) (c : TextChunk) :
  0 <= Js.orDefault maxTokens 512 ->
  Forall (fun sep => Js.length sep <= 4)
         (Js.orDefault (separators options) (r_separators DEFAULT_OPTIONS)) ->
  chunkByTokenLimit fuel rawText maxTokens options = Some l ->
  In c l ->
  estimateTokenCount (text c) <= Js.orDefault maxTokens 512 + 1.
Proof.
  intros Hmax Hseps. unfold chunkByTokenLimit. cbv zeta.
  set (options' := {| chunkSize := Some (Js.orDefault maxTokens 512 * 4);
                      chunkOverlap := chunkOverlap options;
                      separators := separators options;
                      preserveWhitespace := preserveWhitespace options |}).
  intros H Hc.
  pose proof H as Hcontent.
  destruct (In_nth_error _ _ Hc) as [i Hi].
  destruct (chunkText_numbered fuel rawText options' l Hcontent i c Hi)
    as (_ & _ & Etext & _).
  unfold chunkText in H.
  destruct (Js.length (cleanTextOf (resolve options') rawText) =? 0).
  { injection H as <-. contradiction. }
  apply (chunkLoop_ordered (resolve options') (cleanTextOf (resolve options') rawText)
           ltac:(simpl; lia) 4 Hseps) in H as [_ Hspan]; [|apply ordered_initial].
  rewrite Forall_forall in Hspan. destruct (Hspan c Hc) as [Hin Hlen].
  change (r_chunkSize (resolve options')) with (Js.orDefault maxTokens 512 * 4) in Hlen.
  assert (Js.length (text c) <= endPosition c - startPosition c).
  { rewrite Etext.
    pose proof (trim_length (Js.substring (cleanTextOf (resolve options') rawText)
                               (startPosition c) (endPosition c))) as Ht.
    rewrite js_substring_length in Ht by lia. unfold Js.clamp in Ht.
    pose proof (length_nonneg (cleanTextOf (resolve options') rawText)). lia. }
  unfold estimateTokenCount.
  apply Z.lt_succ_r, Z.div_lt_upper_bound; lia.
Qed.

Lemma chunkByTokenLimit_within_one_token_witness :
  estimateTokenCount "abcd." <= Js.orDefault (Some 1) 512 + 1.
Proof.
  apply (chunkByTokenLimit_within_one_token 2 "abcd. efgh" (Some 1) noOptions
           [{| text := "abcd."; index := 0; startPosition := 0; endPosition := 6;
               metadata := None |};
            {| text := "efgh"; index := 1; startPosition := 6; endPosition := 10;
               metadata := None |}]
           {| text := "abcd."; index := 0; startPosition := 0; endPosition := 6;
              metadata := None |}).
  - vm_compute. discriminate.
  - vm_compute. repeat constructor; discriminate.
  - vm_compute. reflexivity.
  - now left.
Defined.

(** The limit itself can be exceeded: with a limit of one token, the sentence
    that ends at the size limit is cut behind its full stop, and the chunk
    of five characters counts two tokens. *)
Example chunkByTokenLimit_exceeds_limit :
  option_map (map (fun c => estimateTokenCount (text c)))
    (chunkByTokenLimit 2 "abcd. efgh" (Some 1) noOptions) = Some [2; 1].
Proof. vm_compute. reflexivity. Qed.

End ChunkTextPositions.

(** * Texts that hold white space only *)
Section BlankTexts.
Import TextChunker.

Fixpoint blank (s : string) : bool :=
  match s with
  | EmptyString => true
  | String c r => Js.isWhiteSpace c && blank r
  end.

Lemma blank_append (a b : string) : blank (String.append a b) = blank a && blank b.
Proof. induction a as [|c a IH]; simpl; [|rewrite IH, andb_assoc]; reflexivity. Qed.

Lemma blank_trimStart (s : string) : blank s = true -> Js.trimStart s = EmptyString.
Proof.
  induction s as [|c s IH]; simpl; trivial.
  intro H. apply andb_true_iff in H as [-> H]. now apply IH.
Qed.

Lemma blank_trim (s : string) : blank s = true -> Js.trim s = EmptyString.
Proof. intro H. unfold Js.trim. now rewrite blank_trimStart. Qed.

Lemma blank_replaceCRLF (s : string) : blank s = true -> blank (Js.replaceCRLF s) = true.
Proof.
  assert (H : forall n s, (String.length s <= n)%nat ->
                          blank s = true -> blank (Js.replaceCRLF s) = true).
  { induction n as [|n IH]; intros [|c [|d r]] Hlen Hb; simpl in *; trivial; try lia.
    apply andb_true_iff in Hb as [Hc Hb]. apply andb_true_iff in Hb as [Hd Hr].
    destruct (Ascii.eqb c Js.CR && Ascii.eqb d Js.LF).
    - simpl. apply IH; [lia | exact Hr].
    - cbn [blank]. rewrite Hc. simpl. apply (IH (String d r)); [simpl; lia|].
      simpl. now rewrite Hd, Hr. }
  apply (H (String.length s)). lia.
Qed.

Lemma blank_emitNewlines (n : nat) : blank (Js.emitNewlines n) = true.
Proof. destruct n as [|[|n]]; reflexivity. Qed.

Lemma blank_collapseNewlines (s : string) (pending : nat) :
  blank s = true -> blank (Js.collapseNewlines pending s) = true.
Proof.
  revert pending. induction s as [|c s IH]; intros pending H; simpl.
  - apply blank_emitNewlines.
  - simpl in H. apply andb_true_iff in H as [Hc H].
    destruct (Ascii.eqb c Js.LF); [now apply IH|].
    rewrite blank_append, blank_emitNewlines. simpl. rewrite Hc. now apply IH.
Qed.

Lemma blank_collapseBlanks (s : string) (inRun : bool) :
  blank s = true -> blank (Js.collapseBlanks inRun s) = true.
Proof.
  revert inRun. induction s as [|c s IH]; intros inRun H; simpl; trivial.
  simpl in H. apply andb_true_iff in H as [Hc H].
  destruct (Ascii.eqb c Js.SP || Ascii.eqb c Js.TAB).
  - destruct inRun; [now apply IH | simpl; now apply IH].
  - simpl. rewrite Hc. now apply IH.
Qed.

Lemma blank_normalize (s : string) : blank s = true -> normalize s = EmptyString.
Proof.
  intro H. unfold normalize.
  now apply blank_trim, blank_collapseBlanks, blank_collapseNewlines, blank_replaceCRLF.
Qed.

(** X25.  With default whitespace handling, an empty text or a text of white
    space only gives no chunk, and the loop is not entered: the result does
    not depend on the number of iterations allowed. *)
Theorem chunkText_blank_gives_no_chunk (fuel : nat) (rawText : string)
  (options : ChunkingOptions) :
  r_preserveWhitespace (resolve options) = false ->
  blank rawText = true ->
  chunkText fuel rawText options = Some [].
Proof.
  intros Hpw Hb. unfold chunkText, cleanTextOf. rewrite Hpw.
  now rewrite (blank_normalize rawText Hb).
Qed.

Lemma chunkText_blank_gives_no_chunk_witness :
  chunkText 0 (String.append " " (String.append nl "  ")) noOptions = Some [].
Proof.
  apply (chunkText_blank_gives_no_chunk 0 (String.append " " (String.append nl "  "))
           noOptions); reflexivity.
Defined.

Lemma blank_substring (n m : nat) (s : string) :
  blank s = true -> blank (String.substring n m s) = true.
Proof.
  revert n m. induction s as [|c s IH]; intros n m H; [now destruct n, m|].
  simpl in H. apply andb_true_iff in H as [Hc H].
  destruct n as [|n], m as [|m]; simpl; trivial; try (now apply IH).
  rewrite Hc. now apply IH.
Qed.

Lemma blank_never_emits (opts : Resolved) (cleanText : string) (c : Z) :
  blank cleanText = true -> emits opts cleanText c = false.
Proof.
  intro H. unfold emits, Js.substring. now rewrite blank_trim by now apply blank_substring.
Qed.

(** With white space kept, a text of white space only and a positive overlap,
    every iteration drops its span and leaves the cursor before the end. *)
Lemma chunkLoop_blank_never_ends (opts : Resolved) (cleanText : string) :
  blank cleanText = true -> 0 <= r_chunkSize opts -> 0 < r_chunkOverlap opts ->
  forall (fuel : nat) (st : LoopState),
    chunks st = [] -> startPos st < Js.length cleanText ->
    chunkLoop fuel opts cleanText st = None.
Proof.
  intros Hb Hsize Hover. induction fuel as [|fuel IH]; intros st Hch Hc; simpl;
    destruct (Z.ltb_spec (startPos st) (Js.length cleanText)); try lia; trivial.
  pose proof (blank_never_emits opts cleanText (startPos st) Hb) as He.
  destruct (chunkStep_dropping opts cleanText st He) as [Ech _].
  pose proof (chunkStep_dropping_cursor opts cleanText st He) as Ecur. cbv zeta in Ecur.
  rewrite Hch in Ecur.
  change (Js.at_ (@nil TextChunk) (Z.of_nat (List.length (@nil TextChunk)) - 1))
    with (@None TextChunk) in Ecur.
  destruct (endPosAt_bounds opts cleanText Hsize (longestOf (r_separators opts))
              (longestOf_bounds _) (startPos st) Hc) as [Hend _].
  apply IH; [congruence|]. rewrite Ecur. lia.
Qed.

(** X26.  With [preserveWhitespace], a text of white space only that is not
    empty, a chunk size that is not negative and a positive overlap,
    [chunkText] never returns: every span is dropped as blank, no chunk is
    ever emitted, so the guard of the loop never applies and the cursor stays
    before the end of the text, however many iterations are allowed. *)
Theorem chunkText_blank_preserved_never_returns (fuel : nat) (rawText : string)
  (options : ChunkingOptions) :
  r_preserveWhitespace (resolve options) = true ->
  rawText <> EmptyString ->
  blank rawText = true ->
  0 <= r_chunkSize (resolve options) ->
  0 < r_chunkOverlap (resolve options) ->
  chunkText fuel rawText options = None.
Proof.
  intros Hpw Hne Hb Hsize Hover. unfold chunkText, cleanTextOf. rewrite Hpw.
  pose proof (length_pos rawText Hne) as Hlen.
  destruct (Z.eqb_spec (Js.length rawText) 0); [lia|].
  apply chunkLoop_blank_never_ends; trivial.
Qed.

Lemma chunkText_blank_preserved_never_returns_witness :
  chunkText 1000 "   "
    {| chunkSize := None; chunkOverlap := None; separators := None;
       preserveWhitespace := Some true |} = None.
Proof.
  apply (chunkText_blank_preserved_never_returns 1000 "   "
           {| chunkSize := None; chunkOverlap := None; separators := None;
              preserveWhitespace := Some true |});
    try reflexivity; try discriminate.
Defined.

End BlankTexts.

(** * Symmetry of the cosine similarity *)
Section CosineSymmetry.
Import Runtime.

Lemma SFmul_comm (prec emax : Z) (x y : spec_float) :
  SFmul prec emax x y = SFmul prec emax y x.
Proof.
  destruct x as [sx|sx| |sx mx ex], y as [sy|sy| |sy my ey]; simpl; trivial;
    try (now rewrite xorb_comm).
  now rewrite xorb_comm, Pos.mul_comm, Z.add_comm.
Qed.

Lemma float_mul_comm (x y : JsNumber.number) : (x * y)%float = (y * x)%float.
Proof. apply Prim2SF_inj. rewrite !mul_spec. apply SFmul_comm. Qed.

Lemma accumulate_swap (a b : list JsNumber.number) (d ma mb : JsNumber.number) :
  Embeddings.accumulate b a (d, mb, ma) =
  (let '(d', sa, sb) := Embeddings.accumulate a b (d, ma, mb) in (d', sb, sa)).
Proof.
  revert b d ma mb. induction a as [|x a IH]; intros [|y b] d ma mb; simpl; trivial.
  rewrite (float_mul_comm y x). apply IH.
Qed.

(** X5.  Both [cosineSimilarity] functions are symmetric: exchanging the two
    vectors gives the same number, bit for bit, or the same error. *)
Theorem cosineSimilarity_symmetric (a b : list JsNumber.number) :
  BrandVoiceQueries.cosineSimilarity a b = BrandVoiceQueries.cosineSimilarity b a /\
  Embeddings.cosineSimilarity a b = Embeddings.cosineSimilarity b a.
Proof.
  unfold BrandVoiceQueries.cosineSimilarity, Embeddings.cosineSimilarity.
  rewrite (Nat.eqb_sym (List.length b) (List.length a)).
  destruct (List.length a =? List.length b)%nat; simpl; [|now split].
  pose proof (accumulate_swap a b 0%float 0%float 0%float) as Hs.
  destruct (Embeddings.accumulate a b (0%float, 0%float, 0%float)) as [[d sa] sb] eqn:E.
  unfold JsNumber.number in *. rewrite Hs, E.
  rewrite (orb_comm (PrimFloat.sqrt sb =? 0)%float).
  rewrite (float_mul_comm (PrimFloat.sqrt sb)). now split.
Qed.

End CosineSymmetry.

(** * The most similar embeddings *)
Section MostSimilar.
Import Runtime Embeddings.

Lemma Forall2_In_left {A B : Type} (R : A -> B -> Prop) (l : list A) (l' : list B) (a : A) :
  Forall2 R l l' -> In a l -> exists b, In b l' /\ R a b.
Proof.
  induction 1 as [|x y l l' Hxy _ IH]; simpl; [contradiction|].
  intros [<-|H]; [eauto|]. destruct (IH H) as (b & Hb & Hab); eauto.
Qed.

Lemma Forall2_In_right {A B : Type} (R : A -> B -> Prop) (l : list A) (l' : list B) (b : B) :
  Forall2 R l l' -> In b l' -> exists a, In a l /\ R a b.
Proof.
  induction 1 as [|x y l l' Hxy _ IH]; simpl; [contradiction|].
  intros [<-|H]; [eauto|]. destruct (IH H) as (a & Ha & Hab); eauto.
Qed.

Lemma mapAnswer_Ok {A B : Type} (f : A -> answer B) (l : list A) (bs : list B) :
  mapAnswer f l = Ok bs -> Forall2 (fun a b => f a = Ok b) l bs.
Proof.
  revert bs. induction l as [|a l IH]; simpl; intros bs H.
  - injection H as <-. constructor.
  - destruct (f a) as [b|e] eqn:E; [|discriminate H].
    destruct (mapAnswer f l) as [bs'|e]; [|discriminate H].
    injection H as <-. constructor; auto.
Qed.

Lemma mapAnswer_Fail {A B : Type} (f : A -> answer B) (l : list A) (e : thrown) :
  mapAnswer f l = Fail e -> exists a, In a l /\ f a = Fail e.
Proof.
  induction l as [|a l IH]; simpl; [discriminate|].
  destruct (f a) as [b|e'] eqn:E.
  - destruct (mapAnswer f l) as [bs'|e']; [discriminate|].
    intro H. injection H as ->. destruct IH as (a' & Hin & Ha'); eauto.
  - intro H. injection H as ->. eauto.
Qed.

Lemma mapAnswer_all_Ok {A B : Type} (f : A -> answer B) (l : list A) :
  (forall a, In a l -> exists b, f a = Ok b) -> exists bs, mapAnswer f l = Ok bs.
Proof.
  induction l as [|a l IH]; simpl; intro H; [eauto|].
  destruct (H a (or_introl eq_refl)) as [b ->].
  destruct IH as [bs ->]; eauto.
Qed.

Lemma indexedFrom_In {A : Type} (l : list A) (k : Z) (a : A) (i : Z) :
  In (a, i) (indexedFrom k l) -> k <= i /\ nth_error l (Z.to_nat (i - k)) = Some a.
Proof.
  revert k. induction l as [|x l IH]; simpl; intros k; [contradiction|].
  intros [E|H].
  - injection E as -> ->. split; [lia|]. now rewrite Z.sub_diag.
  - apply IH in H as [Hk Hn]. split; [lia|].
    replace (Z.to_nat (i - k)) with (S (Z.to_nat (i - (k + 1)))) by lia. exact Hn.
Qed.

Lemma indexedFrom_fst {A : Type} (l : list A) (k : Z) : map fst (indexedFrom k l) = l.
Proof. revert k. induction l as [|x l IH]; simpl; intro k; [|rewrite IH]; trivial. Qed.

Lemma indexedFrom_NoDup {A : Type} (l : list A) (k : Z) : NoDup (map snd (indexedFrom k l)).
Proof.
  revert k. induction l as [|x l IH]; simpl; intro k; constructor; [|apply IH].
  intro H. apply in_map_iff in H as ([a i] & E & H). simpl in E. subst i.
  apply indexedFrom_In in H. lia.
Qed.

Lemma cosineSimilarity_Fail (a b : list JsNumber.number) (e : thrown) :
  cosineSimilarity a b = Fail e <->
  List.length a <> List.length b /\
  e = JsError "Embeddings must have the same dimensions".
Proof.
  unfold cosineSimilarity.
  destruct (Nat.eqb_spec (List.length a) (List.length b)) as [Hlen|Hlen]; simpl.
  - destruct (accumulate a b _) as [[d sa] sb].
    destruct (_ || _); split; try discriminate; intros [H _]; contradiction.
  - split; [intro H; injection H as <-; now split | intros [_ ->]; reflexivity].
Qed.

(** X6.  [findMostSimilar] throws exactly when one of the candidate embeddings
    has another dimension than the query, and then it throws the error of
    [cosineSimilarity]; no partial result is returned. *)
Theorem findMostSimilar_throws_iff_mismatch (queryEmbedding : list JsNumber.number)
  (embeddings : list (list JsNumber.number)) (topK : option Z) (e : thrown) :
  findMostSimilar queryEmbedding embeddings topK = Fail e <->
  Exists (fun v => List.length v <> List.length queryEmbedding) embeddings /\
  e = JsError "Embeddings must have the same dimensions".
Proof.
  unfold findMostSimilar. split.
  - destruct (mapAnswer _ _) as [rs|e'] eqn:E; [discriminate|].
    intro H. injection H as ->. apply mapAnswer_Fail in E as ([v i] & Hin & Hv).
    unfold rankedAt in Hv. simpl in Hv.
    destruct (cosineSimilarity queryEmbedding v) eqn:Ec; [discriminate|].
    injection Hv as ->. apply cosineSimilarity_Fail in Ec as [Hlen ->].
    split; trivial. apply Exists_exists. exists v. split; [|congruence].
    apply indexedFrom_In in Hin as [_ Hin]. now apply nth_error_In in Hin.
  - intros [Hex ->].
    destruct (mapAnswer _ _) as [rs|e'] eqn:E.
    + exfalso. apply mapAnswer_Ok in E. apply Exists_exists in Hex as (v & Hin & Hlen).
      assert (Hv : exists i, In (v, i) (indexed embeddings)).
      { unfold indexed. rewrite <- (indexedFrom_fst embeddings 0) in Hin.
        apply in_map_iff in Hin as ([v' i] & Ev & Hin). simpl in Ev. subst v'. eauto. }
      destruct Hv as [i Hv].
      destruct (Forall2_In_left _ _ _ _ E Hv) as (r & _ & Hr).
      unfold rankedAt in Hr. simpl in Hr.
      destruct (cosineSimilarity queryEmbedding v) eqn:Ec; [|discriminate].
      unfold cosineSimilarity in Ec.
      destruct (Nat.eqb_spec (List.length queryEmbedding) (List.length v)); simpl in Ec;
        [congruence | discriminate].
    + apply mapAnswer_Fail in E as ([v i] & _ & Hv). unfold rankedAt in Hv. simpl in Hv.
      destruct (cosineSimilarity queryEmbedding v) eqn:Ec; [discriminate|].
      injection Hv as ->. apply cosineSimilarity_Fail in Ec as [_ ->]. reflexivity.
Qed.

End MostSimilar.

Section MostSimilarResult.
Import Runtime Embeddings.

Lemma NoDup_firstn {A : Type} (n : nat) (l : list A) : NoDup l -> NoDup (firstn n l).
Proof.
  intro H. revert n. induction H as [|x l Hx _ IH]; intros [|n]; simpl; try constructor.
  - intro Hin. apply Hx. now apply firstn_incl in Hin.
  - apply IH.
Qed.

Lemma rankedAt_Ok (q : list JsNumber.number) (v : list JsNumber.number) (i : Z) (x : Ranked) :
  rankedAt q (v, i) = Ok x -> index x = i /\ cosineSimilarity q v = Ok (similarity x).
Proof.
  unfold rankedAt. simpl. destruct (cosineSimilarity q v) as [s|e]; [|discriminate].
  intro H. injection H as <-. now split.
Qed.

Lemma ranked_indices (q : list JsNumber.number) (l : list (list JsNumber.number * Z))
  (rs : list Ranked) :
  Forall2 (fun ei x => rankedAt q ei = Ok x) l rs -> map index rs = map snd l.
Proof.
  induction 1 as [|[v i] x l rs Hx _ IH]; simpl; trivial.
  apply rankedAt_Ok in Hx as [-> _]. now rewrite IH.
Qed.

Lemma indexedFrom_length {A : Type} (l : list A) (k : Z) :
  List.length (indexedFrom k l) = List.length l.
Proof. revert k. induction l as [|x l IH]; simpl; intro k; [|rewrite IH]; trivial. Qed.

Lemma findMostSimilar_Ok (q : list JsNumber.number) (es : list (list JsNumber.number))
  (topK : option Z) (r : list Ranked) :
  findMostSimilar q es topK = Ok r ->
  exists rs n,
    Forall2 (fun ei x => rankedAt q ei = Ok x) (indexed es) rs /\
    r = firstn n (Js.sort bySimilarity rs) /\
    (0 <= Js.orDefault topK 5 ->
     n = Z.to_nat (Z.min (Js.orDefault topK 5) (Z.of_nat (List.length es)))).
Proof.
  unfold findMostSimilar. destruct (mapAnswer _ _) as [rs|e] eqn:E; [|discriminate].
  intro H. injection H as <-. apply mapAnswer_Ok in E.
  rewrite slice_0_firstn. eexists rs, _. split; [exact E|]. split; [reflexivity|].
  intro Hk. destruct (Z.ltb_spec (Js.orDefault topK 5) 0); [lia|].
  rewrite (Permutation_length (sort_perm bySimilarity rs)).
  rewrite <- (Forall2_length E). unfold indexed. now rewrite indexedFrom_length.
Qed.

(** X7.  Every entry of the result of [findMostSimilar] names a position of
    the candidate list together with the cosine similarity of the candidate
    at that position; no position is named twice; and for a [topK] that is
    not negative the result has [min(topK, number of candidates)] entries. *)
Theorem findMostSimilar_entries (queryEmbedding : list JsNumber.number)
  (embeddings : list (list JsNumber.number)) (topK : option Z) (r : list Ranked) :
  findMostSimilar queryEmbedding embeddings topK = Ok r ->
  (forall x, In x r ->
     exists v, Js.at_ embeddings (index x) = Some v /\
               cosineSimilarity queryEmbedding v = Ok (similarity x)) /\
  NoDup (map index r) /\
  (0 <= Js.orDefault topK 5 ->
   Z.of_nat (List.length r) =
   Z.min (Js.orDefault topK 5) (Z.of_nat (List.length embeddings))).
Proof.
  intro H. apply findMostSimilar_Ok in H as (rs & n & Hrs & -> & Hn).
  split; [|split].
  - intros x Hx. apply firstn_incl in Hx.
    apply (Permutation_in _ (sort_perm bySimilarity rs)) in Hx.
    destruct (Forall2_In_right _ _ _ _ Hrs Hx) as ([v i] & Hin & Hv).
    apply rankedAt_Ok in Hv as [-> Hv]. exists v. split; trivial.
    apply indexedFrom_In in Hin as [H0 Hnth]. unfold Js.at_.
    destruct (Z.ltb_spec i 0); [lia|]. now rewrite Z.sub_0_r in Hnth.
  - rewrite <- firstn_map. apply NoDup_firstn.
    apply (Permutation_NoDup
             (Permutation_sym (Permutation_map index (sort_perm bySimilarity rs)))).
    rewrite (ranked_indices _ _ _ Hrs). apply indexedFrom_NoDup.
  - intro Hk. rewrite (Hn Hk), length_firstn.
    rewrite (Permutation_length (sort_perm bySimilarity rs)).
    rewrite <- (Forall2_length Hrs). unfold indexed. rewrite indexedFrom_length. lia.
Qed.

Lemma findMostSimilar_entries_witness :
  let r := [{| index := 1; similarity := 1%float |}] in
  (forall x, In x r ->
     exists v, Js.at_ [[0%float; 1%float]; [1%float; 0%float]] (index x) = Some v /\
               cosineSimilarity [1%float; 0%float] v = Ok (similarity x)) /\
  NoDup (map index r) /\
  Z.of_nat (List.length r) =
  Z.min 1 (Z.of_nat (List.length [[0%float; 1%float]; [1%float; 0%float]])).
Proof.
  destruct (findMostSimilar_entries [1%float; 0%float]
              [[0%float; 1%float]; [1%float; 0%float]] (Some 1)
              [{| index := 1; similarity := 1%float |}])
    as (Hin & Hnd & Hlen); [vm_compute; reflexivity|].
  split; [exact Hin|]. split; [exact Hnd|]. apply Hlen. simpl. lia.
Defined.

Definition rankKey (x : Ranked) : Z := JsNumberFacts.ord (similarity x).

Definition isNumber (x : Ranked) : Prop := JsNumber.isNaN (similarity x) = false.

Lemma after_ranked (x y : Ranked) :
  isNumber x -> isNumber y -> Js.after bySimilarity x y = (rankKey x <? rankKey y).
Proof.
  unfold isNumber, Js.after, bySimilarity, rankKey. intros Hx Hy.
  rewrite JsNumberFacts.ltb_sub_pos. now apply JsNumberFacts.ltb_ord.
Qed.

(** X8.  When no candidate has a similarity that is NaN, the result of
    [findMostSimilar] is in non-increasing order of similarity. *)
Theorem findMostSimilar_sorted (queryEmbedding : list JsNumber.number)
  (embeddings : list (list JsNumber.number)) (topK : option Z) (r : list Ranked) :
  (forall v s, In v embeddings -> cosineSimilarity queryEmbedding v = Ok s ->
               JsNumber.isNaN s = false) ->
  findMostSimilar queryEmbedding embeddings topK = Ok r ->
  StronglySorted (fun a b => (similarity b <=? similarity a)%float = true) r.
Proof.
  intros Hnum H. apply findMostSimilar_Ok in H as (rs & n & Hrs & -> & _).
  assert (Hall : Forall isNumber rs).
  { apply Forall_forall. intros x Hx.
    destruct (Forall2_In_right _ _ _ _ Hrs Hx) as ([v i] & Hin & Hv).
    apply rankedAt_Ok in Hv as [_ Hv]. apply (Hnum v); trivial.
    apply indexedFrom_In in Hin as [_ Hin]. now apply nth_error_In in Hin. }
  apply firstn_StronglySorted.
  apply StronglySorted_weaken with (R := keyDesc rankKey).
  - intros a b Ha Hb Hk.
    apply (Permutation_in _ (sort_perm bySimilarity rs)) in Ha, Hb.
    rewrite Forall_forall in Hall. apply Hall in Ha, Hb.
    unfold keyDesc, rankKey in Hk. rewrite JsNumberFacts.leb_ord by trivial.
    now apply Z.leb_le.
  - apply sort_sorted with (good := isNumber); trivial. apply after_ranked.
Qed.

Lemma findMostSimilar_sorted_witness :
  StronglySorted (fun a b => (similarity b <=? similarity a)%float = true)
    [{| index := 1; similarity := 1%float |}; {| index := 0; similarity := 0%float |}].
Proof.
  apply (findMostSimilar_sorted [1%float; 0%float]
           [[0%float; 1%float]; [1%float; 0%float]] None).
  - intros v s [<-|[<-|[]]] H; vm_compute in H; injection H as <-; reflexivity.
  - vm_compute. reflexivity.
Defined.

(** X9.  [normalizeEmbedding] returns a vector of the same dimension, and a
    vector whose components are all zero (of either sign) is returned as it
    is: nothing is divided by a zero magnitude. *)
Theorem normalizeEmbedding_dimension_and_zero (embedding : list JsNumber.number) :
  List.length (normalizeEmbedding embedding) = List.length embedding /\
  (Forall (fun x => (x =? 0)%float = true) embedding ->
   normalizeEmbedding embedding = embedding).
Proof.
  unfold normalizeEmbedding. split.
  - destruct (_ =? _)%float; [reflexivity | apply length_map].
  - intro H. apply zero_vector_zeroMagnitude in H.
    unfold zeroMagnitude, magnitude, addSquare in H.
    unfold JsNumber.number in *. now rewrite H.
Qed.

Lemma normalizeEmbedding_dimension_and_zero_witness :
  List.length (normalizeEmbedding [0%float; (-0)%float]) =
  List.length [0%float; (-0)%float] /\
  normalizeEmbedding [0%float; (-0)%float] = [0%float; (-0)%float].
Proof.
  destruct (normalizeEmbedding_dimension_and_zero [0%float; (-0)%float]) as [Hlen Hzero].
  split; [exact Hlen|]. apply Hzero. repeat constructor.
Defined.

End MostSimilarResult.

(** * The table under insertion and deletion *)
Section StoreFacts.
Import Runtime Database BrandVoiceQueries.
Variable env : Env.

Lemma skipn_batch {A : Type} (p : nat) (l : list A) :
  skipn p l = firstn 50 (skipn p l) ++ skipn (p + 50) l.
Proof. rewrite (Nat.add_comm p), <- skipn_skipn. symmetry. apply firstn_skipn. Qed.

Lemma slice_50 {A : Type} (l : list A) (p : nat) :
  (p < List.length l)%nat ->
  Js.slice l (Z.of_nat p) (Z.of_nat p + 50) = firstn 50 (skipn p l).
Proof.
  intro Hp. rewrite slice_batch by lia. now rewrite Nat2Z.id.
Qed.

(** What the loop does from the record at [p] on: the world stays as it is;
    the loop returns the count it had plus the number of records left, or
    throws what the client threw when a batch was handed to it. *)
Lemma insertLoop_outcome (rows : list InsertBrandVoiceEmbedding) :
  forall (fuel p : nat) (total : Z) (w : World),
    (List.length rows <= p + fuel * 50)%nat ->
    match insertLoop fuel env rows (Z.of_nat p) total w with
    | Returned n w' => w' = w /\ n = total + Z.of_nat (List.length (skipn p rows))
    | Threw e w' =>
        w' = w /\
        exists k, (p + k * 50 < List.length rows)%nat /\
                  sql_error env w (InsertRows (firstn 50 (skipn (p + k * 50) rows))) = Some e
    | Hang => False
    end.
Proof.
  induction fuel as [|fuel IH]; intros p total w Hfuel; simpl; unfold ret, hang;
    destruct (Z.ltb_spec (Z.of_nat p) (Z.of_nat (List.length rows))) as [Hlt|Hge];
    try lia;
    try (rewrite skipn_all2 by lia; simpl; split; [reflexivity | lia]).
  unfold bind, unsafe. rewrite slice_50 by lia.
  destruct (sql_error env w (InsertRows (firstn 50 (skipn p rows)))) as [e|] eqn:Esql.
  - split; [reflexivity|]. exists O. change (0 * 50)%nat with O. rewrite Nat.add_0_r.
    split; [lia | exact Esql].
  - replace (Z.of_nat p + 50) with (Z.of_nat (p + 50)) by lia.
    specialize (IH (p + 50)%nat
                  (total + Z.of_nat (List.length (firstn 50 (skipn p rows)))) w
                  ltac:(lia)).
    destruct (insertLoop fuel env rows (Z.of_nat (p + 50)) _ w) as [n w'|e w'|];
      [| |exact IH].
    + destruct IH as [-> ->]. split; [reflexivity|].
      rewrite (skipn_batch p rows) at 2. rewrite length_app. lia.
    + destruct IH as [-> (k & Hk & Hrej)]. split; [reflexivity|].
      exists (S k). replace (p + S k * 50)%nat with (p + 50 + k * 50)%nat by lia.
      now split.
Qed.

Lemma bulkInsert_outcome (rows : list InsertBrandVoiceEmbedding) (w : World) :
  match bulkInsertBrandVoiceEmbeddings env rows w with
  | Returned n w' => w' = w /\ n = Z.of_nat (List.length rows)
  | Threw e w' =>
      w' = w /\
      exists k, (k * 50 < List.length rows)%nat /\
                sql_error env w (InsertRows (firstn 50 (skipn (k * 50) rows))) = Some e
  | Hang => False
  end.
Proof.
  unfold bulkInsertBrandVoiceEmbeddings. destruct rows as [|r rows'] eqn:Erows;
    [now split|].
  rewrite <- Erows.
  pose proof (insertLoop_outcome rows (List.length rows) O 0 w ltac:(lia)) as H.
  change (Z.of_nat 0) with 0 in H.
  destruct (insertLoop (List.length rows) env rows 0 0 w) as [n w'|e w'|]; exact H.
Qed.

(** A client that takes every batch of at most 50 records lets the
    insertion return. *)
Lemma bulkInsert_accepted_returns (rows : list InsertBrandVoiceEmbedding) (w : World) :
  (forall w0 batch, (List.length batch <= 50)%nat ->
                    sql_error env w0 (InsertRows batch) = None) ->
  bulkInsertBrandVoiceEmbeddings env rows w = Returned (Z.of_nat (List.length rows)) w.
Proof.
  intro Hdb. pose proof (bulkInsert_outcome rows w) as H.
  destruct (bulkInsertBrandVoiceEmbeddings env rows w) as [n w'|e w'|];
    [| |contradiction].
  - now destruct H as [-> ->].
  - destruct H as [_ (k & _ & H)]. rewrite Hdb in H; [discriminate|].
    rewrite length_firstn. lia.
Qed.

(** X10.  [bulkInsertBrandVoiceEmbeddings] stores nothing.  It hands the
    records to [sql.unsafe] in batches of at most 50, and no statement is
    sent: whether it returns or throws, the table and the rest of the world
    are as before.  When it returns, it returns the number of records it was
    given, which its caller takes for the number of rows stored.  It throws
    only what the client threw when one of the batches was handed to it. *)
Theorem bulkInsert_stores_nothing (rows : list InsertBrandVoiceEmbedding) (w : World) :
  match bulkInsertBrandVoiceEmbeddings env rows w with
  | Returned n w' => w' = w /\ n = Z.of_nat (List.length rows)
  | Threw e w' =>
      w' = w /\
      exists k, (k * 50 < List.length rows)%nat /\
                sql_error env w (InsertRows (firstn 50 (skipn (k * 50) rows))) = Some e
  | Hang => False
  end.
Proof. apply bulkInsert_outcome. Qed.

End StoreFacts.

Section StoreContracts.
Import Runtime Database BrandVoiceQueries.
Variable env : Env.

Lemma filter_twice_none {A : Type} (p : A -> bool) (l : list A) :
  filter p (filter (fun x => negb (p x)) l) = [].
Proof.
  induction l as [|x l IH]; simpl; trivial.
  destruct (p x) eqn:E; simpl; [|rewrite E]; exact IH.
Qed.

Lemma filter_idem {A : Type} (p : A -> bool) (l : list A) : filter p (filter p l) = filter p l.
Proof.
  induction l as [|x l IH]; simpl; trivial.
  destruct (p x) eqn:E; simpl; [rewrite E, IH|]; trivial.
Qed.

Lemma filter_split_length {A : Type} (p : A -> bool) (l : list A) :
  (List.length (filter p l) + List.length (filter (fun x => negb (p x)) l) =
   List.length l)%nat.
Proof. induction l as [|x l IH]; simpl; trivial. destruct (p x); simpl; lia. Qed.

Lemma delete_outcome (file : string) (w : World) :
  deleteBrandVoiceEmbeddingsByFile env file w =
  match sql_error env w (DeleteByFile file) with
  | Some e => Threw e w
  | None =>
      Returned 0
        {| table := filter (fun row => negb (fromFile file row)) (table w);
           requests := requests w; nextId := nextId w; clock := clock w;
           fsCalls := fsCalls w |}
  end.
Proof.
  unfold deleteBrandVoiceEmbeddingsByFile, bind, submit.
  destruct (sql_error env w (DeleteByFile file)); reflexivity.
Qed.

Lemma fromFile_spec (file : string) (row : BrandVoiceEmbedding) :
  fromFile file row = true <-> source_file row = Some file.
Proof.
  unfold fromFile. destruct (source_file row) as [f|]; [|split; discriminate].
  rewrite String.eqb_eq. split; [now intros -> | now intros [= ->]].
Qed.

(** X12.  When [deleteBrandVoiceEmbeddingsByFile] returns, no row of the
    file is left and the rows of the other files are all kept; the number it
    returns is 0 however many rows it has deleted, so the caller never sees
    a count; deleting the same file again changes nothing.  When the
    database rejects the statement, nothing has changed. *)
Theorem deleteByFile_removes_the_file (file : string) (w : World) :
  match deleteBrandVoiceEmbeddingsByFile env file w with
  | Returned n w' =>
      n = 0 /\
      table w' = filter (fun row => negb (fromFile file row)) (table w) /\
      Forall (fun row => source_file row <> Some file) (table w') /\
      Z.of_nat (List.length (table w)) - Z.of_nat (List.length (table w')) =
        Z.of_nat (List.length (filter (fromFile file) (table w))) /\
      (forall m w'', deleteBrandVoiceEmbeddingsByFile env file w' = Returned m w'' ->
                     table w'' = table w')
  | Threw e w' => w' = w
  | Hang => False
  end.
Proof.
  rewrite delete_outcome. destruct (sql_error env w (DeleteByFile file)); [reflexivity|].
  cbn [table]. split; [reflexivity|]. split; [reflexivity|]. split; [|split].
  - apply Forall_forall. intros row Hrow Hfile.
    apply filter_In in Hrow as [_ Hrow]. apply fromFile_spec in Hfile.
    rewrite Hfile in Hrow. discriminate Hrow.
  - pose proof (filter_split_length (fromFile file) (table w)). lia.
  - intros m w''. rewrite delete_outcome. destruct (sql_error env _ _); [discriminate|].
    cbn [table]. intro H. injection H as _ <-. cbn [table].
    apply filter_idem.
Qed.

(** X13.  [findSimilarBrandVoice] only reads: the world is the same after it,
    whether it returns or throws.  Every result is a row of the table with
    the cosine similarity of its embedding to the query, and when a source
    is given every result has that source. *)
Theorem findSimilarBrandVoice_reads_rows_of_source (queryEmbedding : list JsNumber.number)
  (limit : Z) (minSimilarity : JsNumber.number) (src : option BrandVoiceSource) (w : World) :
  match findSimilarBrandVoice env queryEmbedding limit minSimilarity src w with
  | Returned results w' =>
      w' = w /\
      forall s, In s results ->
        In (item s) (table w) /\
        similarity s = cosineSimilarity queryEmbedding (embedding (item s)) /\
        (forall wanted, src = Some wanted -> source (item s) = wanted)
  | Threw e w' => w' = w
  | Hang => False
  end.
Proof.
  rewrite findSimilarBrandVoice_rank.
  assert (Hrank : forall candidates s,
            In s (rank queryEmbedding limit minSimilarity candidates) ->
            In (item s) candidates /\
            similarity s = cosineSimilarity queryEmbedding (embedding (item s))).
  { intros candidates s Hs.
    destruct (rank_prefix queryEmbedding limit minSimilarity candidates) as [n E].
    rewrite E in Hs. apply firstn_incl in Hs.
    apply (Permutation_in _ (sort_perm _ _)) in Hs.
    apply filter_In in Hs as [Hs _]. apply in_map_iff in Hs as (row & <- & Hrow).
    now split. }
  destruct src as [wanted|].
  - destruct (sql_error env w (SelectBySource wanted)); [reflexivity|].
    split; [reflexivity|]. intros s Hs. apply Hrank in Hs as [Hin Hsim].
    apply filter_In in Hin as [Hin Hsrc]. repeat split; trivial.
    intros wanted' [= <-]. destruct (source (item s)), wanted; trivial; discriminate.
  - destruct (sql_error env w SelectAll); [reflexivity|].
    split; [reflexivity|]. intros s Hs. apply Hrank in Hs as [Hin Hsim].
    repeat split; trivial. discriminate.
Qed.

End StoreContracts.

(** * Retrieval: what it changes and what it throws *)
Section RetrievalContract.
Import Runtime Database.
Variable env : Env.

(** The world after one more provider call. *)
Definition asked (input : list string) (w : World) : World :=
  {| table := table w; requests := requests w ++ [input];
     nextId := nextId w; clock := clock w; fsCalls := fsCalls w |}.

Lemma generateEmbedding_outcome (query : string) (mdl : EmbeddingModel) (w : World) :
  Embeddings.generateEmbedding env query mdl w =
  if OPENAI_API_KEY env then
    match embeddings_create env (requests w) mdl [query] with
    | Ok response =>
        match data response with
        | [] =>
            Threw (JsError (String.append "Failed to generate embedding: "
                              "No embedding returned from OpenAI"))
                  (asked [query] w)
        | e :: _ =>
            Returned {| Embeddings.embedding := e; Embeddings.text := Some query;
                        Embeddings.model := mdl;
                        Embeddings.dimensions := Z.of_nat (List.length e) |}
                     (asked [query] w)
        end
    | Fail error =>
        Threw (JsError (String.append "Failed to generate embedding: " (messageOf error)))
              (asked [query] w)
    end
  else Threw (JsError "OPENAI_API_KEY environment variable is not set") w.
Proof.
  unfold Embeddings.generateEmbedding, Embeddings.getOpenAIClient, bind, tryCatch,
    Embeddings.create, asked.
  destruct (OPENAI_API_KEY env); [|reflexivity]. unfold ret.
  destruct (embeddings_create env (requests w) mdl [query]) as [response|error]; simpl;
    [|reflexivity].
  destruct (data response); reflexivity.
Qed.

(** X14.  [retrieveBrandVoiceContext] never changes the table.  When it
    returns it has made exactly one provider call, with the query as the only
    input; no context is below the similarity threshold, and for a [topK]
    that is not negative there are at most [topK] contexts.  Whatever fails
    inside it (missing API key, provider, database) is thrown as an [Error]
    whose message starts with "Failed to retrieve brand voice context: ". *)
Theorem retrieveBrandVoiceContext_contract (query : string)
  (options : BrandVoiceRag.RAGOptions) (w : World) :
  match BrandVoiceRag.retrieveBrandVoiceContext env query options w with
  | Returned contexts w' =>
      table w' = table w /\
      requests w' = requests w ++ [[query]] /\
      Forall (fun c =>
                (Js.orDefault (BrandVoiceRag.minSimilarity options)
                   BrandVoiceRag.DEFAULT_minSimilarity <=?
                 BrandVoiceRag.similarity c)%float = true) contexts /\
      (0 <= Js.orDefault (BrandVoiceRag.topK options) BrandVoiceRag.DEFAULT_topK ->
       Z.of_nat (List.length contexts) <=
       Js.orDefault (BrandVoiceRag.topK options) BrandVoiceRag.DEFAULT_topK)
  | Threw e w' =>
      table w' = table w /\
      exists reason,
        e = JsError (String.append "Failed to retrieve brand voice context: " reason)
  | Hang => False
  end.
Proof.
  unfold BrandVoiceRag.retrieveBrandVoiceContext, tryCatch, bind.
  rewrite generateEmbedding_outcome.
  destruct (OPENAI_API_KEY env); [|split; eauto].
  destruct (embeddings_create env (requests w) Embeddings.DEFAULT_MODEL [query])
    as [response|error]; [|split; eauto].
  destruct (data response) as [|v rest]; [split; eauto|].
  rewrite findSimilarBrandVoice_rank. cbn [Embeddings.embedding].
  destruct (sql_error env (asked [query] w) SelectAll); [split; eauto|].
  unfold ret. split; [reflexivity|]. split; [reflexivity|]. split.
  - apply Forall_forall. intros c Hc. apply in_map_iff in Hc as (s & <- & Hs).
    pose proof (rank_aboveThreshold v
                  (Js.orDefault (BrandVoiceRag.topK options) BrandVoiceRag.DEFAULT_topK)
                  (Js.orDefault (BrandVoiceRag.minSimilarity options)
                     BrandVoiceRag.DEFAULT_minSimilarity)
                  (table (asked [query] w))) as Hall.
    rewrite Forall_forall in Hall. apply (Hall s Hs).
  - intro Hk. rewrite length_map. now apply rank_length.
Qed.

(** What the batch loop has done when it throws. *)
Lemma batchLoop_Threw (texts : list string) (mdl : EmbeddingModel) (batchSize : Z) :
  forall (fuel : nat) (i : Z) (acc : list Embeddings.EmbeddingResult) (tok : Z)
         (w w' : World) (e : thrown),
    Embeddings.batchLoop fuel env texts mdl batchSize i acc tok w = Threw e w' ->
    table w' = table w /\
    exists issued batch,
      requests w' = requests w ++ issued ++ [batch] /\
      embeddings_create env (requests w ++ issued) mdl batch = Fail e.
Proof.
  induction fuel as [|fuel IH]; intros i acc tok w w' e; simpl; unfold ret, hang;
    destruct (i <? Z.of_nat (List.length texts)); try discriminate.
  unfold bind, tryCatch, Embeddings.create, throw.
  destruct (embeddings_create env (requests w) mdl (Js.slice texts i (i + batchSize)))
    as [response|error] eqn:E; simpl.
  - intro H. apply IH in H as (Htab & issued & batch & Hreq & Hfail).
    cbn [table requests] in *. split; trivial.
    exists (Js.slice texts i (i + batchSize) :: issued), batch.
    rewrite <- app_assoc in Hreq, Hfail. now split.
  - intro H. injection H as <- <-. split; trivial.
    exists [], (Js.slice texts i (i + batchSize)). rewrite app_nil_r. now split.
Qed.

(** X15.  When [generateEmbeddingsBatch] throws, either the API key is not
    set and no call was made, or the provider has failed on one batch: the
    error is the provider's, unchanged, the calls for the batches before it
    have been made, and no embedding of those batches is returned.  The
    table is as before. *)
Theorem generateEmbeddingsBatch_rethrows_provider_error (fuel : nat) (texts : list string)
  (mdl : EmbeddingModel) (batchSize : Z) (w w' : World) (e : thrown) :
  Embeddings.generateEmbeddingsBatch fuel env texts mdl batchSize w = Threw e w' ->
  table w' = table w /\
  ((OPENAI_API_KEY env = false /\ requests w' = requests w /\
    e = JsError "OPENAI_API_KEY environment variable is not set") \/
   (exists issued batch,
      requests w' = requests w ++ issued ++ [batch] /\
      embeddings_create env (requests w ++ issued) mdl batch = Fail e)).
Proof.
  unfold Embeddings.generateEmbeddingsBatch, Embeddings.getOpenAIClient, bind.
  destruct (OPENAI_API_KEY env); simpl.
  - intro H. apply batchLoop_Threw in H as [Htab H]. split; [exact Htab | now right].
  - intro H. injection H as <- <-. split; [reflexivity | left; now repeat split].
Qed.

End RetrievalContract.

Section RetrievalExamples.
Import Runtime Database.

(** A provider that answers its first call and fails from then on. *)
Definition flakyEnv : Env :=
  {| OPENAI_API_KEY := true;
     embeddings_create := fun history _ input =>
       match history with
       | [] => Ok {| data := map (fun _ => [1%float]) input; total_tokens := 1 |}
       | _ => Fail (JsError "429 rate limit")
       end;
     sql_error := fun _ _ => None;
     fs_access := fun _ _ => false;
     fs_readdir := fun _ _ => Ok [];
     pdf_parse := fun _ _ => Fail NonError;
     path_basename := fun p => p;
     path_join := fun d f => String.append d f |}.

Lemma generateEmbeddingsBatch_rethrows_provider_error_witness :
  let w := Scenario.world [] in
  let w' := asked ["c"%string] (asked ["a"; "b"]%string w) in
  table w' = table w /\
  ((OPENAI_API_KEY flakyEnv = false /\ requests w' = requests w /\
    JsError "429 rate limit" = JsError "OPENAI_API_KEY environment variable is not set") \/
   (exists issued batch,
      requests w' = requests w ++ issued ++ [batch] /\
      embeddings_create flakyEnv (requests w ++ issued) SMALL batch =
      Fail (JsError "429 rate limit"))).
Proof.
  apply (generateEmbeddingsBatch_rethrows_provider_error flakyEnv 2
           ["a"; "b"; "c"]%string SMALL 2).
  vm_compute. reflexivity.
Defined.

End RetrievalExamples.

(** * Reading a directory of PDF files *)
Section DirectoryScan.
Import Runtime PdfReader.
Variable env : Env.

Lemma mapSet_In {V : Type} (k k' : string) (v v' : V) (m : list (string * V)) :
  In (k', v') (mapSet k v m) -> (k' = k /\ v' = v) \/ In (k', v') m.
Proof.
  induction m as [|[k0 v0] m IH]; simpl.
  - intros [E|[]]. injection E as <- <-. now left.
  - destruct (String.eqb_spec k k0) as [->|Hne]; simpl.
    + intros [E|H]; [injection E as <- <-; now left | right; now right].
    + intros [E|H]; [right; now left|]. destruct (IH H) as [?|?]; [now left | right; now right].
Qed.

Lemma mapSet_keys {V : Type} (k : string) (v : V) (m : list (string * V)) :
  map fst (mapSet k v m) = map fst m \/
  (~ In k (map fst m) /\ map fst (mapSet k v m) = map fst m ++ [k]).
Proof.
  induction m as [|[k0 v0] m IH]; simpl.
  - right. split; [tauto | reflexivity].
  - destruct (String.eqb_spec k k0) as [->|Hne]; simpl; [now left|].
    destruct IH as [->|[Hk ->]]; [now left | right].
    split; [|reflexivity]. intros [E|H]; [now apply Hne | now apply Hk].
Qed.

Lemma mapSet_NoDup {V : Type} (k : string) (v : V) (m : list (string * V)) :
  NoDup (map fst m) -> NoDup (map fst (mapSet k v m)).
Proof.
  intro H. destruct (mapSet_keys k v m) as [->|[Hk ->]]; trivial.
  apply NoDup_app; [exact H | repeat constructor; tauto |].
  intros x Hx [<-|[]]. now apply Hk.
Qed.

(** What the map holds: for each name, what the reader answered for the file
    of that name in the directory. *)
Definition readFrom (dirPath : string) (names : list string)
  (results : list (string * PDFContent)) : Prop :=
  NoDup (map fst results) /\
  forall name content,
    In (name, content) results ->
    In name names /\ exists n, pdf_parse env n (path_join env dirPath name) = Ok content.

Lemma readPDF_outcome (filePath : string) (w : World) :
  readPDF env filePath w =
  let w' := {| table := table w; requests := requests w; nextId := nextId w;
               clock := clock w; fsCalls := S (fsCalls w) |} in
  match pdf_parse env (fsCalls w) filePath with
  | Ok content => Returned content w'
  | Fail error =>
      Threw (JsError (String.append "Failed to read PDF: " (messageOf error))) w'
  end.
Proof.
  unfold readPDF, tryCatch, bind, fsCall, ofAnswer.
  destruct (pdf_parse env (fsCalls w) filePath); reflexivity.
Qed.

Lemma readEach_returns (dirPath : string) (names : list string) :
  forall (pdfFiles : list string) (results : list (string * PDFContent)) (w : World),
    incl pdfFiles names -> readFrom dirPath names results ->
    exists results' w',
      readEach env dirPath pdfFiles results w = Returned results' w' /\
      readFrom dirPath names results' /\ table w' = table w.
Proof.
  induction pdfFiles as [|file rest IH]; intros results w Hincl Hinv; simpl.
  - now exists results, w.
  - unfold bind at 1, tryCatch, bind at 1. rewrite readPDF_outcome. cbv zeta.
    assert (Hrest : incl rest names) by (intros x Hx; apply Hincl; now right).
    destruct (pdf_parse env (fsCalls w) (path_join env dirPath file)) as [content|error]
      eqn:E; unfold ret.
    + destruct (IH (mapSet file content results)
                  {| table := table w; requests := requests w; nextId := nextId w;
                     clock := clock w; fsCalls := S (fsCalls w) |} Hrest)
        as (results' & w' & Erun & Hinv' & Htab); [|eauto].
      destruct Hinv as [Hnd Hall]. split; [now apply mapSet_NoDup|].
      intros name c Hin. apply mapSet_In in Hin as [[-> ->]|Hin]; [|now apply Hall].
      split; [apply Hincl; now left | eauto].
    + destruct (IH results
                  {| table := table w; requests := requests w; nextId := nextId w;
                     clock := clock w; fsCalls := S (fsCalls w) |} Hrest Hinv)
        as (results' & w' & Erun & Hinv' & Htab). eauto.
Qed.

(** The world after one more call to the file system. *)
Definition ticked (w : World) : World :=
  {| table := table w; requests := requests w; nextId := nextId w;
     clock := clock w; fsCalls := S (fsCalls w) |}.

(** The names [readPDFsFromDirectory] and [listPDFFiles] keep of a listing. *)
Definition pdfNames (files : list string) : list string :=
  filter (fun file => endsWith (Js.toLowerCase file) ".pdf") files.

Lemma readPDFsFromDirectory_outcome (dirPath : string) (w : World) :
  readPDFsFromDirectory env dirPath w =
  match fs_readdir env (fsCalls w) dirPath with
  | Ok files => readEach env dirPath (pdfNames files) [] (ticked w)
  | Fail e => Threw e (ticked w)
  end.
Proof.
  unfold readPDFsFromDirectory, tryCatch, bind at 1, fsCall, bind at 1, ofAnswer.
  fold (ticked w).
  destruct (fs_readdir env (fsCalls w) dirPath) as [files|e]; [|reflexivity].
  unfold ret. fold (pdfNames files).
  destruct (readEach_returns dirPath (pdfNames files) (pdfNames files) [] (ticked w))
    as (pdfs & w' & -> & _); trivial; [apply incl_refl|].
  split; [constructor | intros ? ? []].
Qed.

Lemma readFrom_nil (dirPath : string) (names : list string) : readFrom dirPath names [].
Proof. split; [constructor | intros ? ? []]. Qed.

(** X16.  [readPDFsFromDirectory] throws only when the directory cannot be
    listed, and then it throws the error of the listing.  Otherwise it
    returns, whatever happens to the single files: the names in the map are
    distinct names of the listing that end in ".pdf" when lower-cased, each
    with the content the reader gave for the file of that name; a file that
    cannot be read is left out.  The table is not touched. *)
Theorem readPDFsFromDirectory_skips_unreadable_files (dirPath : string) (w : World) :
  match readPDFsFromDirectory env dirPath w with
  | Returned pdfs w' =>
      table w' = table w /\
      exists files,
        fs_readdir env (fsCalls w) dirPath = Ok files /\
        NoDup (map fst pdfs) /\
        forall name content,
          In (name, content) pdfs ->
          In name files /\
          endsWith (Js.toLowerCase name) ".pdf" = true /\
          exists n, pdf_parse env n (path_join env dirPath name) = Ok content
  | Threw e w' => fs_readdir env (fsCalls w) dirPath = Fail e
  | Hang => False
  end.
Proof.
  rewrite readPDFsFromDirectory_outcome.
  destruct (fs_readdir env (fsCalls w) dirPath) as [files|e]; [|reflexivity].
  destruct (readEach_returns dirPath (pdfNames files) (pdfNames files) [] (ticked w)
              (incl_refl _) (readFrom_nil _ _))
    as (pdfs & w' & -> & [Hnd Hall] & Htab).
  split; [exact Htab|]. exists files. split; [reflexivity|]. split; [exact Hnd|].
  intros name content Hin. destruct (Hall name content Hin) as [Hname Hparse].
  apply filter_In in Hname as [Hname Hpdf]. now repeat split.
Qed.

(** X17.  [listPDFFiles] never throws: when the directory cannot be listed it
    returns the empty list; otherwise it returns the names of the listing
    that end in ".pdf" when lower-cased, in the order of the listing, which
    are the names [readPDFsFromDirectory] would try to read from the same
    listing. *)
Theorem listPDFFiles_never_throws (dirPath : string) (w : World) :
  exists names w',
    listPDFFiles env dirPath w = Returned names w' /\
    table w' = table w /\
    match fs_readdir env (fsCalls w) dirPath with
    | Ok files => names = filter (fun file => endsWith (Js.toLowerCase file) ".pdf") files
    | Fail _ => names = []
    end /\
    forall pdfs w'', readPDFsFromDirectory env dirPath w = Returned pdfs w'' ->
                     incl (map fst pdfs) names.
Proof.
  rewrite readPDFsFromDirectory_outcome.
  unfold listPDFFiles, tryCatch, bind, fsCall, ofAnswer.
  destruct (fs_readdir env (fsCalls w) dirPath) as [files|e] eqn:E; unfold ret, throw.
  - eexists. eexists. split; [reflexivity|]. split; [reflexivity|]. split; [reflexivity|].
    intros pdfs w'' Hrun.
    destruct (readEach_returns dirPath (pdfNames files) (pdfNames files) [] (ticked w)
                (incl_refl _) (readFrom_nil _ _))
      as (pdfs' & w1 & Hrun' & [_ Hall] & _).
    rewrite Hrun in Hrun'. injection Hrun' as <- _.
    intros name Hname. apply in_map_iff in Hname as ([name' content] & <- & Hin).
    now destruct (Hall _ _ Hin) as [Hfile _].
  - eexists. eexists. split; [reflexivity|]. split; [reflexivity|]. split; [reflexivity|].
    discriminate.
Qed.

End DirectoryScan.

(** * What a successful ingestion leaves in the table *)
Section IngestionTable.
Import Runtime Database BrandVoiceIngestion.
Variable env : Env.

(** [responses] are what the provider answered to the requests [issued],
    made one after the other once [history] had been asked. *)
Fixpoint repliedBy (mdl : EmbeddingModel) (history issued : list (list string))
  (responses : list CreateResponse) : Prop :=
  match issued, responses with
  | [], [] => True
  | input :: issued', r :: responses' =>
      embeddings_create env history mdl input = Ok r /\
      repliedBy mdl (history ++ [input]) issued' responses'
  | _, _ => False
  end.

(** What the batch loop has done when it returns: only provider calls, and
    one entry pushed for each vector of each answer. *)
Lemma batchLoop_Returned_calls (texts : list string) (mdl : EmbeddingModel) (batchSize : Z) :
  forall (fuel : nat) (i : Z) (acc : list Embeddings.EmbeddingResult) (tok : Z)
         (w w' : World) (res : Embeddings.BatchEmbeddingResult),
    Embeddings.batchLoop fuel env texts mdl batchSize i acc tok w = Returned res w' ->
    table w' = table w /\
    exists issued responses,
      requests w' = requests w ++ issued /\
      repliedBy mdl (requests w) issued responses /\
      List.length (Embeddings.embeddings res) =
        (List.length acc + List.length (List.concat (map data responses)))%nat /\
      Embeddings.totalTokens res = tok + sumTokens responses.
Proof.
  induction fuel as [|fuel IH]; intros i acc tok w w' res; simpl; unfold ret, hang;
    destruct (i <? Z.of_nat (List.length texts)); try discriminate;
    try (intro H; injection H as <- <-; split; [reflexivity|]; exists [], [];
         rewrite app_nil_r; simpl; repeat split; lia).
  unfold bind, tryCatch, Embeddings.create, throw.
  destruct (embeddings_create env (requests w) mdl (Js.slice texts i (i + batchSize)))
    as [r|e] eqn:Er; simpl; [|discriminate].
  intro H. apply IH in H as (Htab & issued & responses & Hreq & Hrep & Hlen & Htok).
  cbn [table requests] in *. split; [exact Htab|].
  exists (Js.slice texts i (i + batchSize) :: issued), (r :: responses).
  split; [|split; [|split]].
  - rewrite Hreq. now rewrite <- app_assoc.
  - simpl. now split.
  - rewrite Hlen, length_app, length_map. unfold indexed. rewrite indexedFrom_length.
    simpl. rewrite length_app. lia.
  - rewrite Htok. simpl. lia.
Qed.

Lemma generateEmbeddingsBatch_Returned_calls (fuel : nat) (texts : list string)
  (mdl : EmbeddingModel) (batchSize : Z) (w w' : World)
  (res : Embeddings.BatchEmbeddingResult) :
  Embeddings.generateEmbeddingsBatch fuel env texts mdl batchSize w = Returned res w' ->
  table w' = table w /\
  exists issued responses,
    requests w' = requests w ++ issued /\
    repliedBy mdl (requests w) issued responses /\
    List.length (Embeddings.embeddings res) =
      List.length (List.concat (map data responses)) /\
    Embeddings.totalTokens res = sumTokens responses.
Proof.
  unfold Embeddings.generateEmbeddingsBatch, Embeddings.getOpenAIClient, bind.
  destruct (OPENAI_API_KEY env); simpl; [|discriminate].
  intro H. apply batchLoop_Returned_calls in H. exact H.
Qed.

(** [mapM] over a callback that leaves the world alone. *)
Lemma mapM_pure {A B : Type} (f : A -> M B) (P : B -> Prop) (l : list A) :
  (forall a w b w', f a w = Returned b w' -> w' = w /\ P b) ->
  forall w bs w', mapM f l w = Returned bs w' -> w' = w /\ Forall P bs.
Proof.
  intro Hf. induction l as [|a l IH]; simpl; intros w bs w' H.
  - injection H as <- <-. now split.
  - apply bind_Returned_inv in H as (b & w1 & Hb & H).
    apply bind_Returned_inv in H as (bs' & w2 & Hbs & H).
    injection H as <- <-. apply Hf in Hb as [-> Hb]. apply IH in Hbs as [-> Hbs].
    split; [reflexivity | now constructor].
Qed.

Lemma mapM_length {A B : Type} (f : A -> M B) (l : list A) (w w' : World) (bs : list B) :
  mapM f l w = Returned bs w' -> List.length bs = List.length l.
Proof.
  revert w bs. induction l as [|a l IH]; simpl; intros w bs H.
  - now injection H as <- _.
  - apply bind_Returned_inv in H as (b & w1 & _ & H).
    apply bind_Returned_inv in H as (bs' & w2 & Hbs & H).
    injection H as <- <-. simpl. f_equal. now apply (IH w1).
Qed.

Lemma toStore_Returned (src : BrandVoiceSource) (file : string)
  (chunkList : list TextChunker.TextChunk) (emb : Embeddings.EmbeddingResult * Z)
  (w w' : World) (r : InsertBrandVoiceEmbedding) :
  toStore src file chunkList emb w = Returned r w' ->
  w' = w /\ (i_source r = src /\ i_source_file r = Some file).
Proof.
  unfold toStore. destruct (Js.at_ chunkList (snd emb)); [|discriminate].
  destruct (Embeddings.text (fst emb)); [|discriminate].
  intro H. injection H as <- <-. now repeat split.
Qed.

Lemma bulkInsert_Returned (rows : list InsertBrandVoiceEmbedding) (w w' : World) (n : Z) :
  BrandVoiceQueries.bulkInsertBrandVoiceEmbeddings env rows w = Returned n w' ->
  n = Z.of_nat (List.length rows) /\ w' = w.
Proof.
  intro H. pose proof (bulkInsert_outcome env rows w) as Ho. rewrite H in Ho.
  now destruct Ho as [-> ->].
Qed.

(** The rows the table keeps when the ingestion starts. *)
Definition keptRows (options : IngestionOptions) (file : string) (w : World)
  : list BrandVoiceEmbedding :=
  match reIngest options with
  | Some true => filter (fun row => negb (BrandVoiceQueries.fromFile file row)) (table w)
  | _ => table w
  end.

Lemma ingestSteps_table (fuel : nat) (filePath file : string) (options : IngestionOptions)
  (w w' : World) (r : IngestionResult) :
  ingestSteps fuel env filePath file options w = Returned r w' ->
  table w' = keptRows options file w /\
  exists issued responses,
    requests w' = requests w ++ issued /\
    repliedBy SMALL (requests w) issued responses /\
    embeddings (stats r) = Z.of_nat (List.length (List.concat (map data responses))) /\
    tokens (stats r) = sumTokens responses.
Proof.
  unfold ingestSteps. intro H.
  apply bind_Returned_inv in H as (present & w1 & H1 & H).
  apply bind_Returned_inv in H as (u2 & w2 & H2 & H).
  apply bind_Returned_inv in H as (u3 & w3 & H3 & H).
  apply bind_Returned_inv in H as (pdfContent & w4 & H4 & H).
  destruct (TextChunker.chunkTextWithMetadata _ _ _ _) as [chunkList|]; [|discriminate H].
  apply bind_Returned_inv in H as (embeddingsResult & w5 & H5 & H).
  apply bind_Returned_inv in H as (embeddingsToStore & w6 & H6 & H).
  apply bind_Returned_inv in H as (stored & w7 & H7 & H).
  injection H as <- <-. cbn [stats embeddings tokens].
  assert (E1 : table w1 = table w /\ requests w1 = requests w).
  { unfold PdfReader.fileExists, fsCall in H1. now injection H1 as _ <-. }
  assert (E2 : w2 = w1).
  { destruct present; [now injection H2 as _ <- | discriminate H2]. }
  assert (E3 : table w3 = keptRows options file w2 /\ requests w3 = requests w2).
  { unfold keptRows. destruct (reIngest options) as [[|]|];
      try (now injection H3 as _ <-).
    apply bind_Returned_inv in H3 as (n & w3' & Hd & H3). injection H3 as _ <-.
    rewrite (delete_outcome env) in Hd.
    destruct (sql_error env w2 _); [discriminate|]. now injection Hd as _ <-. }
  assert (E4 : table w4 = table w3 /\ requests w4 = requests w3).
  { rewrite (readPDF_outcome env) in H4. cbv zeta in H4.
    destruct (pdf_parse env (fsCalls w3) filePath); [|discriminate].
    now injection H4 as _ <-. }
  apply generateEmbeddingsBatch_Returned_calls in H5
    as (Htab & issued & responses & Hreq & Hrep & Hlen & Htok).
  assert (H6' := H6).
  apply (mapM_pure _ (fun r => i_source r = source options /\ i_source_file r = Some file))
    in H6 as [-> Hrows]; [|intros a wa b wb; apply toStore_Returned].
  assert (Hstore : List.length embeddingsToStore =
                   List.length (Embeddings.embeddings embeddingsResult)).
  { rewrite (mapM_length _ _ _ _ _ H6'). unfold indexed. apply indexedFrom_length. }
  apply bulkInsert_Returned in H7 as (-> & ->).
  destruct E1 as [T1 R1], E3 as [T3 R3], E4 as [T4 R4]. subst w2.
  split.
  - rewrite Htab, T4, T3. unfold keptRows. now rewrite T1.
  - exists issued, responses. rewrite R4, R3, R1 in Hreq, Hrep.
    split; [exact Hreq|]. split; [exact Hrep|]. split; [|exact Htok].
    now rewrite Hstore, Hlen.
Qed.

(** X18.  A successful [ingestDocument] leaves no new row.  When it returns
    a result with [success = true], the table is what it kept (everything,
    or with [reIngest] everything but the rows of this file) and nothing
    more, so with [reIngest] no row of the file is left at all.  Yet
    [stats.embeddings] is the number of vectors the provider returned in
    the calls of this run, and [stats.tokens] the tokens it counted. *)
Theorem ingestDocument_success_leaves_no_new_row (fuel : nat) (filePath : string)
  (options : IngestionOptions) (w w' : World) (r : IngestionResult) :
  ingestDocument fuel env filePath options w = Returned r w' ->
  success r = true ->
  let file := path_basename env filePath in
  table w' = keptRows options file w /\
  (reIngest options = Some true ->
   Forall (fun row => source_file row <> Some file) (table w')) /\
  exists issued responses,
    requests w' = requests w ++ issued /\
    repliedBy SMALL (requests w) issued responses /\
    embeddings (stats r) = Z.of_nat (List.length (List.concat (map data responses))) /\
    tokens (stats r) = sumTokens responses.
Proof.
  rewrite ingestDocument_outcome. intros H Hok file.
  destruct (ingestSteps fuel env filePath (path_basename env filePath) options w)
    as [r0 w0|e w0|] eqn:E; try discriminate H.
  2: { injection H as <- _. discriminate Hok. }
  injection H as <- <-. apply ingestSteps_table in E as (Htab & Hstats).
  fold file in Htab. split; [exact Htab|]. split; [|exact Hstats].
  intro Hre. rewrite Htab. unfold keptRows. rewrite Hre.
  apply Forall_forall. intros row Hrow Hfile.
  apply filter_In in Hrow as [_ Hrow]. apply fromFile_spec in Hfile.
  rewrite Hfile in Hrow. discriminate Hrow.
Qed.

End IngestionTable.

Section IngestionTableExamples.
Import Runtime Database BrandVoiceIngestion.

Lemma ingestDocument_success_leaves_no_new_row_witness :
  exists r w',
    ingestDocument 5 guidesEnv "documents/style-guide.pdf"
      (withSource (callerOptions None) style_guide)
      (Scenario.world [Scenario.older]) = Returned r w' /\
    embeddings (stats r) = 1 /\
    table w' = [Scenario.older] /\
    Forall (fun row => source_file row <> Some "style-guide.pdf"%string) (table w') /\
    exists issued responses,
      requests w' = [] ++ issued /\
      repliedBy guidesEnv SMALL [] issued responses /\
      embeddings (stats r) = Z.of_nat (List.length (List.concat (map data responses))) /\
      tokens (stats r) = sumTokens responses.
Proof.
  eexists. eexists. split; [vm_compute; reflexivity|]. split; [reflexivity|].
  destruct (ingestDocument_success_leaves_no_new_row guidesEnv 5
              "documents/style-guide.pdf"
              (withSource (callerOptions None) style_guide)
              (Scenario.world [Scenario.older]) _ _ ltac:(vm_compute; reflexivity)
              ltac:(reflexivity))
    as (Htab & Hnone & Hstats).
  split; [exact Htab|]. split; [apply Hnone; reflexivity | exact Hstats].
Defined.

End IngestionTableExamples.

(** * Chunks with metadata *)
Section MetadataFacts.
Import TextChunker.

(** The chunk with [meta] as its metadata. *)
Definition withMetadata (meta : Obj.t) (chunk : TextChunk) : TextChunk :=
  {| text := text chunk; index := index chunk;
     startPosition := startPosition chunk; endPosition := endPosition chunk;
     metadata := Some meta |}.

Lemma chunkTextWithMetadata_Some (fuel : nat) (rawText : string) (meta : Obj.t)
  (options : ChunkingOptions) (l : list TextChunk) :
  chunkText fuel rawText options = Some l ->
  chunkTextWithMetadata fuel rawText meta options = Some (map (withMetadata meta) l).
Proof.
  intro E. unfold chunkTextWithMetadata. rewrite E. simpl. f_equal.
  apply map_ext_in. intros c Hc. destruct (In_nth_error _ _ Hc) as [i Hi].
  destruct (chunkText_numbered fuel rawText options l E i c Hi) as (_ & _ & _ & Hmeta).
  unfold withMetadata. now rewrite Hmeta.
Qed.

(** X22.  [chunkTextWithMetadata] returns the chunks of [chunkText], in the
    same order and with the same text, number and positions, each carrying
    exactly the metadata it was given; it finishes when [chunkText] does. *)
Theorem chunkTextWithMetadata_attaches_metadata (fuel : nat) (rawText : string)
  (meta : Obj.t) (options : ChunkingOptions) :
  chunkTextWithMetadata fuel rawText meta options =
  option_map (map (withMetadata meta)) (chunkText fuel rawText options).
Proof.
  destruct (chunkText fuel rawText options) as [l|] eqn:E.
  - now apply chunkTextWithMetadata_Some.
  - unfold chunkTextWithMetadata. now rewrite E.
Qed.

End MetadataFacts.

(** * The ingestion of a document when every collaborator does its part *)
Section IngestionSuccess.
Import Runtime Database BrandVoiceIngestion.
Variable env : Env.

Lemma bind_Returned {A B : Type} (m : M A) (k : A -> M B) (w w1 : World) (a : A) :
  m w = Returned a w1 -> bind m k w = k a w1.
Proof. unfold bind. now intros ->. Qed.

Lemma toStore_all (src : BrandVoiceSource) (file : string)
  (chunkList : list TextChunker.TextChunk) (w : World) :
  forall (embs : list Embeddings.EmbeddingResult) (k : nat),
    Forall (fun e => Embeddings.text e <> None) embs ->
    (k + List.length embs <= List.length chunkList)%nat ->
    exists rows,
      mapM (toStore src file chunkList) (indexedFrom (Z.of_nat k) embs) w = Returned rows w /\
      List.length rows = List.length embs.
Proof.
  induction embs as [|e embs IH]; intros k Hall Hlen; simpl.
  - now exists [].
  - inversion Hall as [|? ? He Hall']; subst. simpl in Hlen.
    assert (Hat : exists c, Js.at_ chunkList (Z.of_nat k) = Some c).
    { unfold Js.at_. destruct (Z.ltb_spec (Z.of_nat k) 0); [lia|]. rewrite Nat2Z.id.
      destruct (nth_error chunkList k) as [c|] eqn:E; [eauto|].
      apply nth_error_None in E. lia. }
    destruct Hat as [c Hc].
    destruct (Embeddings.text e) as [t|] eqn:Et; [|contradiction].
    replace (Z.of_nat k + 1) with (Z.of_nat (S k)) by lia.
    destruct (IH (S k) Hall' ltac:(lia)) as (rows & Hrows & Hn).
    eexists. split.
    + unfold bind at 1. unfold toStore at 1. cbn [fst snd]. rewrite Hc, Et. unfold ret at 1.
      unfold bind at 1. rewrite Hrows. reflexivity.
    + simpl. now rewrite Hn.
Qed.

Lemma ceilDiv_100_le (n : nat) : (Z.to_nat (ceilDiv (Z.of_nat n - 0) 100) <= n)%nat.
Proof.
  unfold ceilDiv. destruct n as [|n]; [reflexivity|].
  apply Nat2Z.inj_le. rewrite Z2Nat.id by (apply Z.div_pos; lia).
  apply Z.div_le_upper_bound; lia.
Qed.

(** X23.  When the API key is set, the provider answers every request with
    one vector per input, the database accepts every statement, the file is
    there and is read, and the chunking of its text finishes,
    [ingestDocument] succeeds: no error, the number of chunks both as
    [stats.chunks] and as [stats.embeddings], and the pages and characters
    of the document in the statistics. *)
Theorem ingestDocument_succeeds_with_sound_collaborators (fuel : nat) (filePath : string)
  (options : IngestionOptions) (w : World) (content : PDFContent)
  (chunkList : list TextChunker.TextChunk) :
  OPENAI_API_KEY env = true ->
  answersEveryInput env ->
  (forall w0 stmt, sql_error env w0 stmt = None) ->
  fs_access env (fsCalls w) filePath = true ->
  pdf_parse env (S (fsCalls w)) filePath = Ok content ->
  TextChunker.chunkText fuel (pdf_text content) (chunkingOptions options) = Some chunkList ->
  exists r w',
    ingestDocument fuel env filePath options w = Returned r w' /\
    success r = true /\ errors r = [] /\
    chunks (stats r) = Z.of_nat (List.length chunkList) /\
    embeddings (stats r) = Z.of_nat (List.length chunkList) /\
    pages (stats r) = numPages content /\
    characters (stats r) = Js.length (pdf_text content).
Proof.
  intros Hkey Hprov Hdb Hfile Hparse Hchunks.
  rewrite ingestDocument_outcome. unfold ingestSteps.
  set (file := path_basename env filePath).
  set (w1 := {| table := table w; requests := requests w; nextId := nextId w;
                clock := clock w; fsCalls := S (fsCalls w) |}).
  rewrite (bind_Returned _ _ w w1 true) by (unfold PdfReader.fileExists, fsCall; now rewrite Hfile).
  rewrite (bind_Returned (ret tt) _ w1 w1 tt) by reflexivity.
  assert (Hdel : exists w2,
            (match reIngest options with
             | Some true =>
                 bind (BrandVoiceQueries.deleteBrandVoiceEmbeddingsByFile env file)
                      (fun _ => ret tt)
             | _ => ret tt
             end) w1 = Returned tt w2 /\ fsCalls w2 = fsCalls w1).
  { destruct (reIngest options) as [[|]|]; try (now exists w1).
    unfold bind. rewrite (delete_outcome env), Hdb. eexists. split; reflexivity. }
  destruct Hdel as (w2 & Hdel & Hfs). rewrite (bind_Returned _ _ w1 w2 tt Hdel).
  set (w3 := {| table := table w2; requests := requests w2; nextId := nextId w2;
                clock := clock w2; fsCalls := S (fsCalls w2) |}).
  assert (Hread : PdfReader.readPDF env filePath w2 = Returned content w3).
  { rewrite (readPDF_outcome env), Hfs. unfold w1. cbn [fsCalls]. rewrite Hparse.
    unfold w3. now rewrite Hfs. }
  rewrite (bind_Returned _ _ w2 w3 content Hread).
  rewrite (chunkTextWithMetadata_Some _ _ _ _ _ Hchunks).
  set (chunkList' := map (withMetadata _) chunkList).
  set (texts := map TextChunker.text chunkList').
  destruct (batchLoop_complete env texts SMALL 100 Hprov ltac:(lia)
              (List.length texts) 0 [] 0 w3 ltac:(lia) (ceilDiv_100_le _))
    as (res & w4 & issued & responses & Erun & Htxt & _).
  simpl in Htxt.
  rewrite (bind_Returned _ _ w3 w4 res)
    by (unfold Embeddings.generateEmbeddingsBatch, Embeddings.getOpenAIClient;
        rewrite Hkey; exact Erun).
  assert (Hlen : List.length (Embeddings.embeddings res) = List.length chunkList).
  { rewrite <- (length_map Embeddings.text), Htxt, length_map.
    unfold texts, chunkList'. now rewrite !length_map. }
  destruct (toStore_all (source options) file chunkList' w4 (Embeddings.embeddings res) O)
    as (rows & Hrows & Hn).
  { apply Forall_forall. intros e He Hnone.
    apply (in_map Embeddings.text) in He. rewrite Htxt, Hnone in He.
    apply in_map_iff in He as (t & Ht & _). discriminate Ht. }
  { unfold chunkList'. rewrite length_map. simpl. lia. }
  rewrite (bind_Returned _ _ w4 w4 rows Hrows).
  pose proof (bulkInsert_accepted_returns env rows w4 (fun w0 batch _ => Hdb w0 _))
    as Hins.
  rewrite (bind_Returned _ _ w4 w4 _ Hins). unfold ret.
  eexists. eexists. split; [reflexivity|].
  cbn [success errors stats chunks embeddings pages characters].
  unfold chunkList'. rewrite length_map, Hn, Hlen. now repeat split.
Qed.

End IngestionSuccess.

Section IngestionSuccessExamples.
Import Runtime Database BrandVoiceIngestion.

Lemma ingestDocument_succeeds_with_sound_collaborators_witness :
  exists r w',
    ingestDocument 5 guidesEnv "documents/style-guide.pdf"
      (withSource (callerOptions None) style_guide) (Scenario.world []) = Returned r w' /\
    success r = true /\ errors r = [] /\
    chunks (stats r) = 1 /\ embeddings (stats r) = 1 /\
    pages (stats r) = 1 /\ characters (stats r) = 32.
Proof.
  apply (ingestDocument_succeeds_with_sound_collaborators guidesEnv 5
           "documents/style-guide.pdf" (withSource (callerOptions None) style_guide)
           (Scenario.world [])
           {| pdf_text := "Our tone is friendly and direct."; numPages := 1; title := None |}
           [{| TextChunker.text := "Our tone is friendly and direct.";
               TextChunker.index := 0; TextChunker.startPosition := 0;
               TextChunker.endPosition := 32; TextChunker.metadata := None |}]).
  - reflexivity.
  - intros history mdl input. eexists. split; [reflexivity|]. simpl. apply length_map.
  - reflexivity.
  - reflexivity.
  - reflexivity.
  - vm_compute. reflexivity.
Defined.

End IngestionSuccessExamples.

(** * Documents that cannot be ingested *)
Section IngestionFailures.
Import Runtime Database BrandVoiceIngestion.
Variable env : Env.

(** X27.  When the file is not there, [ingestDocument] returns the failure
    "File not found: <path>" and has done nothing but look for the file: no
    row is deleted, also with [reIngest], and no provider call is made. *)
Theorem ingestDocument_missing_file (fuel : nat) (filePath : string)
  (options : IngestionOptions) (w : World) :
  fs_access env (fsCalls w) filePath = false ->
  ingestDocument fuel env filePath options w =
  Returned {| success := false; fileName := path_basename env filePath;
              r_source := source options; stats := zeroStats;
              errors := [String.append "File not found: " filePath] |}
           (ticked w).
Proof.
  intro Hfile. rewrite ingestDocument_outcome. unfold ingestSteps.
  rewrite (bind_Returned _ _ w (ticked w) false)
    by (unfold PdfReader.fileExists, fsCall; now rewrite Hfile).
  reflexivity.
Qed.

(** X28.  Re-ingestion is not atomic.  With [reIngest], when the file is there
    and the database accepts the deletion but the file cannot be read,
    [ingestDocument] returns the failure "Failed to read PDF: ..." and the
    rows the table held for the file are gone: the table is left with the
    rows of the other files only. *)
Theorem ingestDocument_unreadable_file_loses_rows (fuel : nat) (filePath : string)
  (options : IngestionOptions) (w : World) (e : thrown) :
  reIngest options = Some true ->
  fs_access env (fsCalls w) filePath = true ->
  sql_error env (ticked w) (DeleteByFile (path_basename env filePath)) = None ->
  pdf_parse env (S (fsCalls w)) filePath = Fail e ->
  exists w',
    ingestDocument fuel env filePath options w =
    Returned {| success := false; fileName := path_basename env filePath;
                r_source := source options; stats := zeroStats;
                errors := [String.append "Failed to read PDF: " (messageOf e)] |} w' /\
    table w' =
    filter (fun row => negb (BrandVoiceQueries.fromFile (path_basename env filePath) row))
           (table w) /\
    requests w' = requests w.
Proof.
  intros Hre Hfile Hdel Hparse. rewrite ingestDocument_outcome. unfold ingestSteps.
  rewrite (bind_Returned _ _ w (ticked w) true)
    by (unfold PdfReader.fileExists, fsCall; now rewrite Hfile).
  rewrite (bind_Returned (ret tt) _ (ticked w) (ticked w) tt) by reflexivity.
  rewrite Hre.
  set (w2 := {| table := filter (fun row =>
                                   negb (BrandVoiceQueries.fromFile
                                           (path_basename env filePath) row))
                                (table w);
                requests := requests w; nextId := nextId w; clock := clock w;
                fsCalls := S (fsCalls w) |}).
  rewrite (bind_Returned _ _ (ticked w) w2 tt)
    by (unfold bind; rewrite (delete_outcome env), Hdel; reflexivity).
  unfold bind. rewrite (readPDF_outcome env). cbv zeta. cbn [fsCalls w2].
  unfold w2 at 1. cbn [fsCalls]. rewrite Hparse.
  eexists. split; [reflexivity|]. split; reflexivity.
Qed.

End IngestionFailures.

Section IngestionFailureExamples.
Import Runtime Database BrandVoiceIngestion.

(** A directory whose only document is there but cannot be parsed. *)
Definition brokenEnv : Env :=
  {| OPENAI_API_KEY := true;
     embeddings_create := fun _ _ input =>
       Ok {| data := map (fun _ => [1%float; 0%float]) input; total_tokens := 1 |};
     sql_error := fun _ _ => None;
     fs_access := fun _ _ => true;
     fs_readdir := fun _ _ => Ok ["notes.pdf"%string];
     pdf_parse := fun _ _ => Fail (JsError "Invalid PDF structure");
     path_basename := Scenario.basename;
     path_join := fun dir file => String.append dir (String.append "/" file) |}.

Lemma ingestDocument_missing_file_witness :
  ingestDocument 5 guidesEnv "documents/missing.pdf"
    (withSource (callerOptions None) other) (Scenario.world [Scenario.older]) =
  Returned {| success := false; fileName := "missing.pdf"; r_source := other;
              stats := zeroStats;
              errors := ["File not found: documents/missing.pdf"%string] |}
           (ticked (Scenario.world [Scenario.older])).
Proof.
  apply (ingestDocument_missing_file guidesEnv 5 "documents/missing.pdf"
           (withSource (callerOptions None) other) (Scenario.world [Scenario.older])).
  reflexivity.
Defined.

Lemma ingestDocument_unreadable_file_loses_rows_witness :
  exists w',
    ingestDocument 5 brokenEnv "documents/notes.pdf"
      (withSource (callerOptions None) other) (Scenario.world [Scenario.older]) =
    Returned {| success := false; fileName := "notes.pdf"; r_source := other;
                stats := zeroStats;
                errors := ["Failed to read PDF: Invalid PDF structure"%string] |} w' /\
    table w' = [] /\ requests w' = [].
Proof.
  apply (ingestDocument_unreadable_file_loses_rows brokenEnv 5 "documents/notes.pdf"
           (withSource (callerOptions None) other) (Scenario.world [Scenario.older])
           (JsError "Invalid PDF structure")); reflexivity.
Defined.

End IngestionFailureExamples.

(** * The summary of a directory ingestion *)
Section DirectorySummary.
Import Runtime Database BrandVoiceIngestion.
Variable env : Env.

(** The sum of one statistic over a list of results. *)
Definition sumOf (field : Stats -> Z) (rs : list IngestionResult) : Z :=
  fold_right (fun r acc => field (stats r) + acc) 0 rs.

(** A failed document reports no statistics. *)
Definition failedCountsNothing (r : IngestionResult) : Prop :=
  success r = false -> stats r = zeroStats.

Lemma ingestDocument_failedCountsNothing (fuel : nat) (filePath : string)
  (options : IngestionOptions) (w w' : World) (r : IngestionResult) :
  ingestDocument fuel env filePath options w = Returned r w' -> failedCountsNothing r.
Proof.
  rewrite ingestDocument_outcome.
  destruct (ingestSteps fuel env filePath (path_basename env filePath) options w)
    as [r0 w0|e w0|] eqn:E; intro H; try discriminate H.
  - injection H as -> ->. apply ingestSteps_Returned in E as (Hs & _).
    intro Hf. congruence.
  - injection H as <- _. intros _. reflexivity.
Qed.

Lemma ingestEach_outcome (fuel : nat) (dir : string) (options : PartialIngestionOptions)
  (pdfs : list (string * PDFContent)) :
  forall (acc : list IngestionResult) (w : World),
    match ingestEach fuel env dir options pdfs acc w with
    | Returned out w' =>
        exists rs, out = acc ++ rs /\ List.length rs = List.length pdfs /\
                   Forall failedCountsNothing rs
    | Threw e w' => False
    | Hang => True
    end.
Proof.
  induction pdfs as [|[file content] pdfs IH]; intros acc w; simpl.
  - exists []. rewrite app_nil_r. repeat split. constructor.
  - unfold bind at 1.
    destruct (ingestDocument fuel env (path_join env dir file)
                (withSource options (inferSource file)) w) as [r w1|e w1|] eqn:E; trivial.
    + specialize (IH (acc ++ [r]) w1).
      destruct (ingestEach fuel env dir options pdfs (acc ++ [r]) w1); trivial.
      destruct IH as (rs & -> & Hlen & Hall). exists (r :: rs).
      rewrite <- app_assoc. split; [reflexivity|]. split; [simpl; now rewrite Hlen|].
      constructor; trivial. now apply ingestDocument_failedCountsNothing in E.
    + now apply ingestDocument_never_throws in E.
Qed.

Lemma addStats_totals (rs : list IngestionResult) (acc : Stats) :
  let totals := fold_left addStats rs acc in
  pages totals = pages acc + sumOf pages rs /\
  characters totals = characters acc + sumOf characters rs /\
  chunks totals = chunks acc + sumOf chunks rs /\
  embeddings totals = embeddings acc + sumOf embeddings rs /\
  tokens totals = tokens acc + sumOf tokens rs.
Proof.
  revert acc. induction rs as [|r rs IH]; intro acc; simpl.
  - repeat split; lia.
  - destruct (IH (addStats acc r)) as (Hp & Hc & Hk & He & Ht). simpl in *.
    repeat split; lia.
Qed.

Lemma sumOf_successful (field : Stats -> Z) (rs : list IngestionResult) :
  field zeroStats = 0 -> Forall failedCountsNothing rs ->
  sumOf field rs = sumOf field (filter success rs).
Proof.
  intros Hz Hall. induction Hall as [|r rs Hr _ IH]; simpl; trivial.
  destruct (success r) eqn:Es; simpl; [now rewrite IH|].
  rewrite (Hr Es), Hz, IH. reflexivity.
Qed.

(** X24.  [ingestAllDocuments] throws only when the directory cannot be
    listed, and then the error of the listing; no document makes it throw.
    In what it returns, the flag is the conjunction of the flags of the
    results (so [true] when there is none), every total is the sum of that
    statistic over the results, and, failed documents reporting nothing, the
    sum over the successful ones. *)
Theorem ingestAllDocuments_totals_are_sums (fuel : nat) (dir : string)
  (options : PartialIngestionOptions) (w : World) :
  match ingestAllDocuments fuel env dir options w with
  | Returned res w' =>
      d_success res = forallb success (results res) /\
      pages (totalStats res) = sumOf pages (results res) /\
      characters (totalStats res) = sumOf characters (results res) /\
      chunks (totalStats res) = sumOf chunks (results res) /\
      embeddings (totalStats res) = sumOf embeddings (filter success (results res)) /\
      tokens (totalStats res) = sumOf tokens (filter success (results res))
  | Threw e w' => fs_readdir env (fsCalls w) dir = Fail e
  | Hang => True
  end.
Proof.
  unfold ingestAllDocuments, tryCatch, bind at 1.
  rewrite (readPDFsFromDirectory_outcome env).
  destruct (fs_readdir env (fsCalls w) dir) as [files|e]; [|reflexivity].
  destruct (readEach_returns env dir (pdfNames files) (pdfNames files) [] (ticked w)
              (incl_refl _) (readFrom_nil env _ _))
    as (pdfs & w0 & -> & _).
  unfold ingestScanned. destruct pdfs as [|p pdfs].
  - simpl. repeat split.
  - unfold bind. pose proof (ingestEach_outcome fuel dir options (p :: pdfs) [] w0) as H.
    destruct (ingestEach fuel env dir options (p :: pdfs) [] w0) as [out w1|e w1|];
      [|contradiction|trivial].
    destruct H as (rs & -> & _ & Hall). simpl app. unfold ret.
    cbn [d_success results totalStats].
    destruct (addStats_totals rs zeroStats) as (Hp & Hc & Hk & He & Ht). cbv zeta in *.
    simpl in Hp, Hc, Hk, He, Ht.
    rewrite <- (sumOf_successful embeddings rs eq_refl Hall).
    rewrite <- (sumOf_successful tokens rs eq_refl Hall).
    now repeat split.
Qed.

End DirectorySummary.

(** * Occurrences of one string in another *)
Section IncludesFacts.

Lemma append_assoc (a b c : string) :
  String.append (String.append a b) c = String.append a (String.append b c).
Proof. induction a as [|x a IH]; simpl; [|rewrite IH]; reflexivity. Qed.

Lemma append_empty (a : string) : String.append a EmptyString = a.
Proof. induction a as [|x a IH]; simpl; congruence. Qed.

Lemma prefix_append (sub rest : string) : String.prefix sub (String.append sub rest) = true.
Proof.
  induction sub as [|c sub IH]; simpl; [now destruct rest|].
  destruct (ascii_dec c c); [exact IH | contradiction].
Qed.

Lemma prefix_split (sub s : string) :
  String.prefix sub s = true -> exists rest, s = String.append sub rest.
Proof.
  revert s. induction sub as [|c sub IH]; intros s H; [now exists s|].
  destruct s as [|d s]; simpl in H; [discriminate|].
  destruct (ascii_dec c d) as [->|]; [|discriminate].
  destruct (IH s H) as [rest ->]. now exists rest.
Qed.

(** [s.includes(sub)] holds exactly when [s] is [sub] between two strings. *)
Lemma includes_iff (s sub : string) :
  Js.includes s sub = true <->
  exists before after, s = String.append before (String.append sub after).
Proof.
  split.
  - induction s as [|c s IH]; cbn [Js.includes].
    + rewrite orb_false_r. intro H. apply prefix_split in H as [rest ->].
      now exists EmptyString, rest.
    + intro H. apply orb_true_iff in H as [H|H].
      * apply prefix_split in H as [rest ->]. now exists EmptyString, rest.
      * destruct (IH H) as (b & a & ->). now exists (String c b), a.
  - intros (b & a & ->). induction b as [|c b IH].
    + cbn [String.append]. pose proof (prefix_append sub a) as Hp.
      destruct (String.append sub a); cbn [Js.includes]; now rewrite Hp.
    + cbn [String.append Js.includes]. rewrite IH. apply orb_true_r.
Qed.

Lemma includes_refl (s : string) : Js.includes s s = true.
Proof.
  apply includes_iff. exists EmptyString, EmptyString. simpl. now rewrite append_empty.
Qed.

Lemma includes_trans (a b c : string) :
  Js.includes a b = true -> Js.includes b c = true -> Js.includes a c = true.
Proof.
  rewrite !includes_iff. intros (p & q & ->) (p' & q' & ->).
  exists (String.append p p'), (String.append q' q). now rewrite !append_assoc.
Qed.

Lemma includes_append_l (a b sub : string) :
  Js.includes a sub = true -> Js.includes (String.append a b) sub = true.
Proof.
  rewrite !includes_iff. intros (p & q & ->).
  exists p, (String.append q b). now rewrite !append_assoc.
Qed.

Lemma includes_append_r (a b sub : string) :
  Js.includes b sub = true -> Js.includes (String.append a b) sub = true.
Proof.
  rewrite !includes_iff. intros (p & q & ->).
  exists (String.append a p), q. now rewrite !append_assoc.
Qed.

Lemma includes_join (l : list string) (sep x : string) :
  In x l -> Js.includes (Js.join l sep) x = true.
Proof.
  unfold Js.join. induction l as [|y l IH]; [contradiction|].
  intros [->|H]; simpl.
  - destruct l; [apply includes_refl | apply includes_append_l, includes_refl].
  - destruct l as [|z l]; [contradiction|].
    apply includes_append_r, includes_append_r. now apply IH.
Qed.

Lemma join_head (l : list string) (sep x : string) :
  exists rest, Js.join (x :: l) sep = String.append x rest.
Proof.
  unfold Js.join. simpl. destruct l; [exists EmptyString; now rewrite append_empty | eauto].
Qed.

End IncludesFacts.

(** * The prompt text built from the retrieved contexts *)
Section PromptFacts.
Import Runtime BrandVoiceRag.

(** The header of the reference at place [i], and under it its text. *)
Definition numberedText (i : nat) (context : BrandVoiceContext) : string :=
  String.append "[Brand Voice Reference "
    (String.append (Js.numberToString (Z.of_nat i + 1))
       (String.append "]"
          (String.append
             match BrandVoiceQueries.orNull (sourceFile context) with
             | Some file => String.append " (from " (String.append file ")")
             | None => EmptyString
             end
             (String.append TextChunker.nl (text context))))).

Lemma formatSection_numberedText (i : nat) (context : BrandVoiceContext) :
  exists rest,
    formatSection (context, Z.of_nat i) = String.append (numberedText i context) rest.
Proof.
  unfold formatSection, numberedText. cbn [fst snd].
  set (n := Js.numberToString (Z.of_nat i + 1)).
  destruct (BrandVoiceQueries.orNull (sourceFile context)); destruct (Obj.truthy _);
    eexists; rewrite !append_assoc; cbn [String.append];
    rewrite ?append_assoc; try reflexivity;
    symmetry; rewrite ?append_assoc; cbn [String.append]; rewrite ?append_empty; reflexivity.
Qed.

Lemma indexedFrom_nth {A : Type} (l : list A) (k : Z) (i : nat) (a : A) :
  nth_error l i = Some a -> In (a, k + Z.of_nat i) (indexedFrom k l).
Proof.
  revert k i. induction l as [|x l IH]; intros k [|i] H; simpl in *; try discriminate.
  - injection H as ->. left. f_equal. lia.
  - right. replace (k + Z.pos (Pos.of_succ_nat i)) with (k + 1 + Z.of_nat i) by lia.
    now apply IH.
Qed.

(** X19.  [formatBrandVoiceForPrompt] gives the fixed sentence for no context.
    Otherwise the result starts with the header of the first reference, and
    for the context at each place [i] it contains the header numbered
    [i + 1] (with the file, when the context has one) followed on the next
    line by the text of that context: every retrieved text appears in the
    prompt, under its own number. *)
Theorem formatBrandVoiceForPrompt_numbers_every_text (contexts : list BrandVoiceContext) :
  match contexts with
  | [] =>
      formatBrandVoiceForPrompt contexts =
      "No specific brand voice guidelines found for this context."%string
  | first :: _ =>
      String.prefix (numberedText 0 first) (formatBrandVoiceForPrompt contexts) = true /\
      forall i context,
        nth_error contexts i = Some context ->
        Js.includes (formatBrandVoiceForPrompt contexts) (numberedText i context) = true
  end.
Proof.
  destruct contexts as [|c0 rest] eqn:E; [reflexivity|]. rewrite <- E.
  assert (Hfmt : formatBrandVoiceForPrompt contexts =
                 Js.join (map formatSection (indexed contexts)) sectionSeparator).
  { now rewrite E. }
  rewrite Hfmt. split.
  - rewrite E. unfold indexed. cbn [indexedFrom map].
    destruct (join_head (map formatSection (indexedFrom (0 + 1) rest)) sectionSeparator
                (formatSection (c0, 0))) as [tail ->].
    destruct (formatSection_numberedText 0 c0) as [more Hmore]. cbn [Z.of_nat] in Hmore.
    rewrite Hmore, append_assoc. apply prefix_append.
  - intros i context Hi.
    apply includes_trans with (b := formatSection (context, Z.of_nat i)).
    + apply includes_join. apply in_map. apply (indexedFrom_nth contexts 0 i). exact Hi.
    + destruct (formatSection_numberedText i context) as [more ->].
      apply includes_append_l, includes_refl.
Qed.

End PromptFacts.

(** * Statistics *)
Section StatsFacts.
Import Runtime Database BrandVoiceStats.
Variable count_error : World -> CountStatement -> option thrown.

(** The sum of the counts of a record. *)
Definition sumCounts (counts : Counts) : Z :=
  fold_right (fun kv acc => snd kv + acc) 0 counts.

(** Distinct keys, each with a count of at least 1. *)
Definition grouped (counts : Counts) : Prop :=
  NoDup (map fst counts) /\ Forall (fun kv => 1 <= snd kv) counts.

Lemma bump_sum (k : string) (counts : Counts) :
  sumCounts (bump k counts) = sumCounts counts + 1.
Proof.
  induction counts as [|[k' n] rest IH]; simpl; [lia|].
  destruct (String.eqb k k'); simpl; lia.
Qed.

Lemma bump_keys (k : string) (counts : Counts) (x : string) :
  In x (map fst (bump k counts)) -> x = k \/ In x (map fst counts).
Proof.
  induction counts as [|[k' n] rest IH]; simpl.
  - intros [<-|[]]. now left.
  - destruct (String.eqb k k'); simpl; [now right|].
    intros [<-|H]; [right; now left|]. destruct (IH H); [now left | right; now right].
Qed.

Lemma bump_grouped (k : string) (counts : Counts) : grouped counts -> grouped (bump k counts).
Proof.
  unfold grouped. induction counts as [|[k' n] rest IH]; simpl.
  - intros _. split; repeat constructor; [tauto | simpl; lia].
  - intros [Hnd Hall]. inversion Hnd as [|? ? Hk' Hnd']; subst.
    inversion Hall as [|? ? Hn Hall']; subst. simpl in Hn.
    destruct (String.eqb_spec k k') as [->|Hne]; simpl.
    + split; [exact Hnd | constructor; [simpl; lia | exact Hall']].
    + destruct (IH (conj Hnd' Hall')) as [Hnd2 Hall2].
      split; [|constructor; trivial].
      constructor; [|exact Hnd2]. intro Hin. apply bump_keys in Hin as [E|Hin]; auto.
Qed.

Lemma groupCount_from (keys : list string) (acc : Counts) :
  grouped acc ->
  sumCounts (fold_left (fun a k => bump k a) keys acc) =
    sumCounts acc + Z.of_nat (List.length keys) /\
  grouped (fold_left (fun a k => bump k a) keys acc).
Proof.
  revert acc. induction keys as [|k keys IH]; intros acc Hacc; simpl.
  - split; [lia | exact Hacc].
  - destruct (IH (bump k acc) (bump_grouped k acc Hacc)) as [Hsum Hg].
    rewrite bump_sum in Hsum. split; [lia | exact Hg].
Qed.

Lemma groupCount_spec (keys : list string) :
  sumCounts (groupCount keys) = Z.of_nat (List.length keys) /\ grouped (groupCount keys).
Proof.
  destruct (groupCount_from keys []) as [Hsum Hg]; [split; constructor|].
  now split.
Qed.

Lemma fileKeys_length (rows : list BrandVoiceEmbedding) :
  (List.length (flat_map fileKey rows) <= List.length rows)%nat.
Proof.
  induction rows as [|row rows IH]; simpl; trivial.
  rewrite length_app. unfold fileKey at 1. destruct (source_file row); simpl; lia.
Qed.

Lemma getBrandVoiceStats_outcome (w : World) :
  getBrandVoiceStats count_error w =
  match count_error w CountAll with
  | Some e => Threw e w
  | None =>
      match count_error w CountBySource with
      | Some e => Threw e w
      | None =>
          match count_error w CountByFile with
          | Some e => Threw e w
          | None =>
              Returned
                {| total := Z.of_nat (List.length (table w));
                   bySource := groupCount (map (fun row => sourceName (source row)) (table w));
                   byFile := groupCount (flat_map fileKey (table w)) |} w
          end
      end
  end.
Proof.
  unfold getBrandVoiceStats, bind, submitCount, getWorld.
  destruct (count_error w CountAll); trivial.
  destruct (count_error w CountBySource); trivial.
  destruct (count_error w CountByFile); trivial.
Qed.

(** X20.  [getBrandVoiceStats] only reads.  In what it returns, [total] is
    the number of rows of the table, the counts by source add up to [total],
    the counts by file add up to at most [total] (rows without a file are
    not counted), and each of the two records has distinct keys with counts
    of at least 1. *)
Theorem getBrandVoiceStats_counts_add_up (w : World) :
  match getBrandVoiceStats count_error w with
  | Returned stats w' =>
      w' = w /\
      total stats = Z.of_nat (List.length (table w)) /\
      sumCounts (bySource stats) = total stats /\
      sumCounts (byFile stats) <= total stats /\
      grouped (bySource stats) /\ grouped (byFile stats)
  | Threw e w' => w' = w
  | Hang => False
  end.
Proof.
  rewrite getBrandVoiceStats_outcome.
  destruct (count_error w CountAll); trivial.
  destruct (count_error w CountBySource); trivial.
  destruct (count_error w CountByFile); trivial.
  cbn [total bySource byFile].
  destruct (groupCount_spec (map (fun row => sourceName (source row)) (table w)))
    as [Hs Hgs].
  destruct (groupCount_spec (flat_map fileKey (table w))) as [Hf Hgf].
  rewrite length_map in Hs. pose proof (fileKeys_length (table w)).
  repeat split; trivial; try apply Hgs; try apply Hgf. lia.
Qed.

(** X21.  [isBrandVoiceInitialized] returns [true] exactly when the table has
    a row, and [getBrandVoiceDebugInfo] reports the same flag with the number
    of rows; when the flag is [false] both records of counts are empty.
    Neither changes anything, and both throw what the database throws. *)
Theorem isBrandVoiceInitialized_iff_table_has_rows (w : World) :
  match isBrandVoiceInitialized count_error w,
        getBrandVoiceDebugInfo count_error w with
  | Returned flag w1, Returned info w2 =>
      w1 = w /\ w2 = w /\
      (flag = true <-> table w <> []) /\
      initialized info = flag /\
      totalEmbeddings info = Z.of_nat (List.length (table w)) /\
      (flag = false -> d_bySource info = [] /\ d_byFile info = [])
  | Threw e1 w1, Threw e2 w2 => e1 = e2 /\ w1 = w /\ w2 = w
  | _, _ => False
  end.
Proof.
  unfold isBrandVoiceInitialized, getBrandVoiceDebugInfo, bind.
  rewrite getBrandVoiceStats_outcome.
  destruct (count_error w CountAll); [now repeat split|].
  destruct (count_error w CountBySource); [now repeat split|].
  destruct (count_error w CountByFile); [now repeat split|].
  unfold ret. cbn [total bySource byFile initialized totalEmbeddings d_bySource d_byFile].
  split; [reflexivity|]. split; [reflexivity|]. split; [|split; [reflexivity|split]].
  - destruct (table w); simpl; split; try discriminate; try congruence; reflexivity.
  - reflexivity.
  - destruct (table w); simpl; [now split | discriminate].
Qed.

End StatsFacts.
